(** * Speed-share: chunk codec, rendezvous code, cipher envelope

    A shallow embedding of the transfer utilities of Speed-share
    (src/utils/concatBytes.ts, fileTransferOptimizer.ts, uniqueCode.ts,
    base64.ts, crypto.ts, configs.ts, the SDP codec and the metadata
    validator), followed by the properties of these functions.

    Conventions of the embedding.
    - A JavaScript number that holds a size, an offset or a count is an
      integer of [Z]; the model is exact on the safe-integer range.  A
      measured number is a rational, an infinity or NaN.
    - The contents of a [Uint8Array] are a [list byte].
    - A JavaScript string is the list of its UTF-16 code units.
    - A call that can throw returns an [outcome].
    - A [while] loop or an asynchronous recursion is a [Fixpoint] on a fuel
      argument; each entry point supplies the fuel and the theorems show
      that it is enough. *)

From Stdlib Require Import String Ascii.
From Stdlib Require Import ZArith NArith List Bool Lia.
From Stdlib Require Import Strings.Byte.
From Stdlib Require QArith.
Import ListNotations.

Open Scope Z_scope.

(** ** JavaScript values shared by all modules *)

Module Js.

Inductive error : Type :=
| RangeError
| InvalidCharacterError
| SyntaxError
| TypeError
| OperationError
| Error (message : list N).

(** A string is the list of its UTF-16 code units. *)
Definition jsstring : Type := list N.

(** The code units of a literal of the source. *)
Definition lit (s : string) : jsstring :=
  map N_of_ascii (list_ascii_of_string s).

Inductive outcome (A : Type) : Type :=
| Returns (value : A)
| Throws (e : error).

Arguments Returns {A} value.
Arguments Throws {A} e.

Definition bind {A B : Type} (m : outcome A) (k : A -> outcome B) : outcome B :=
  match m with
  | Returns a => k a
  | Throws e => Throws e
  end.

Definition bytes : Type := list byte.

Definition byte_of_Z (z : Z) : byte :=
  match Byte.of_N (Z.to_N (z mod 256)) with
  | Some b => b
  | None => x00
  end.

Definition Z_of_byte (b : byte) : Z := Z.of_N (Byte.to_N b).

Definition byteLength (a : bytes) : Z := Z.of_nat (length a).

(** The relative index of [subarray] and [slice]: a negative index counts
    from the end, and the result is clamped to [0, len]. *)
Definition relativeIndex (len rel : Z) : Z :=
  if rel <? 0 then Z.max (len + rel) 0 else Z.min rel len.

(** [range len b e] is the first index and the length of the view that
    [subarray(b, e)] makes on an array of [len] elements. *)
Definition range (len b e : Z) : Z * Z :=
  let beginIndex := relativeIndex len b in
  let endIndex := relativeIndex len e in
  (beginIndex, Z.max (endIndex - beginIndex) 0).

Definition window (a : bytes) (r : Z * Z) : bytes :=
  firstn (Z.to_nat (snd r)) (skipn (Z.to_nat (fst r)) a).

Definition subarray (a : bytes) (b e : Z) : bytes :=
  window a (range (byteLength a) b e).

(** [subarray(b)], the end index left out. *)
Definition subarray_from (a : bytes) (b : Z) : bytes :=
  subarray a b (byteLength a).

(** [slice] copies the elements that [subarray] would view. *)
Definition slice (a : bytes) (b e : Z) : bytes := subarray a b e.

Definition slice_from (a : bytes) (b : Z) : bytes := subarray_from a b.

(** [new Uint8Array(n)]: [n] zero bytes. *)
Definition newUint8Array (n : Z) : bytes := repeat x00 (Z.to_nat n).

(** [target.set(source, offset)] throws a RangeError when the source does
    not fit. *)
Definition set (target source : bytes) (offset : Z) : outcome bytes :=
  if (offset <? 0) || (byteLength target <? offset + byteLength source)
  then Throws RangeError
  else Returns (firstn (Z.to_nat offset) target ++ source
                ++ skipn (Z.to_nat (offset + byteLength source)) target).

(** [new Uint16Array([n])] stores [n] modulo 2^16. *)
Definition ToUint16 (n : Z) : Z := n mod 65536.

(** The two bytes of a [Uint16Array] of one element, low byte first. *)
Definition uint16_buffer (v : Z) : bytes :=
  [byte_of_Z (v mod 256); byte_of_Z (v / 256)].

Definition uint16_of_bytes (b0 b1 : byte) : Z :=
  Z_of_byte b0 + 256 * Z_of_byte b1.

End Js.

Notation "x <- m ;; k" := (Js.bind m (fun x => k))
  (at level 61, m at next level, right associativity).

(** ** concatBytes.ts *)

Module ConcatBytes.
Import Js.

(** [concatUint8Arrays]: split index (2 bytes) | array 1 | array 2. *)
Definition concatUint8Arrays (array1 array2 : bytes) : outcome bytes :=
  let splitIndex := ToUint16 (byteLength array1) in
  let splitIndexBytes := uint16_buffer splitIndex in
  let concatedArray :=
    newUint8Array (2 + byteLength array1 + byteLength array2) in
  c1 <- set concatedArray splitIndexBytes 0 ;;
  c2 <- set c1 array1 2 ;;
  set c2 array2 (2 + byteLength array1).

(** [splitUint8Array].  [new Uint16Array(buffer)] on a buffer of one byte
    throws a RangeError; on an empty buffer it is empty, its element 0 is
    [undefined], and [2 + undefined] is NaN, which [subarray] reads as 0. *)
Definition splitUint8Array (combinedArray : bytes) : outcome (bytes * bytes) :=
  let splitIndexBytes := slice combinedArray 0 2 in
  match splitIndexBytes with
  | [b0; b1] =>
      let splitIndex := uint16_of_bytes b0 b1 in
      Returns (subarray combinedArray 2 (2 + splitIndex),
               subarray_from combinedArray (2 + splitIndex))
  | [_] => Throws RangeError
  | _ => Returns (subarray combinedArray 2 0, subarray_from combinedArray 0)
  end.

(** The length that the two-byte prefix of a frame declares. *)
Definition declaredLength (combinedArray : bytes) : option Z :=
  match combinedArray with
  | b0 :: b1 :: _ => Some (uint16_of_bytes b0 b1)
  | _ => None
  end.

(** A chunk of [createOptimizedChunks] is a view on the buffer of [data]:
    no byte is copied, the view is its first index and its length. *)
Record View : Type := mkView { byteOffset : Z; viewLength : Z }.

Definition viewBytes (data : bytes) (v : View) : bytes :=
  window data (byteOffset v, viewLength v).

Definition minimumChunk : Z := 16 * 1024 * 1024.

Fixpoint chunkLoop (fuel : nat) (len optimalChunkSize offset : Z)
         (chunks : list View) : option (list View) :=
  if offset <? len then
    match fuel with
    | O => None
    | S fuel' =>
        let r := range len offset (offset + optimalChunkSize) in
        chunkLoop fuel' len optimalChunkSize (offset + optimalChunkSize)
                  (chunks ++ [mkView (fst r) (snd r)])
    end
  else Some chunks.

(** [createOptimizedChunks]; [None] would be a loop still running when the
    fuel is spent. *)
Definition createOptimizedChunks (data : bytes) (chunkSize : Z)
  : option (list View) :=
  let optimalChunkSize := Z.max chunkSize minimumChunk in
  chunkLoop (S (length data)) (byteLength data) optimalChunkSize 0 [].

(** The views [vs] tile [start, stop): each begins where the one before
    ends and none is empty. *)
Fixpoint tiles (start : Z) (vs : list View) (stop : Z) : Prop :=
  match vs with
  | [] => start = stop
  | v :: rest =>
      byteOffset v = start /\ 0 < viewLength v
      /\ tiles (start + viewLength v) rest stop
  end.

(** A buffer of 65536 zero bytes, one more than a two-byte prefix counts. *)
Definition longBuffer : bytes := repeat x00 (Z.to_nat 65536).

(** Framing two buffers and splitting the frame again. *)
Definition frameRoundTrip (array1 array2 : bytes) : outcome (bytes * bytes) :=
  frame <- concatUint8Arrays array1 array2 ;; splitUint8Array frame.

(** *** processChunksParallel *)

(** [Promise.all]: the results in the order of the promises, or a
    rejection (of the rejected promises the model reports the first in
    order). *)
Fixpoint Promise_all {T : Type} (batch : list (outcome T)) : outcome (list T) :=
  match batch with
  | [] => Returns []
  | p :: rest =>
      t <- p ;; ts <- Promise_all rest ;; Returns (t :: ts)
  end.

Section ProcessChunksParallel.
Context {T : Type}.
Variable chunks : list bytes.
Variable processor : bytes -> outcome T.
Variable concurrency : Z.

(** The [for] loop that fills a batch; it returns the batch and the new
    value of [index]. *)
Fixpoint fillBatch (fuel : nat) (i : Z) (index : nat)
         (batch : list (outcome T)) : option (list (outcome T) * nat) :=
  if (i <? concurrency) && (index <? length chunks)%nat then
    match fuel with
    | O => None
    | S fuel' =>
        fillBatch fuel' (i + 1) (S index)
                  (batch ++ [processor (nth index chunks [])])
    end
  else Some (batch, index).

(** [processNextBatch], the asynchronous recursion; [None] is a run that
    is not over when the fuel is spent. *)
Fixpoint processNextBatch (fuel : nat) (index : nat) (results : list T)
  : option (outcome (list T)) :=
  match fuel with
  | O => None
  | S fuel' =>
      match fillBatch (length chunks) 0 index [] with
      | None => None
      | Some (batch, index') =>
          match Promise_all batch with
          | Throws e => Some (Throws e)
          | Returns batchResults =>
              let results' := results ++ batchResults in
              if (index' <? length chunks)%nat
              then processNextBatch fuel' index' results'
              else Some (Returns results')
          end
      end
  end.

Definition processChunksParallel : option (outcome (list T)) :=
  processNextBatch (S (length chunks)) 0%nat [].

End ProcessChunksParallel.

End ConcatBytes.

(** ** fileTransferOptimizer.ts *)

Module FileTransferOptimizer.
Import Js.

(** What a run of [progressiveFileTransfer] does, in order: the chunks
    handed to [sender] and the values handed to [onProgress]. *)
Inductive event : Type :=
| Sent (chunk : bytes) (isLast : bool)
| Progress (percent : Z).

Inductive status : Type :=
| Completed
| Rejected (e : error)
| Running.

Fixpoint reports (trace : list event) : list Z :=
  match trace with
  | [] => []
  | Progress p :: rest => p :: reports rest
  | Sent _ _ :: rest => reports rest
  end.

Section ProgressiveFileTransfer.

(** [floorPercent offset fileSize] stands for the floating-point
    expression [Math.floor((offset / fileSize) * 100)]. *)
Variable floorPercent : Z -> Z -> Z.
Variable sender : bytes -> bool -> outcome unit.
Variable data : bytes.
Variable chunkSize : Z.
(** Whether the optional [onProgress] is given. *)
Variable onProgress : bool.

Definition fileSize : Z := byteLength data.

(** The [while] loop; the state is [offset], [lastReportedProgress] and
    the events so far.  [Running] is a loop cut when the fuel is spent. *)
Fixpoint transferLoop (fuel : nat) (offset lastReportedProgress : Z)
         (trace : list event) : status * list event :=
  if offset <? fileSize then
    match fuel with
    | O => (Running, trace)
    | S fuel' =>
        let end_ := Z.min (offset + chunkSize) fileSize in
        let chunk := slice data offset end_ in
        let isLastChunk := end_ =? fileSize in
        match sender chunk isLastChunk with
        | Throws e => (Rejected e, trace ++ [Sent chunk isLastChunk])
        | Returns _ =>
            let trace1 := trace ++ [Sent chunk isLastChunk] in
            let offset1 := end_ in
            let currentProgress := floorPercent offset1 fileSize in
            if onProgress
               && ((lastReportedProgress + 1 <=? currentProgress)
                   || isLastChunk)
            then transferLoop fuel' offset1 currentProgress
                              (trace1 ++ [Progress currentProgress])
            else transferLoop fuel' offset1 lastReportedProgress trace1
        end
    end
  else (Completed, trace).

Definition progressiveFileTransfer : status * list event :=
  transferLoop (S (length data)) 0 0 [].

End ProgressiveFileTransfer.

(** The throttle on a sequence of reported values that starts after
    [last]: each value is at least one more than the value before it,
    except that the final value may be the completion report 100 and then
    only has to be no less than the value before it. *)
Fixpoint throttled (last : Z) (rs : list Z) : Prop :=
  match rs with
  | [] => True
  | r :: rest =>
      (last + 1 <= r \/ (rest = [] /\ r = 100 /\ last <= r))
      /\ throttled r rest
  end.

Fixpoint nondecreasing (last : Z) (rs : list Z) : Prop :=
  match rs with
  | [] => True
  | r :: rest => last <= r /\ nondecreasing r rest
  end.

(** The exact whole percent, the value of [floorPercent] when no rounding
    occurs. *)
Definition exactPercent (offset size : Z) : Z := 100 * offset / size.

Definition alwaysResolves (_ : bytes) (_ : bool) : outcome unit := Returns tt.

End FileTransferOptimizer.

(** ** base64.ts *)

Module Base64.
Import Js.

Open Scope N_scope.

(** *** The platform's [btoa] and [atob] *)

(** The character of a six-bit value in the alphabet A-Z a-z 0-9 + /. *)
Definition base64Char (v : N) : N :=
  if v <? 26 then 65 + v
  else if v <? 52 then 97 + (v - 26)
  else if v <? 62 then 48 + (v - 52)
  else if v =? 62 then 43
  else 47.

Definition base64Value (c : N) : option N :=
  if (65 <=? c) && (c <=? 90) then Some (c - 65)
  else if (97 <=? c) && (c <=? 122) then Some (c - 97 + 26)
  else if (48 <=? c) && (c <=? 57) then Some (c - 48 + 52)
  else if c =? 43 then Some 62
  else if c =? 47 then Some 63
  else None.

(** The six-bit values of a byte sequence, three bytes to four values; a
    last group of one or two bytes gives two or three values. *)
Fixpoint sextets (l : list N) : list N :=
  match l with
  | a :: b :: c :: rest =>
      a / 4 :: (a mod 4) * 16 + b / 16 :: (b mod 16) * 4 + c / 64
        :: c mod 64 :: sextets rest
  | [a; b] => [a / 4; (a mod 4) * 16 + b / 16; (b mod 16) * 4]
  | [a] => [a / 4; (a mod 4) * 16]
  | [] => []
  end.

Definition equalsSign : N := 61.

Definition padding (l : list N) : list N :=
  match (length l mod 3)%nat with
  | 0%nat => []
  | 1%nat => [equalsSign; equalsSign]
  | _ => [equalsSign]
  end.

(** [btoa]: an InvalidCharacterError when a code unit is above 255,
    otherwise the base64 text of the bytes. *)
Definition btoa (s : jsstring) : outcome jsstring :=
  if forallb (fun c => c <=? 255) s
  then Returns (map base64Char (sextets s) ++ padding s)
  else Throws InvalidCharacterError.

Definition isAsciiWhitespace (c : N) : bool :=
  (c =? 9) || (c =? 10) || (c =? 12) || (c =? 13) || (c =? 32).

(** When the length is a multiple of four, one or two final [=] are
    removed. *)
Definition stripPadding (s : jsstring) : jsstring :=
  if (length s mod 4 =? 0)%nat then
    match rev s with
    | x :: y :: r =>
        if x =? equalsSign
        then if y =? equalsSign then rev r else rev (y :: r)
        else s
    | [x] => if x =? equalsSign then [] else s
    | [] => s
    end
  else s.

Fixpoint traverse {A B : Type} (f : A -> option B) (l : list A)
  : option (list B) :=
  match l with
  | [] => Some []
  | x :: rest =>
      match f x, traverse f rest with
      | Some y, Some ys => Some (y :: ys)
      | _, _ => None
      end
  end.

(** The bytes of a sequence of six-bit values; the bits left over in a
    last group of two or three values are dropped, and a last group of a
    single value is an error. *)
Fixpoint unsextets (v : list N) : option (list N) :=
  match v with
  | a :: b :: c :: d :: rest =>
      match unsextets rest with
      | Some bs =>
          Some (a * 4 + b / 16 :: (b mod 16) * 16 + c / 4
                  :: (c mod 4) * 64 + d :: bs)
      | None => None
      end
  | [a; b; c] => Some [a * 4 + b / 16; (b mod 16) * 16 + c / 4]
  | [a; b] => Some [a * 4 + b / 16]
  | [_] => None
  | [] => Some []
  end.

(** [atob], the forgiving base64 decoding: ASCII whitespace is skipped;
    any other character outside the alphabet and a length of 1 modulo 4
    are an InvalidCharacterError. *)
Definition atob (s : jsstring) : outcome jsstring :=
  let data := stripPadding (filter (fun c => negb (isAsciiWhitespace c)) s) in
  match traverse base64Value data with
  | Some values =>
      match unsextets values with
      | Some bs => Returns bs
      | None => Throws InvalidCharacterError
      end
  | None => Throws InvalidCharacterError
  end.

(** *** The object [base64url] *)

(** [s.replace(/c/g, d)] for single characters. *)
Definition replaceAll (c d : N) (s : jsstring) : jsstring :=
  map (fun x => if x =? c then d else x) s.

(** What the two replacements of [encode], and the two of [decode], do to
    one character. *)
Definition urlSafe (c : N) : N :=
  let c1 := if c =? 43 then 45 else c in if c1 =? 47 then 95 else c1.

Definition urlUnsafe (c : N) : N :=
  let c1 := if c =? 45 then 43 else c in if c1 =? 95 then 47 else c1.

Fixpoint dropLeading (c : N) (s : jsstring) : jsstring :=
  match s with
  | x :: rest => if x =? c then dropLeading c rest else s
  | [] => []
  end.

(** [s.replace(/=+$/, '')]. *)
Definition removeTrailingEquals (s : jsstring) : jsstring :=
  rev (dropLeading equalsSign (rev s)).

Definition encode (str : jsstring) : outcome jsstring :=
  base64 <- btoa str ;;
  Returns (removeTrailingEquals (replaceAll 47 95 (replaceAll 43 45 base64))).

(** [while (base64.length % 4) base64 += '=']: at most three rounds. *)
Fixpoint padLoop (fuel : nat) (base64 : jsstring) : jsstring :=
  if (length base64 mod 4 =? 0)%nat then base64
  else match fuel with
       | O => base64
       | S fuel' => padLoop fuel' (base64 ++ [equalsSign])
       end.

Definition decode (str : jsstring) : outcome jsstring :=
  let base64 := replaceAll 95 47 (replaceAll 45 43 str) in
  atob (padLoop 3 base64).

End Base64.

(** ** The platform's JSON, for objects whose properties are strings *)

Module Json.
Import Js.

Open Scope N_scope.

Definition quotationMark : N := 34.
Definition reverseSolidus : N := 92.

Definition hexDigit (v : N) : N :=
  if v <? 10 then 48 + v else 97 + (v - 10).

Definition hexValue (c : N) : option N :=
  if (48 <=? c) && (c <=? 57) then Some (c - 48)
  else if (97 <=? c) && (c <=? 102) then Some (c - 97 + 10)
  else if (65 <=? c) && (c <=? 70) then Some (c - 65 + 10)
  else None.

(** [\uXXXX] with lowercase digits. *)
Definition unicodeEscape (c : N) : jsstring :=
  [reverseSolidus; 117; hexDigit (c / 4096); hexDigit ((c / 256) mod 16);
   hexDigit ((c / 16) mod 16); hexDigit (c mod 16)].

Definition isLeadingSurrogate (c : N) : bool := (55296 <=? c) && (c <=? 56319).
Definition isTrailingSurrogate (c : N) : bool := (56320 <=? c) && (c <=? 57343).

(** QuoteJSONString on one code point that is not a surrogate pair. *)
Definition quoteUnit (c : N) : jsstring :=
  if c =? 8 then [reverseSolidus; 98]
  else if c =? 9 then [reverseSolidus; 116]
  else if c =? 10 then [reverseSolidus; 110]
  else if c =? 12 then [reverseSolidus; 102]
  else if c =? 13 then [reverseSolidus; 114]
  else if c =? quotationMark then [reverseSolidus; quotationMark]
  else if c =? reverseSolidus then [reverseSolidus; reverseSolidus]
  else if (c <? 32) || isLeadingSurrogate c || isTrailingSurrogate c
       then unicodeEscape c
  else [c].

(** The characters between the quotation marks: a surrogate pair is
    copied, a lone surrogate is escaped. *)
Fixpoint quoteUnits (s : jsstring) : jsstring :=
  match s with
  | [] => []
  | c :: rest =>
      match rest with
      | d :: rest' =>
          if isLeadingSurrogate c && isTrailingSurrogate d
          then c :: d :: quoteUnits rest'
          else quoteUnit c ++ quoteUnits rest
      | [] => quoteUnit c
      end
  end.

Definition quoteJSONString (s : jsstring) : jsstring :=
  quotationMark :: quoteUnits s ++ [quotationMark].

Definition memberText (m : jsstring * jsstring) : jsstring :=
  quoteJSONString (fst m) ++ 58 :: quoteJSONString (snd m).

Fixpoint membersText (ms : list (jsstring * jsstring)) : jsstring :=
  match ms with
  | [] => []
  | [m] => memberText m
  | m :: rest => memberText m ++ 44 :: membersText rest
  end.

(** [JSON.stringify] of an object whose own properties, in order, are the
    string members [ms]. *)
Definition stringify (ms : list (jsstring * jsstring)) : jsstring :=
  123 :: membersText ms ++ [125].

Definition isJsonWhitespace (c : N) : bool :=
  (c =? 9) || (c =? 10) || (c =? 13) || (c =? 32).

Fixpoint skipWhitespace (s : jsstring) : jsstring :=
  match s with
  | c :: rest => if isJsonWhitespace c then skipWhitespace rest else s
  | [] => []
  end.

Definition simpleEscape (e : N) : option N :=
  if e =? quotationMark then Some quotationMark
  else if e =? reverseSolidus then Some reverseSolidus
  else if e =? 47 then Some 47
  else if e =? 98 then Some 8
  else if e =? 102 then Some 12
  else if e =? 110 then Some 10
  else if e =? 114 then Some 13
  else if e =? 116 then Some 9
  else None.

(** The characters of a JSON string after its opening quotation mark,
    and the text after its closing one. *)
Fixpoint parseChars (s : jsstring) : option (jsstring * jsstring) :=
  match s with
  | [] => None
  | c :: rest =>
      if c =? quotationMark then Some ([], rest)
      else if c =? reverseSolidus then
        match rest with
        | [] => None
        | e :: rest1 =>
            if e =? 117 then
              match rest1 with
              | h1 :: h2 :: h3 :: h4 :: rest2 =>
                  match hexValue h1, hexValue h2, hexValue h3, hexValue h4,
                        parseChars rest2 with
                  | Some a, Some b, Some c', Some d, Some (str, tail) =>
                      Some (a * 4096 + b * 256 + c' * 16 + d :: str, tail)
                  | _, _, _, _, _ => None
                  end
              | _ => None
              end
            else
              match simpleEscape e, parseChars rest1 with
              | Some ch, Some (str, tail) => Some (ch :: str, tail)
              | _, _ => None
              end
        end
      else if c <? 32 then None
      else
        match parseChars rest with
        | Some (str, tail) => Some (c :: str, tail)
        | None => None
        end
  end.

Definition parseString (s : jsstring) : option (jsstring * jsstring) :=
  match s with
  | c :: rest => if c =? quotationMark then parseChars rest else None
  | [] => None
  end.

(** The members of an object after its opening brace, up to and including
    the closing brace; every value has to be a string. *)
Fixpoint parseMembers (fuel : nat) (s : jsstring)
         (acc : list (jsstring * jsstring))
  : option (list (jsstring * jsstring) * jsstring) :=
  match fuel with
  | O => None
  | S fuel' =>
      match parseString (skipWhitespace s) with
      | None => None
      | Some (key, s1) =>
          match skipWhitespace s1 with
          | [] => None
          | c :: s2 =>
              if c =? 58 then
                match parseString (skipWhitespace s2) with
                | None => None
                | Some (value, s3) =>
                    match skipWhitespace s3 with
                    | [] => None
                    | d :: s4 =>
                        if d =? 44
                        then parseMembers fuel' s4 (acc ++ [(key, value)])
                        else if d =? 125
                             then Some (acc ++ [(key, value)], s4)
                             else None
                    end
                end
              else None
          end
      end
  end.

(** [JSON.parse] on the texts of objects whose members are all strings.
    [None] is every other text: a SyntaxError, or a JSON value of another
    shape, which this model leaves out. *)
Definition parse (text : jsstring) : option (list (jsstring * jsstring)) :=
  match skipWhitespace text with
  | [] => None
  | c :: s1 =>
      if c =? 123 then
        match skipWhitespace s1 with
        | [] => None
        | d :: s2 =>
            if d =? 125 then
              match skipWhitespace s2 with [] => Some [] | _ => None end
            else
              match parseMembers (length text) (d :: s2) [] with
              | Some (ms, tail) =>
                  match skipWhitespace tail with [] => Some ms | _ => None end
              | None => None
              end
        end
      else None
  end.

Definition jsstring_eqb (a b : jsstring) : bool :=
  if list_eq_dec N.eq_dec a b then true else false.

(** [data.key]: the value of the last member with that key, [None] for
    [undefined]. *)
Fixpoint getProperty (ms : list (jsstring * jsstring)) (key : jsstring)
  : option jsstring :=
  match ms with
  | [] => None
  | (k, v) :: rest =>
      match getProperty rest key with
      | Some v' => Some v'
      | None => if jsstring_eqb k key then Some v else None
      end
  end.

End Json.

(** ** uniqueCode.ts *)

Module UniqueCode.
Import Js.

Definition calculateOptimalChunkSize (fileSize : Z) : Z :=
  if fileSize >? 10 * 1024 * 1024 * 1024 then 134217728
  else if fileSize >? 1024 * 1024 * 1024 then 67108864
  else if fileSize >? 100 * 1024 * 1024 then 16777216
  else 4194304.

Definition MiB : Z := 1024 * 1024.
Definition GiB : Z := 1024 * 1024 * 1024.

(** *** Numbers and strings *)

Inductive jsnumber : Type :=
| Num (z : Z)
| NaN.

(** The decimal digits of [n] in front of [acc]. *)
Fixpoint digitsOf (fuel : nat) (n : N) (acc : jsstring) : jsstring :=
  match fuel with
  | O => acc
  | S fuel' =>
      let acc' := (48 + n mod 10)%N :: acc in
      if (n <? 10)%N then acc' else digitsOf fuel' (n / 10)%N acc'
  end.

Definition decimal (n : N) : jsstring :=
  digitsOf (S (N.to_nat (N.log2 n))) n [].

(** [n.toString()] for an integer [n]: the decimal digits, after a minus
    sign when [n] is negative.  This is the text for integers below 10^21
    in magnitude; from there on the language writes an exponent. *)
Definition Number_toString (n : Z) : jsstring :=
  match n with
  | Z0 => decimal 0
  | Zpos p => decimal (Npos p)
  | Zneg p => 45%N :: decimal (Npos p)
  end.

(** WhiteSpace and LineTerminator of the language. *)
Definition isStrWhiteSpaceChar (c : N) : bool :=
  ((9 <=? c) && (c <=? 13) || (c =? 32) || (c =? 160) || (c =? 5760)
   || (8192 <=? c) && (c <=? 8202) || (c =? 8232) || (c =? 8233)
   || (c =? 8239) || (c =? 8287) || (c =? 12288) || (c =? 65279))%N.

Fixpoint trimStart (s : jsstring) : jsstring :=
  match s with
  | c :: rest => if isStrWhiteSpaceChar c then trimStart rest else s
  | [] => []
  end.

Definition trim (s : jsstring) : jsstring :=
  rev (trimStart (rev (trimStart s))).

Definition isDecimalDigit (c : N) : Prop := (48 <= c <= 57)%N.

Definition digitValue (radix c : N) : option N :=
  let v :=
    (if (48 <=? c) && (c <=? 57) then Some (c - 48)
     else if (97 <=? c) && (c <=? 122) then Some (c - 97 + 10)
     else if (65 <=? c) && (c <=? 90) then Some (c - 65 + 10)
     else None)%N in
  match v with
  | Some d => if (d <? radix)%N then Some d else None
  | None => None
  end.

(** The value of the longest prefix of digits, from the value [acc] of
    the digits already read; [None] when no digit was read. *)
Fixpoint takeDigits (radix : N) (s : jsstring) (acc : option N) : option N :=
  match s with
  | c :: rest =>
      match digitValue radix c with
      | Some d =>
          takeDigits radix rest
            (Some (match acc with
                   | Some a => a * radix + d
                   | None => d
                   end)%N)
      | None => acc
      end
  | [] => acc
  end.

Definition splitSign (s : jsstring) : Z * jsstring :=
  match s with
  | c :: rest =>
      if (c =? 45)%N then (-1, rest)
      else if (c =? 43)%N then (1, rest)
      else (1, s)
  | [] => (1, [])
  end.

(** [parseInt(string)] without a radix: leading whitespace, a sign, an
    optional [0x], then the longest prefix of digits.  The result is the
    integer read; the language rounds it to a double, which leaves it as
    it is up to 2^53 in magnitude. *)
Definition splitRadix (s : jsstring) : N * jsstring :=
  match s with
  | z :: x :: rest =>
      if ((z =? 48) && ((x =? 120) || (x =? 88)))%N
      then (16%N, rest) else (10%N, s)
  | _ => (10%N, s)
  end.

Definition parseInt (s : jsstring) : jsnumber :=
  let '(sign, s1) := splitSign (trimStart s) in
  let '(radix, s2) := splitRadix s1 in
  match takeDigits radix s2 None with
  | Some v => Num (sign * Z.of_N v)
  | None => NaN
  end.

(** The conversion of a string to a number that [>] applies, on the
    strings that are empty, or an integer in decimal digits with an
    optional sign, up to whitespace around them.  [None] is every other
    string: a literal with a fraction, an exponent, a radix prefix or
    [Infinity], or no number at all (NaN); this model does not tell them
    apart. *)
Definition StringToNumber (s : jsstring) : option jsnumber :=
  match trim s with
  | [] => Some (Num 0)
  | t =>
      let '(sign, body) := splitSign t in
      if forallb (fun c => (48 <=? c) && (c <=? 57))%N body then
        match takeDigits 10 body None with
        | Some v => Some (Num (sign * Z.of_N v))
        | None => None
        end
      else None
  end.

(** [value > bound] for a property [value] of the decoded object;
    [undefined] converts to NaN and compares false. *)
Definition greaterThan (value : option jsstring) (bound : Z) : option bool :=
  match value with
  | None => Some false
  | Some str =>
      match StringToNumber str with
      | Some (Num n) => Some (n >? bound)
      | Some NaN => Some false
      | None => None
      end
  end.

(** [value || undefined] and the test [value ?] for a string or
    [undefined]: the empty string is falsy. *)
Definition truthy (value : option jsstring) : option jsstring :=
  match value with
  | Some (c :: rest) => Some (c :: rest)
  | _ => None
  end.

(** *** generateUniqueCode *)

Record Options : Type := mkOptions {
  optIceServer : option jsstring;
  optChunkSize : option Z;
  optPublicKey : option jsstring;
  optHighPerformance : option bool
}.

Definition orEmpty (value : option jsstring) : jsstring :=
  match value with
  | Some str => str
  | None => []
  end.

(** The object [data] as its members in order. *)
Definition codeData (sdp : jsstring) (options : Options)
  : list (jsstring * jsstring) :=
  [ (lit "s", sdp);
    (lit "i", orEmpty (optIceServer options));
    (lit "c", match optChunkSize options with
              | Some n => if n =? 0 then lit "67108864" else Number_toString n
              | None => lit "67108864"
              end);
    (lit "p", orEmpty (optPublicKey options));
    (lit "h", match optHighPerformance options with
              | Some true => lit "1"
              | _ => lit "0"
              end) ].

Definition generateUniqueCode (sdp : jsstring) (options : Options)
  : outcome jsstring :=
  let jsonData := Json.stringify (codeData sdp options) in
  Base64.encode jsonData.

(** *** parseUniqueCode *)

Record ParsedCode : Type := mkParsedCode {
  sdp : option jsstring;
  iceServer : option jsstring;
  chunkSize : jsnumber;
  publicKey : option jsstring;
  highPerformance : bool
}.

Inductive parseResult : Type :=
| Parsed (r : ParsedCode)
| InvalidCodeFormat
| Unmodelled.

(** The fields read from the decoded object. *)
Definition parseData (data : list (jsstring * jsstring)) : parseResult :=
  let h := Json.getProperty data (lit "h") in
  let c := Json.getProperty data (lit "c") in
  let highPerformance :=
    if match h with
       | Some str => Json.jsstring_eqb str (lit "1")
       | None => false
       end
    then Some true
    else greaterThan c 16777216 in
  match highPerformance with
  | None => Unmodelled
  | Some hp =>
      Parsed {| sdp := Json.getProperty data (lit "s");
                iceServer := truthy (Json.getProperty data (lit "i"));
                chunkSize := match truthy c with
                             | Some str => parseInt str
                             | None => Num 67108864
                             end;
                publicKey := truthy (Json.getProperty data (lit "p"));
                highPerformance := hp |}
  end.

(** [parseUniqueCode].  An exception of [base64url.decode] or of
    [JSON.parse] is caught and becomes the error 'Invalid code format';
    [Unmodelled] is a text or a comparison that the models of [JSON.parse]
    and of [>] leave out. *)
Definition parseUniqueCode (code : jsstring) : parseResult :=
  match Base64.decode code with
  | Throws _ => InvalidCodeFormat
  | Returns jsonData =>
      match Json.parse jsonData with
      | None => Unmodelled
      | Some data => parseData data
      end
  end.

(** A string that [btoa] accepts has no code unit above 255. *)
Definition latin1 (s : jsstring) : Prop := Forall (fun c => (c <= 255)%N) s.

Definition latin1Option (value : option jsstring) : Prop :=
  match value with
  | Some str => latin1 str
  | None => True
  end.

(** Options that ask for no high performance and leave the chunk size
    out, and an SDP for the examples. *)
Definition plainOptions : Options := mkOptions None None None (Some false).

Definition sampleSdp : jsstring := lit "v=0".

Definition sampleOptions : Options :=
  mkOptions (Some (lit "stun:stun.l.google.com:19302")) (Some 262144)
            (Some (lit "MIGfMA0G+/8=")) (Some true).

(** What [parseUniqueCode] is to recover from a code made with
    [options]. *)
Definition effectiveChunkSize (options : Options) : Z :=
  match optChunkSize options with
  | Some n => if n =? 0 then 67108864 else n
  | None => 67108864
  end.

Definition requestedHighPerformance (options : Options) : bool :=
  match optHighPerformance options with
  | Some true => true
  | _ => false
  end.

(** The options whose chunk size, when given, is a safe integer: a whole
    number below 2^53 in magnitude, which [toString] writes with all its
    digits and [parseInt] reads exactly. *)
Definition safeChunkSize (options : Options) : Prop :=
  match optChunkSize options with
  | Some n => - 2 ^ 53 < n < 2 ^ 53
  | None => True
  end.

End UniqueCode.

(** ** The metadata validator *)

Module Validate.
Import Js.

(** Modelled from the spec: the type [MetaData] of proto/message.ts is not
    among the sources; the spec lists a name, a byte size, a content type
    and a transfer identifier, and the validator reads the size only. *)
Record MetaData : Type := mkMetaData {
  name : jsstring;
  size : Z;
  type : jsstring;
  id : jsstring
}.

Section ValidateFileMetadata.

(** [humanFileSize] of utils/humanFileSize.ts formats the size for the
    message; its text plays no part in the decision. *)
Variable humanFileSize : Z -> jsstring.

(** [maxSize] is optional: [None] is [undefined].  A number is truthy
    when it is not zero. *)
Definition validateFileMetadata (metadata : MetaData) (maxSize : option Z)
  : option error :=
  match maxSize with
  | Some m =>
      if negb (m =? 0) && (size metadata >? m)
      then Some (Error (lit "file is exceed max size at " ++ humanFileSize m))
      else None
  | None => None
  end.

End ValidateFileMetadata.

(** A formatter for the examples: the size in bytes, without a unit
    prefix. *)
Definition plainSize (bytes : Z) : jsstring :=
  UniqueCode.Number_toString bytes ++ lit " B".

End Validate.

(** ** crypto.ts: the cipher envelope *)

Module Crypto.
Import Js.

Section Envelope.

(** WebCrypto: [crypto.subtle.encrypt] and [crypto.subtle.decrypt] with
    [{ name: 'AES-GCM', iv }] under a key that allows both.  Decryption
    rejects with an OperationError when the tag does not verify. *)
Variable CryptoKey : Type.
Variable gcmEncrypt : CryptoKey -> bytes -> bytes -> bytes.
Variable gcmDecrypt : CryptoKey -> bytes -> bytes -> outcome bytes.

Variable key : CryptoKey.
(** The twelve bytes of [crypto.getRandomValues(new Uint8Array(12))]. *)
Variable iv : bytes.

(** The [while] loop of the chunked branch. *)
Fixpoint encryptLoop (fuel : nat) (data : bytes) (chunkSize offset : Z)
         (chunks : list bytes) : option (list bytes) :=
  if offset <? byteLength data then
    match fuel with
    | O => None
    | S fuel' =>
        let chunk :=
          subarray data offset (Z.min (offset + chunkSize) (byteLength data)) in
        let encryptedChunk := gcmEncrypt key iv chunk in
        encryptLoop fuel' data chunkSize (offset + chunkSize)
                    (chunks ++ [encryptedChunk])
    end
  else Some chunks.

(** The [for ... of] loop that copies the encrypted chunks into the
    result. *)
Fixpoint combineChunks (result : bytes) (position : Z) (chunks : list bytes)
  : outcome bytes :=
  match chunks with
  | [] => Returns result
  | chunk :: rest =>
      result' <- set result chunk position ;;
      combineChunks result' (position + byteLength chunk) rest
  end.

(** [encryptAesGcmOptimized]; [None] is a loop that is not over when the
    fuel is spent. *)
Definition encryptAesGcmOptimized (message : bytes) (chunkSize : Z)
  : option (outcome bytes) :=
  if byteLength message >? chunkSize then
    let data := message in
    match encryptLoop (S (length data)) data chunkSize 0 [] with
    | None => None
    | Some chunks =>
        let totalLength :=
          fold_left (fun sum chunk => sum + byteLength chunk) chunks 0 in
        let result := newUint8Array (byteLength iv + totalLength) in
        Some (result1 <- set result iv 0 ;;
              combineChunks result1 (byteLength iv) chunks)
    end
  else
    let encryptedArray := gcmEncrypt key iv message in
    let result := newUint8Array (byteLength iv + byteLength encryptedArray) in
    Some (result1 <- set result iv 0 ;;
          set result1 encryptedArray (byteLength iv)).

Definition defaultChunkSize : Z := 16 * 1024 * 1024.

Definition encryptAesGcm (message : bytes) : option (outcome bytes) :=
  encryptAesGcmOptimized message defaultChunkSize.

(** [decryptAesGcmOptimized]: both branches make the same call. *)
Definition decryptAesGcmOptimized (encryptedData : bytes) (chunkSize : Z)
  : outcome bytes :=
  let iv := slice encryptedData 0 12 in
  let encryptedMessage := slice_from encryptedData 12 in
  if byteLength encryptedMessage >? chunkSize
  then gcmDecrypt key iv encryptedMessage
  else gcmDecrypt key iv encryptedMessage.

Definition decryptAesGcm (encryptedData : bytes) : outcome bytes :=
  decryptAesGcmOptimized encryptedData defaultChunkSize.

(** Encryption followed by decryption with the same key. *)
Definition cipherRoundTrip (message : bytes) (encryptChunkSize : Z)
           (decryptChunkSize : Z) : option (outcome bytes) :=
  match encryptAesGcmOptimized message encryptChunkSize with
  | None => None
  | Some envelope =>
      Some (e <- envelope ;; decryptAesGcmOptimized e decryptChunkSize)
  end.

End Envelope.

(** A stand-in cipher for the examples, with the interface and the
    lengths of AES-GCM: the ciphertext is the plaintext masked with the
    key byte, followed by a tag of sixteen bytes made from the key byte
    and the IV; decryption checks the tag. *)
Definition maskByte (k b : byte) : byte :=
  match Byte.to_bits k, Byte.to_bits b with
  | (k0, (k1, (k2, (k3, (k4, (k5, (k6, k7))))))),
    (b0, (b1, (b2, (b3, (b4, (b5, (b6, b7))))))) =>
      Byte.of_bits (xorb k0 b0, (xorb k1 b1, (xorb k2 b2, (xorb k3 b3,
                   (xorb k4 b4, (xorb k5 b5, (xorb k6 b6, xorb k7 b7)))))))
  end.

Definition sampleTag (k : byte) (iv : bytes) : bytes :=
  firstn 16 (map (maskByte k) iv ++ repeat k 16).

Definition bytes_eqb (a b : bytes) : bool :=
  if list_eq_dec Byte.byte_eq_dec a b then true else false.

Definition sampleEncrypt (k : byte) (iv plaintext : bytes) : bytes :=
  map (maskByte k) plaintext ++ sampleTag k iv.

Definition sampleDecrypt (k : byte) (iv ciphertext : bytes) : outcome bytes :=
  let n := (length ciphertext - 16)%nat in
  if (16 <=? length ciphertext)%nat
     && bytes_eqb (skipn n ciphertext) (sampleTag k iv)
  then Returns (map (maskByte k) (firstn n ciphertext))
  else Throws OperationError.

Definition sampleIv : bytes :=
  [x00; x01; x02; x03; x04; x05; x06; x07; x08; x09; x0a; x0b].

End Crypto.

(** ** What a transfer hands to its sender *)

Module TransferTrace.
Import Js FileTransferOptimizer.

(** The calls of [sender] in a trace, in order: the chunk and the flag
    [isLast] of each. *)
Fixpoint sends (trace : list event) : list (bytes * bool) :=
  match trace with
  | [] => []
  | Sent chunk isLast :: rest => (chunk, isLast) :: sends rest
  | Progress _ :: rest => sends rest
  end.

(** The flag is set on the last call and on no other. *)
Fixpoint lastFlagged (calls : list (bytes * bool)) : Prop :=
  match calls with
  | [] => True
  | (_, flag) :: rest =>
      match rest with
      | [] => flag = true
      | _ => flag = false /\ lastFlagged rest
      end
  end.

(** A sender for the examples that rejects the chunk flagged as last. *)
Definition rejectsLast (_ : bytes) (isLast : bool) : outcome unit :=
  if isLast then Throws (Error (lit "closed")) else Returns tt.

End TransferTrace.

(** ** fileTransferOptimizer.ts: throttledSend *)

Module ThrottledSend.
Import Js.

Inductive settlement : Type :=
| Pending
| Resolved
| RejectedWith (e : error).

(** What the channel shows during one run of [sendNextChunk]: its
    [bufferedAmount] and [bufferedAmountLowThreshold], and the exception of
    [channel.send] when it throws. *)
Record observation : Type := mkObservation {
  bufferedAmount : Z;
  bufferedAmountLowThreshold : Z;
  sendThrows : option error
}.

(** The variables of the closure, the promise, and what the function did
    to the channel: whether [onbufferedamountlow] is [sendNextChunk], the
    chunks that [channel.send] accepted, the [setTimeout] calls made, and
    the values of [sentChunks] at which a line was logged. *)
Record state : Type := mkState {
  currentPosition : Z;
  sentChunks : Z;
  handlerSet : bool;
  timers : nat;
  settled : settlement;
  delivered : list bytes;
  logged : list Z
}.

(** [resolve] and [reject] settle the promise once. *)
Definition settle (now : settlement) (s : settlement) : settlement :=
  match now with
  | Pending => s
  | _ => now
  end.

Section WithData.
Variable data : bytes.
Variable chunkSize : Z.

(** One run of [sendNextChunk]. *)
Definition sendNextChunk (st : state) (obs : observation) : state :=
  let fileSize := byteLength data in
  if fileSize <=? currentPosition st then
    mkState (currentPosition st) (sentChunks st) (handlerSet st) (timers st)
            (settle (settled st) Resolved) (delivered st) (logged st)
  else if bufferedAmount obs >? bufferedAmountLowThreshold obs then
    mkState (currentPosition st) (sentChunks st) true (timers st)
            (settled st) (delivered st) (logged st)
  else
    let end_ := Z.min (currentPosition st + chunkSize) fileSize in
    let chunk := slice data (currentPosition st) end_ in
    match sendThrows obs with
    | Some error =>
        mkState (currentPosition st) (sentChunks st) false (timers st)
                (settle (settled st) (RejectedWith error))
                (delivered st) (logged st)
    | None =>
        let sentChunks' := sentChunks st + 1 in
        let logged' :=
          if (fileSize >? 100 * 1024 * 1024) && (sentChunks' mod 10 =? 0)
          then logged st ++ [sentChunks'] else logged st in
        if fileSize <=? end_ then
          mkState end_ sentChunks' false (timers st)
                  (settle (settled st) Resolved)
                  (delivered st ++ [chunk]) logged'
        else
          mkState end_ sentChunks' (handlerSet st) (S (timers st))
                  (settled st) (delivered st ++ [chunk]) logged'
    end.

Definition initial : state := mkState 0 0 false 0 Pending [] [].

(** [throttledSend] calls [sendNextChunk] once; every later run is started
    by a timer or by the channel's event.  The state after the runs that
    saw [observations], in order. *)
Definition throttledSend (observations : list observation) : state :=
  fold_left sendNextChunk observations initial.

End WithData.

(** What every run of [sendNextChunk] keeps: the chunks delivered are, in
    order, the data up to the current position, each of them non-empty
    and at most [chunkSize] long, and the promise is resolved only at the
    end of the data. *)
Definition sound (data : bytes) (chunkSize : Z) (st : state) : Prop :=
  0 <= currentPosition st <= byteLength data
  /\ concat (delivered st) = firstn (Z.to_nat (currentPosition st)) data
  /\ Forall (fun c => 0 < byteLength c <= chunkSize) (delivered st)
  /\ sentChunks st = Z.of_nat (length (delivered st))
  /\ (settled st = Resolved -> currentPosition st = byteLength data).

(** A channel whose buffer is empty and whose [send] succeeds. *)
Definition idle : observation := mkObservation 0 65536 None.

(** The buffer is not above the mark and [send] does not throw. *)
Definition clear (obs : observation) : Prop :=
  bufferedAmount obs <= bufferedAmountLowThreshold obs
  /\ sendThrows obs = None.

End ThrottledSend.

(** ** fileTransferOptimizer.ts: channel set-up *)

Module FileChannel.
Import Js UniqueCode.

Record RTCDataChannelInit : Type := mkInit {
  ordered : bool;
  maxRetransmits : Z
}.

(** A data channel as far as these functions set it up. *)
Record RTCDataChannel : Type := mkChannel {
  label : jsstring;
  options : RTCDataChannelInit;
  lowThreshold : Z
}.

(** [connection.createDataChannel(label, options)]: a channel with this
    label and these options, its [bufferedAmountLowThreshold] still 0. *)
Definition createDataChannel (label : jsstring) (options : RTCDataChannelInit)
  : RTCDataChannel :=
  mkChannel label options 0.

Definition createOptimizedFileChannel (label : jsstring) (fileSize : Z)
  : RTCDataChannel :=
  let channelOptions :=
    mkInit (fileSize <? 100 * 1024 * 1024)
           (if fileSize >? 1024 * 1024 * 1024 then 0 else 3) in
  let channel := createDataChannel label channelOptions in
  if fileSize >? 1024 * 1024 * 1024
  then mkChannel (FileChannel.label channel) (options channel)
                 (calculateOptimalChunkSize fileSize)
  else mkChannel (FileChannel.label channel) (options channel)
                 (16 * 1024 * 1024).

(** What the throughput probe of [measureNetworkAndOptimizeChunkSize]
    ends in: an exception inside the [try], or a throughput, of which the
    code only uses the comparisons [throughput > 50] and
    [throughput < 5]. *)
Inductive measurement : Type :=
| ProbeFailed
| Measured (above50 below5 : bool).

Definition measureNetworkAndOptimizeChunkSize (fileSize : Z)
           (probe : measurement) : Z :=
  let optimizedChunkSize := calculateOptimalChunkSize fileSize in
  match probe with
  | ProbeFailed => optimizedChunkSize
  | Measured above50 below5 =>
      if above50
      then Z.min (128 * 1024 * 1024) (optimizedChunkSize * 2)
      else if below5
           then Z.max (1 * 1024 * 1024) (optimizedChunkSize / 2)
           else optimizedChunkSize
  end.

End FileChannel.

(** ** Characters of base64 texts *)

Module Base64Alphabet.
Import Js Base64.

(** The characters of the URL-safe alphabet: A-Z a-z 0-9 - _. *)
Definition urlSafeChar (c : N) : Prop :=
  (65 <= c <= 90 \/ 97 <= c <= 122 \/ 48 <= c <= 57 \/ c = 45 \/ c = 95)%N.

(** A character that [base64url.decode] has no reading for: it is not in
    the base64 alphabet, not one of [-], [_] and [=], and not ASCII
    whitespace. *)
Definition foreignChar (c : N) : Prop :=
  base64Value c = None /\ c <> 45%N /\ c <> 95%N /\ c <> equalsSign
  /\ isAsciiWhitespace c = false.

End Base64Alphabet.

(** ** uniqueCode.ts: the remaining functions *)

Module HighPerformance.
Import Js UniqueCode.

Record CodeOptions : Type := mkCodeOptions {
  hpIceServer : option jsstring;
  hpPublicKey : option jsstring
}.

(** [generateHighPerformanceCode]: the options are spread, then
    [chunkSize] and [highPerformance] are set. *)
Definition generateHighPerformanceCode (sdp : jsstring) (options : CodeOptions)
  : outcome jsstring :=
  generateUniqueCode sdp
    (mkOptions (hpIceServer options) (Some 134217728)
               (hpPublicKey options) (Some true)).

Definition shouldUseHighPerformanceMode (fileSize : Z) : bool :=
  fileSize >? 1024 * 1024 * 1024.

(** The options of a sender that takes the chunk size and the flag of a
    file from [calculateOptimalChunkSize] and
    [shouldUseHighPerformanceMode]. *)
Definition optionsForFile (iceServer publicKey : option jsstring)
           (fileSize : Z) : Options :=
  mkOptions iceServer (Some (calculateOptimalChunkSize fileSize))
            publicKey (Some (shouldUseHighPerformanceMode fileSize)).

End HighPerformance.

(** ** crypto.ts: buffers as base64 *)

Module CryptoEncoding.
Import Js Base64.
Local Open Scope Z_scope.

(** The string that [String.fromCharCode.apply(null, bytes)] returns: one
    code unit per byte.  An engine takes only so many arguments in a
    call; this module is the function on buffers within that limit, such
    as a raw key, and [ArgumentLimit] below is the function with the
    limit. *)
Definition fromCharCode (b : bytes) : jsstring := map Byte.to_N b.

Definition stringChunk : Z := 1024 * 1024.

(** The [for] loop of the branch for large buffers. *)
Fixpoint chunkStrings (fuel : nat) (view : bytes) (chunkSize i : Z)
         (chunks : list jsstring) : option (list jsstring) :=
  if i <? byteLength view then
    match fuel with
    | O => None
    | S fuel' =>
        let chunk := subarray view i (i + chunkSize) in
        let chunkString := fromCharCode chunk in
        chunkStrings fuel' view chunkSize (i + chunkSize)
                     (chunks ++ [chunkString])
    end
  else Some chunks.

(** [arrayBufferToBase64]; [chunks.join('')] is the concatenation.  [None]
    would be a loop that is not over when the fuel is spent. *)
Definition arrayBufferToBase64 (buffer : bytes) : option (outcome jsstring) :=
  if byteLength buffer >? 1024 * 1024 then
    let view := buffer in
    let chunkSize := stringChunk in
    match chunkStrings (S (length view)) view chunkSize 0 [] with
    | None => None
    | Some chunks => Some (btoa (concat chunks))
    end
  else
    let byteArray := buffer in
    let byteString := fromCharCode byteArray in
    Some (btoa byteString).

(** [base64ToArrayBuffer]: an element of a [Uint8Array] stores the code
    unit modulo 256. *)
Definition base64ToArrayBuffer (base64 : jsstring) : outcome bytes :=
  binaryString <- atob base64 ;;
  Returns (map (fun c => byte_of_Z (Z.of_N c)) binaryString).

End CryptoEncoding.

(** ** crypto.ts: buffers as base64, on an engine with an argument limit *)

Module ArgumentLimit.
Import Js Base64 CryptoEncoding.
Local Open Scope Z_scope.

Section Engine.

(** The most arguments that the engine takes in one call: a call of
    [apply] with more throws a RangeError. *)
Variable argumentLimit : Z.

Definition fromCharCodeApply (b : bytes) : outcome jsstring :=
  if byteLength b >? argumentLimit then Throws RangeError
  else Returns (fromCharCode b).

(** The [for] loop of the branch for large buffers. *)
Fixpoint chunkStrings (fuel : nat) (view : bytes) (chunkSize i : Z)
         (chunks : list jsstring) : option (outcome (list jsstring)) :=
  if i <? byteLength view then
    match fuel with
    | O => None
    | S fuel' =>
        let chunk := subarray view i (i + chunkSize) in
        match fromCharCodeApply chunk with
        | Throws e => Some (Throws e)
        | Returns chunkString =>
            chunkStrings fuel' view chunkSize (i + chunkSize)
                         (chunks ++ [chunkString])
        end
    end
  else Some (Returns chunks).

(** [arrayBufferToBase64]; [None] would be a loop that is not over when
    the fuel is spent. *)
Definition arrayBufferToBase64 (buffer : bytes) : option (outcome jsstring) :=
  if byteLength buffer >? 1024 * 1024 then
    let view := buffer in
    let chunkSize := stringChunk in
    match chunkStrings (S (length view)) view chunkSize 0 [] with
    | None => None
    | Some (Throws e) => Some (Throws e)
    | Some (Returns chunks) => Some (btoa (concat chunks))
    end
  else
    let byteArray := buffer in
    Some (byteString <- fromCharCodeApply byteArray ;; btoa byteString).

End Engine.

End ArgumentLimit.

(** ** crypto.ts: the session key and its store *)

Module SessionKeys.
Import Js UniqueCode Base64 CryptoEncoding.
Local Open Scope Z_scope.

(** What WebRTC does when [initialize] builds its connection: all of it
    succeeds, the constructor throws, or a later step ([createDataChannel],
    [createOffer], [setLocalDescription]) throws or rejects. *)
Inductive rtc : Type :=
| Connects
| ConstructorThrows (e : error)
| OfferRejects (e : error).

(** The fields of the one [IceStunKeyStore] that [getInstance] hands out;
    [connections] counts the [RTCPeerConnection] objects built so far and
    [iceRestarts] the calls of [restartIce]. *)
Record IceStunKeyStore : Type := mkStore {
  peerConnection : bool;
  sessionKeyCache : option jsstring;
  isInitialized : bool;
  connections : nat;
  iceRestarts : nat
}.

Definition newStore : IceStunKeyStore := mkStore false None false 0 0.

(** [initialize], for calls that are taken one after the other: none
    starts while another awaits.  (The source awaits [createOffer] and
    [setLocalDescription] between the test of [isInitialized] and its
    assignment; calls that overlap there are not modelled.) *)
Definition initialize (env : rtc) (st : IceStunKeyStore)
  : outcome unit * IceStunKeyStore :=
  if isInitialized st then (Returns tt, st)
  else
    match env with
    | ConstructorThrows e => (Throws e, st)
    | OfferRejects e =>
        (Throws e,
         mkStore true (sessionKeyCache st) false (S (connections st))
                 (iceRestarts st))
    | Connects =>
        (Returns tt,
         mkStore true (sessionKeyCache st) true (S (connections st))
                 (iceRestarts st))
    end.

Definition storeSessionKey (sessionKey : jsstring) (env : rtc)
           (st : IceStunKeyStore) : outcome unit * IceStunKeyStore :=
  match initialize env st with
  | (Returns _, st1) =>
      (Returns tt,
       mkStore (peerConnection st1) (Some sessionKey) (isInitialized st1)
               (connections st1) (iceRestarts st1))
  | (Throws e, st1) => (Throws e, st1)
  end.

Definition retrieveSessionKey (env : rtc) (st : IceStunKeyStore)
  : outcome (option jsstring) * IceStunKeyStore :=
  match initialize env st with
  | (Returns _, st1) => (Returns (sessionKeyCache st1), st1)
  | (Throws e, st1) => (Throws e, st1)
  end.

Definition clearSessionKey (st : IceStunKeyStore) : IceStunKeyStore :=
  mkStore (peerConnection st) None (isInitialized st) (connections st)
          (if peerConnection st then S (iceRestarts st) else iceRestarts st).

Definition getSessionKeyFromIceStun := retrieveSessionKey.
Definition setSessionKeyInIceStun := storeSessionKey.

(** [rotateSessionKey]; [exportedKey] is the raw key that
    [generateSessionKey] and [exportKey] give.  [None] is a loop of
    [arrayBufferToBase64] out of fuel. *)
Definition rotateSessionKey (exportedKey : bytes) (env : rtc)
           (st : IceStunKeyStore)
  : option (outcome jsstring * IceStunKeyStore) :=
  match arrayBufferToBase64 exportedKey with
  | None => None
  | Some (Throws e) => Some (Throws e, st)
  | Some (Returns base64SessionKey) =>
      match setSessionKeyInIceStun base64SessionKey env st with
      | (Returns _, st1) => Some (Returns base64SessionKey, st1)
      | (Throws e, st1) => Some (Throws e, st1)
      end
  end.

(** [parseInt(string, 10)]: no radix prefix is looked for. *)
Definition parseIntDecimal (s : jsstring) : jsnumber :=
  let '(sign, s1) := splitSign (trimStart s) in
  match takeDigits 10 s1 None with
  | Some v => Num (sign * Z.of_N v)
  | None => NaN
  end.

(** [string.substring(0, n)] for a literal [n >= 0]. *)
Definition substringFromStart (s : jsstring) (n : nat) : jsstring :=
  firstn n s.

(** The test of the [if] inside [try]. *)
Definition expired (timestamp : jsnumber) (now sessionExpiryMinutes : Z)
  : bool :=
  match timestamp with
  | NaN => true
  | Num t => now - t >? sessionExpiryMinutes * 60 * 1000
  end.

(** [checkAndRotateSessionKey]; [now] is [Date.now()], [exportedKey] the
    raw key of the rotation and [retryKey] that of the rotation in
    [catch]. *)
Definition checkAndRotateSessionKey (sessionExpiryMinutes now : Z)
           (exportedKey retryKey : bytes) (env : rtc) (st : IceStunKeyStore)
  : option (outcome unit * IceStunKeyStore) :=
  match getSessionKeyFromIceStun env st with
  | (Throws e, st1) => Some (Throws e, st1)
  | (Returns sessionKeyBase64, st1) =>
      match truthy sessionKeyBase64 with
      | None =>
          match rotateSessionKey exportedKey env st1 with
          | None => None
          | Some (Returns _, st2) => Some (Returns tt, st2)
          | Some (Throws e, st2) => Some (Throws e, st2)
          end
      | Some key =>
          let timestamp := parseIntDecimal (substringFromStart key 13) in
          if expired timestamp now sessionExpiryMinutes then
            match rotateSessionKey exportedKey env st1 with
            | None => None
            | Some (Returns _, st2) => Some (Returns tt, st2)
            | Some (Throws _, st2) =>
                match rotateSessionKey retryKey env st2 with
                | None => None
                | Some (Returns _, st3) => Some (Returns tt, st3)
                | Some (Throws e, st3) => Some (Throws e, st3)
                end
            end
          else Some (Returns tt, st1)
      end
  end.

(** A call of the store's interface, and a run of calls from a store. *)
Inductive call : Type :=
| Store (sessionKey : jsstring) (env : rtc)
| Retrieve (env : rtc)
| Clear
| Rotate (exportedKey : bytes) (env : rtc)
| Check (sessionExpiryMinutes now : Z) (exportedKey retryKey : bytes)
        (env : rtc).

Definition after (st : IceStunKeyStore) (c : call) : IceStunKeyStore :=
  match c with
  | Store sessionKey env => snd (storeSessionKey sessionKey env st)
  | Retrieve env => snd (retrieveSessionKey env st)
  | Clear => clearSessionKey st
  | Rotate exportedKey env =>
      match rotateSessionKey exportedKey env st with
      | Some (_, st1) => st1
      | None => st
      end
  | Check minutes now exportedKey retryKey env =>
      match checkAndRotateSessionKey minutes now exportedKey retryKey env st
      with
      | Some (_, st1) => st1
      | None => st
      end
  end.

Definition run (calls : list call) (st : IceStunKeyStore) : IceStunKeyStore :=
  fold_left after calls st.

(** The store with another key, and the number of decimal digits that a
    string starts with. *)
Definition setKey (st : IceStunKeyStore) (key : option jsstring)
  : IceStunKeyStore :=
  mkStore (peerConnection st) key (isInitialized st) (connections st)
          (iceRestarts st).

Fixpoint leadingDigits (s : jsstring) : nat :=
  match s with
  | c :: rest =>
      if ((48 <=? c) && (c <=? 57))%N then S (leadingDigits rest) else O
  | [] => O
  end.

(** The calls whose [initialize] gets past the constructor and then
    fails. *)
Definition halfBuilt (c : call) : bool :=
  match c with
  | Store _ (OfferRejects _) | Retrieve (OfferRejects _)
  | Rotate _ (OfferRejects _) | Check _ _ _ _ (OfferRejects _) => true
  | _ => false
  end.

End SessionKeys.

(** ** crypto.ts: imported session keys and the layered encryption *)

Module KeyCache.
Import Js Base64 CryptoEncoding.

Section Cache.

Variable CryptoKey : Type.
(** [crypto.subtle.importKey('raw', keyBuffer, ...)]: it rejects a buffer
    that is no AES key. *)
Variable importKey : bytes -> outcome CryptoKey.

(** [cryptoCache]: the entries of the [Map] in insertion order, and the
    number of calls of [importKey] so far. *)
Record cache : Type := mkCache {
  entries : list (jsstring * CryptoKey);
  imported : nat
}.

Fixpoint get (es : list (jsstring * CryptoKey)) (key : jsstring)
  : option CryptoKey :=
  match es with
  | [] => None
  | (k, v) :: rest => if Json.jsstring_eqb k key then Some v else get rest key
  end.

(** [importSessionKeyFromBase64], for calls that are taken one after the
    other.  (The source awaits [importKey] between [cryptoCache.has] and
    [cryptoCache.set]; calls that overlap there are not modelled.) *)
Definition importSessionKeyFromBase64 (base64SessionKey : jsstring)
           (c : cache) : outcome CryptoKey * cache :=
  match get (entries c) base64SessionKey with
  | Some cached => (Returns cached, c)
  | None =>
      match base64ToArrayBuffer base64SessionKey with
      | Throws e => (Throws e, c)
      | Returns keyBuffer =>
          match importKey keyBuffer with
          | Throws e => (Throws e, mkCache (entries c) (S (imported c)))
          | Returns sessionKey =>
              (Returns sessionKey,
               mkCache (entries c ++ [(base64SessionKey, sessionKey)])
                       (S (imported c)))
          end
      end
  end.

(** The cache after a run of imports. *)
Definition importAll (keys : list jsstring) (c : cache) : cache :=
  fold_left (fun c key => snd (importSessionKeyFromBase64 key c)) keys c.

End Cache.

Arguments entries {CryptoKey} c.
Arguments imported {CryptoKey} c.
Arguments get {CryptoKey} es key.

End KeyCache.

Module TripleLayer.
Import Js UniqueCode Crypto SessionKeys KeyCache.
Local Open Scope Z_scope.

Section Layers.

(** WebCrypto: AES-GCM as in [Crypto], the raw export and import of an
    AES key, and RSA-OAEP under a public and a private key. *)
Variable CryptoKey : Type.
Variable gcmEncrypt : CryptoKey -> bytes -> bytes -> bytes.
Variable gcmDecrypt : CryptoKey -> bytes -> bytes -> outcome bytes.
Variable exportKey : CryptoKey -> bytes.
Variable importKey : bytes -> outcome CryptoKey.
Variable RsaPublicKey RsaPrivateKey : Type.
Variable rsaEncrypt : RsaPublicKey -> bytes -> outcome bytes.
Variable rsaDecrypt : RsaPrivateKey -> bytes -> outcome bytes.

(** The state of the module: the key store and [cryptoCache]. *)
Record world : Type := mkWorld {
  store : IceStunKeyStore;
  keys : cache CryptoKey
}.

Record encrypted : Type := mkEncrypted {
  encryptedMessage : bytes;
  encryptedAesKey : bytes;
  sessionKeyId : jsstring
}.

Definition layerChunkSize : Z := 64 * 1024 * 1024.

(** [tripleLayerEncryptOptimized]; [aesKey] is the key of
    [generateAesKey], [iv] the random IV, [sessionRaw] the raw key of a
    rotation, [now] is [Date.now()] and [env] what WebRTC does. *)
Definition tripleLayerEncryptOptimized (aesKey : CryptoKey) (iv : bytes)
           (sessionRaw : bytes) (now : Z) (env : rtc)
           (message : bytes) (rsaPublicKey : RsaPublicKey) (chunkSize : Z)
           (w : world) : option (outcome encrypted * world) :=
  match encryptAesGcmOptimized CryptoKey gcmEncrypt aesKey iv message
                               chunkSize with
  | None => None
  | Some (Throws e) => Some (Throws e, w)
  | Some (Returns encryptedMessage) =>
      match getSessionKeyFromIceStun env (store w) with
      | (Throws e, st1) => Some (Throws e, mkWorld st1 (keys w))
      | (Returns stored, st1) =>
          match
            match truthy stored with
            | Some key => Some (Returns key, st1)
            | None => rotateSessionKey sessionRaw env st1
            end
          with
          | None => None
          | Some (Throws e, st2) => Some (Throws e, mkWorld st2 (keys w))
          | Some (Returns sessionKeyBase64, st2) =>
              match importSessionKeyFromBase64 CryptoKey importKey
                      sessionKeyBase64 (keys w) with
              | (Throws e, c1) => Some (Throws e, mkWorld st2 c1)
              | (Returns sessionKey, c1) =>
                  let exportedAesKey := exportKey aesKey in
                  match rsaEncrypt rsaPublicKey exportedAesKey with
                  | Throws e => Some (Throws e, mkWorld st2 c1)
                  | Returns encryptedAesKey =>
                      let sessionKeyId := Number_toString now in
                      Some (Returns (mkEncrypted encryptedMessage
                                                 encryptedAesKey
                                                 sessionKeyId),
                            mkWorld st2 c1)
                  end
              end
          end
      end
  end.

Definition tripleLayerEncrypt (aesKey : CryptoKey) (iv : bytes)
           (sessionRaw : bytes) (now : Z) (env : rtc)
           (message : bytes) (rsaPublicKey : RsaPublicKey) (w : world) :=
  tripleLayerEncryptOptimized aesKey iv sessionRaw now env message
                              rsaPublicKey layerChunkSize w.

(** [tripleLayerDecryptOptimized]. *)
Definition tripleLayerDecryptOptimized (encryptedMessage : bytes)
           (encryptedAesKey : bytes) (rsaPrivateKey : RsaPrivateKey)
           (chunkSize : Z) : outcome bytes :=
  decryptedAesKeyBuffer <- rsaDecrypt rsaPrivateKey encryptedAesKey ;;
  aesKey <- importKey decryptedAesKeyBuffer ;;
  decryptAesGcmOptimized CryptoKey gcmDecrypt aesKey encryptedMessage
                         chunkSize.

Definition tripleLayerDecrypt (encryptedMessage : bytes)
           (encryptedAesKey : bytes) (rsaPrivateKey : RsaPrivateKey)
  : outcome bytes :=
  tripleLayerDecryptOptimized encryptedMessage encryptedAesKey rsaPrivateKey
                              layerChunkSize.

End Layers.

Arguments store {CryptoKey} w.
Arguments keys {CryptoKey} w.

(** Stand-ins for the examples, next to the cipher of [Crypto]: a key is
    one byte, exported as that byte, and the RSA pair masks with a
    byte. *)
Definition sampleExport (k : byte) : bytes := [k].

Definition sampleImport (b : bytes) : outcome byte :=
  match b with
  | [k] => Returns k
  | _ => Throws (Error (lit "DataError"))
  end.

Definition sampleRsaEncrypt (k : byte) (b : bytes) : outcome bytes :=
  Returns (map (maskByte k) b).

Definition sampleRsaDecrypt (k : byte) (b : bytes) : outcome bytes :=
  Returns (map (maskByte k) b).

End TripleLayer.

(** ** configs.ts *)

Module Configs.
Import Js.
Local Open Scope Z_scope.

(** A measured number as comparisons read it: a finite double is a
    rational. *)
Inductive number : Type :=
| Finite (q : QArith_base.Q)
| Infinity
| NegativeInfinity
| NotANumber.

(** [x < c] and [x > c] for an integer [c]. *)
Definition lessThan (x : number) (c : Z) : bool :=
  match x with
  | Finite q => negb (QArith_base.Qle_bool (QArith_base.inject_Z c) q)
  | NegativeInfinity => true
  | Infinity | NotANumber => false
  end.

Definition greaterThan (x : number) (c : Z) : bool :=
  match x with
  | Finite q => negb (QArith_base.Qle_bool q (QArith_base.inject_Z c))
  | Infinity => true
  | NegativeInfinity | NotANumber => false
  end.

(** The result of [detectNetworkQuality]; its member [reliability] is read
    by no function and is left out. *)
Record NetworkQuality : Type := mkQuality {
  bandwidth : number;
  latency : number
}.

(** What the probe gives: the two numbers computed from the response and
    the clock, or a failure of [fetch] or of reading the response. *)
Inductive probe : Type :=
| Fetched (bandwidth latency : number)
| FetchFailed.

Definition detectNetworkQuality (p : probe) : NetworkQuality :=
  match p with
  | Fetched bandwidth latency => mkQuality bandwidth latency
  | FetchFailed =>
      mkQuality (Finite (QArith_base.inject_Z (10 * 1024)))
                (Finite (QArith_base.inject_Z 800))
  end.

(** [SendOptions]: the three members that are assigned, and the others. *)
Record SendOptions (Others : Type) : Type := mkSendOptions {
  chunkSize : Z;
  parallelChunks : Z;
  compressionLevel : Z;
  others : Others
}.

Arguments mkSendOptions {Others} _ _ _ _.
Arguments chunkSize {Others} _.
Arguments parallelChunks {Others} _.
Arguments compressionLevel {Others} _.
Arguments others {Others} _.

Definition optimizeTransferSettings {Others : Type}
           (options : SendOptions Others) (p : probe) : SendOptions Others :=
  let networkQuality := detectNetworkQuality p in
  let optimized := options in
  let optimized :=
    if lessThan (bandwidth networkQuality) (50 * 1024) then
      mkSendOptions (4 * 1024) 1 9 (others optimized)
    else if lessThan (bandwidth networkQuality) (200 * 1024) then
      mkSendOptions (8 * 1024) 2 9 (others optimized)
    else if lessThan (bandwidth networkQuality) (1024 * 1024) then
      mkSendOptions (16 * 1024) 3 7 (others optimized)
    else
      mkSendOptions (64 * 1024) 4 6 (others optimized) in
  if greaterThan (latency networkQuality) 300 then
    mkSendOptions (chunkSize optimized)
                  (Z.max 2 (parallelChunks optimized))
                  (compressionLevel optimized) (others optimized)
  else optimized.

(** The order of the measured numbers; NaN is in no relation. *)
Definition numberLe (x y : number) : Prop :=
  match x, y with
  | NotANumber, _ | _, NotANumber => False
  | NegativeInfinity, _ | _, Infinity => True
  | Finite a, Finite b => QArith_base.Qle a b
  | _, _ => False
  end.

(** *** createReliableDataChannel *)

(** How an attempt ends: the channel opens, or [createDataChannel] throws,
    the channel reports an error, or the five seconds run out. *)
Inductive attempt : Type :=
| Opens
| Fails (e : error).

(** The [while] loop.  [attempts n] is how the attempt number [n] ends,
    counted from 0; the result is the number of the attempt whose channel
    is returned, with the waits in milliseconds, in order. *)
Fixpoint retryLoop (fuel : nat) (attempts : nat -> attempt)
         (maxRetries retries : Z) (waits : list Z)
  : option (outcome Z * list Z) :=
  if retries <? maxRetries then
    match fuel with
    | O => None
    | S fuel' =>
        match attempts (Z.to_nat retries) with
        | Opens => Some (Returns retries, waits)
        | Fails e =>
            let retries := retries + 1 in
            if retries >=? maxRetries then Some (Throws e, waits)
            else retryLoop fuel' attempts maxRetries retries
                           (waits ++ [1000 * 2 ^ retries])
        end
    end
  else
    Some (Throws (Error (lit "Failed to create data channel after max retries")),
          waits).

Definition createReliableDataChannel (attempts : nat -> attempt)
           (maxRetries : Z) : option (outcome Z * list Z) :=
  retryLoop (Z.to_nat maxRetries) attempts maxRetries 0 [].

(** The waits before the attempt number [n]. *)
Definition backoff (n : nat) : list Z :=
  map (fun i => 1000 * 2 ^ Z.of_nat i) (seq 1 n).

End Configs.

(** ** The SDP codec *)

Module Sdp.
Import Js Base64.

Section Codec.

(** The package sdp-compact. *)
Variable compactSDP : jsstring -> jsstring.
Variable decompactSDP : jsstring -> bool -> jsstring.

Definition slash : N := 47.
Definition plus : N := 43.
Definition equals : N := 61.
Definition underscore : N := 95.
Definition tilde : N := 126.
Definition hyphen : N := 45.

Definition sdpEncode (s : jsstring) : jsstring :=
  replaceAll equals hyphen
    (replaceAll plus tilde (replaceAll slash underscore (compactSDP s))).

Definition sdpDecode (s : jsstring) (isOffer : bool) : jsstring :=
  let base64 :=
    replaceAll hyphen equals
      (replaceAll tilde plus (replaceAll underscore slash s)) in
  decompactSDP base64 isOffer.

End Codec.

(** Stand-ins for the examples: a compaction that changes nothing. *)
Definition sampleCompact (s : jsstring) : jsstring := s.
Definition sampleDecompact (s : jsstring) (isOffer : bool) : jsstring := s.

End Sdp.

(** ** The platform's JSON and conversions, for every value *)

Module JsonValue.
Import Js UniqueCode Configs.
Local Open Scope Z_scope.

(** A value that [JSON.parse] returns.  A number is the double that the
    text denotes; the sign of a zero is not kept. *)
#[warnings="-register-all"] Inductive value : Type :=
| VNull
| VBool (b : bool)
| VNumber (x : number)
| VString (s : jsstring)
| VArray (elements : list value)
| VObject (members : list (jsstring * value)).

Definition isDigit (c : N) : bool := ((48 <=? c) && (c <=? 57))%N.

(** The longest run of decimal digits at the start of a text, and the
    rest. *)
Fixpoint spanDigits (s : jsstring) : jsstring * jsstring :=
  match s with
  | c :: rest =>
      if isDigit c
      then let '(ds, tail) := spanDigits rest in (c :: ds, tail)
      else ([], s)
  | [] => ([], [])
  end.

Definition digitsValue (ds : jsstring) : Z :=
  match takeDigits 10 ds None with
  | Some v => Z.of_N v
  | None => 0
  end.

(** The mathematical value m * 10^e. *)
Definition scaled (m e : Z) : QArith_base.Q :=
  if 0 <=? e then QArith_base.inject_Z (m * 10 ^ e)
  else QArith_base.Qmake m (Z.to_pos (10 ^ (- e))).

(** The exponent after [e] or [E]: a sign and at least one digit. *)
Definition parseExponent (s : jsstring) : option (Z * jsstring) :=
  let '(sign, s1) := splitSign s in
  match spanDigits s1 with
  | ([], _) => None
  | (ds, tail) => Some (sign * digitsValue ds, tail)
  end.

Definition isExponentIndicator (c : N) : bool := ((c =? 101) || (c =? 69))%N.

(** A JSON number at the start of a text: its mathematical value and the
    rest of the text.  No digit may follow a leading 0, a point is
    followed by a digit, and so is an exponent indicator. *)
Definition parseNumber (s : jsstring) : option (QArith_base.Q * jsstring) :=
  let '(sign, s1) :=
    match s with
    | c :: rest => if (c =? 45)%N then (-1, rest) else (1, s)
    | [] => (1, [])
    end in
  match spanDigits s1 with
  | ([], _) => None
  | (d :: more, s2) =>
      if (d =? 48)%N && negb (length more =? 0)%nat then None
      else
        match
          match s2 with
          | c :: rest =>
              if (c =? 46)%N then
                match spanDigits rest with
                | ([], _) => None
                | (fs, tail) => Some (fs, tail)
                end
              else Some ([], s2)
          | [] => Some ([], [])
          end
        with
        | None => None
        | Some (frac, s3) =>
            match
              match s3 with
              | c :: rest =>
                  if isExponentIndicator c then parseExponent rest
                  else Some (0, s3)
              | [] => Some (0, [])
              end
            with
            | None => None
            | Some (e, s4) =>
                Some (scaled (sign * digitsValue ((d :: more) ++ frac))
                             (e - Z.of_nat (length frac)),
                      s4)
            end
        end
  end.

(** What a parser has made of a text: a value and the rest of the text, a
    text that is no JSON, or a parse that is not over when the fuel is
    spent. *)
Inductive parsed (A : Type) : Type :=
| Read (a : A) (rest : jsstring)
| Malformed
| Unfinished.

Arguments Read {A} a rest.
Arguments Malformed {A}.
Arguments Unfinished {A}.

(** Whether [s] starts with the characters [word], and the rest. *)
Fixpoint afterWord (word s : jsstring) : option jsstring :=
  match word, s with
  | [], _ => Some s
  | w :: word', c :: rest => if (w =? c)%N then afterWord word' rest else None
  | _ :: _, [] => None
  end.

Section Parser.

(** The Number value for a mathematical value: the nearest double, an
    infinity beyond the largest. *)
Variable roundToDouble : QArith_base.Q -> number.

(** A JSON value at the start of [s] (no whitespace in front); the
    elements of an array after its opening bracket, and the members of an
    object after its opening brace, up to and including the closing
    one. *)
Fixpoint parseValue (fuel : nat) (s : jsstring) {struct fuel} : parsed value :=
  match fuel with
  | O => Unfinished
  | S fuel' =>
      match s with
      | [] => Malformed
      | c :: rest =>
          if (c =? 123)%N then
            match Json.skipWhitespace rest with
            | [] => Malformed
            | d :: rest1 =>
                if (d =? 125)%N then Read (VObject []) rest1
                else
                  match parseMembers fuel' (d :: rest1) [] with
                  | Read members tail => Read (VObject members) tail
                  | Malformed => Malformed
                  | Unfinished => Unfinished
                  end
            end
          else if (c =? 91)%N then
            match Json.skipWhitespace rest with
            | [] => Malformed
            | d :: rest1 =>
                if (d =? 93)%N then Read (VArray []) rest1
                else
                  match parseElements fuel' (d :: rest1) [] with
                  | Read elements tail => Read (VArray elements) tail
                  | Malformed => Malformed
                  | Unfinished => Unfinished
                  end
            end
          else if (c =? Json.quotationMark)%N then
            match Json.parseChars rest with
            | Some (str, tail) => Read (VString str) tail
            | None => Malformed
            end
          else if (c =? 45)%N || isDigit c then
            match parseNumber s with
            | Some (mv, tail) => Read (VNumber (roundToDouble mv)) tail
            | None => Malformed
            end
          else
            match afterWord (lit "true") s, afterWord (lit "false") s,
                  afterWord (lit "null") s with
            | Some tail, _, _ => Read (VBool true) tail
            | None, Some tail, _ => Read (VBool false) tail
            | None, None, Some tail => Read VNull tail
            | None, None, None => Malformed
            end
      end
  end

with parseElements (fuel : nat) (s : jsstring) (acc : list value)
       {struct fuel} : parsed (list value) :=
  match fuel with
  | O => Unfinished
  | S fuel' =>
      match parseValue fuel' s with
      | Read v s1 =>
          match Json.skipWhitespace s1 with
          | [] => Malformed
          | d :: s2 =>
              if (d =? 44)%N
              then parseElements fuel' (Json.skipWhitespace s2) (acc ++ [v])
              else if (d =? 93)%N then Read (acc ++ [v]) s2
                   else Malformed
          end
      | Malformed => Malformed
      | Unfinished => Unfinished
      end
  end

with parseMembers (fuel : nat) (s : jsstring) (acc : list (jsstring * value))
       {struct fuel} : parsed (list (jsstring * value)) :=
  match fuel with
  | O => Unfinished
  | S fuel' =>
      match Json.parseString (Json.skipWhitespace s) with
      | None => Malformed
      | Some (key, s1) =>
          match Json.skipWhitespace s1 with
          | [] => Malformed
          | c :: s2 =>
              if (c =? 58)%N then
                match parseValue fuel' (Json.skipWhitespace s2) with
                | Read v s3 =>
                    match Json.skipWhitespace s3 with
                    | [] => Malformed
                    | d :: s4 =>
                        if (d =? 44)%N
                        then parseMembers fuel' s4 (acc ++ [(key, v)])
                        else if (d =? 125)%N
                             then Read (acc ++ [(key, v)]) s4
                             else Malformed
                    end
                | Malformed => Malformed
                | Unfinished => Unfinished
                end
              else Malformed
          end
      end
  end.

(** [JSON.parse]: a value, or a SyntaxError.  [None] would be a parse
    that is not over when the fuel is spent. *)
Definition parse (text : jsstring) : option (outcome value) :=
  match parseValue (2 * length text + 2) (Json.skipWhitespace text) with
  | Read v rest =>
      match Json.skipWhitespace rest with
      | [] => Some (Returns v)
      | _ :: _ => Some (Throws SyntaxError)
      end
  | Malformed => Some (Throws SyntaxError)
  | Unfinished => None
  end.

End Parser.

(** The own property [key] of an object: of members with one key the
    last counts. *)
Fixpoint getOwn (members : list (jsstring * value)) (key : jsstring)
  : option value :=
  match members with
  | [] => None
  | (k, v) :: rest =>
      match getOwn rest key with
      | Some v' => Some v'
      | None => if Json.jsstring_eqb k key then Some v else None
      end
  end.

(** [data.key] for a value other than null and a key that no prototype
    defines, as are s, i, c, p and h: [None] is undefined. *)
Definition get (data : value) (key : jsstring) : option value :=
  match data with
  | VObject members => getOwn members key
  | _ => None
  end.

(** An object whose members are strings, as a value. *)
Definition stringMembers (ms : list (jsstring * jsstring))
  : list (jsstring * value) :=
  map (fun m => (fst m, VString (snd m))) ms.

End JsonValue.

(** ** Conversions of the language *)

Module Conversion.
Import Js UniqueCode Configs JsonValue.
Local Open Scope Z_scope.

(** [0x], [0o] or [0b] at the start of a text, in either case: the radix
    and the rest. *)
Definition nonDecimalPrefix (s : jsstring) : option (N * jsstring) :=
  match s with
  | z :: x :: rest =>
      if (z =? 48)%N then
        if ((x =? 120) || (x =? 88))%N then Some (16%N, rest)
        else if ((x =? 111) || (x =? 79))%N then Some (8%N, rest)
        else if ((x =? 98) || (x =? 66))%N then Some (2%N, rest)
        else None
      else None
  | _ => None
  end.

Definition isDigitOf (radix c : N) : bool :=
  match digitValue radix c with
  | Some _ => true
  | None => false
  end.

(** StrUnsignedDecimalLiteral other than [Infinity], as all of [body]: the
    digits as an integer and the power of ten.  There are digits before
    or after the point. *)
Definition unsignedDecimal (body : jsstring) : option (Z * Z) :=
  let '(int, s1) := spanDigits body in
  let '(frac, s2) :=
    match s1 with
    | c :: rest => if (c =? 46)%N then spanDigits rest else ([], s1)
    | [] => ([], [])
    end in
  if ((length int =? 0) && (length frac =? 0))%nat then None
  else
    match s2 with
    | [] => Some (digitsValue (int ++ frac), - Z.of_nat (length frac))
    | c :: rest =>
        if isExponentIndicator c then
          match parseExponent rest with
          | Some (e, []) =>
              Some (digitsValue (int ++ frac), e - Z.of_nat (length frac))
          | _ => None
          end
        else None
    end.

Section Conversions.

(** The Number value for a mathematical value, the text of a Number, and
    the nesting of arrays that the engine's stack allows [join]. *)
Variable roundToDouble : QArith_base.Q -> number.
Variable numberToString : number -> jsstring.
Variable stackDepth : nat.

(** StringToNumber: whitespace around a literal is dropped; the empty text
    is 0, a text that is no literal is NaN. *)
Definition StringToNumber (s : jsstring) : number :=
  match trim s with
  | [] => Finite (QArith_base.inject_Z 0)
  | t =>
      match nonDecimalPrefix t with
      | Some (radix, digits) =>
          if forallb (isDigitOf radix) digits then
            match takeDigits radix digits None with
            | Some v => roundToDouble (QArith_base.inject_Z (Z.of_N v))
            | None => NotANumber
            end
          else NotANumber
      | None =>
          let '(sign, body) := splitSign t in
          if Json.jsstring_eqb body (lit "Infinity") then
            if sign =? 1 then Infinity else NegativeInfinity
          else
            match unsignedDecimal body with
            | Some (m, e) => roundToDouble (scaled (sign * m) e)
            | None => NotANumber
            end
      end
  end.

(** [Array.prototype.join] with the separator [,]. *)
Fixpoint joinWith (elementString : value -> outcome jsstring)
         (elements : list value) : outcome jsstring :=
  match elements with
  | [] => Returns []
  | [x] => elementString x
  | x :: rest =>
      s <- elementString x ;;
      r <- joinWith elementString rest ;;
      Returns (s ++ 44%N :: r)
  end.

(** ToString.  An array is joined, null as the empty text among its
    elements; an object from [JSON.parse] has the text of
    [Object.prototype.toString], unless it has a member [toString] of its
    own, which is no function: then no method gives a primitive and the
    conversion throws a TypeError.  [fuel] is the nesting that is left
    on the stack. *)
Fixpoint ToString (fuel : nat) (v : value) {struct fuel} : outcome jsstring :=
  match v with
  | VNull => Returns (lit "null")
  | VBool true => Returns (lit "true")
  | VBool false => Returns (lit "false")
  | VNumber x => Returns (numberToString x)
  | VString s => Returns s
  | VObject members =>
      match getOwn members (lit "toString") with
      | Some _ => Throws TypeError
      | None => Returns (lit "[object Object]")
      end
  | VArray elements =>
      match fuel with
      | O => Throws RangeError
      | S fuel' =>
          joinWith (fun x => match x with
                             | VNull => Returns []
                             | _ => ToString fuel' x
                             end)
                   elements
      end
  end.

(** ToNumber of a value or of undefined: an array or an object goes
    through its text. *)
Definition ToNumber (v : option value) : outcome number :=
  match v with
  | None => Returns NotANumber
  | Some VNull => Returns (Finite (QArith_base.inject_Z 0))
  | Some (VBool true) => Returns (Finite (QArith_base.inject_Z 1))
  | Some (VBool false) => Returns (Finite (QArith_base.inject_Z 0))
  | Some (VNumber x) => Returns x
  | Some (VString s) => Returns (StringToNumber s)
  | Some w => s <- ToString stackDepth w ;; Returns (StringToNumber s)
  end.

(** [v > bound] for a whole number [bound]. *)
Definition exceeds (v : option value) (bound : Z) : outcome bool :=
  x <- ToNumber v ;; Returns (greaterThan x bound).

(** ToBoolean. *)
Definition ToBoolean (v : option value) : bool :=
  match v with
  | None => false
  | Some VNull => false
  | Some (VBool b) => b
  | Some (VNumber (Finite q)) => negb (QArith_base.Qnum q =? 0)
  | Some (VNumber NotANumber) => false
  | Some (VNumber _) => true
  | Some (VString s) => negb (length s =? 0)%nat
  | Some _ => true
  end.

(** [v === text]. *)
Definition strictEqualsString (v : option value) (text : jsstring) : bool :=
  match v with
  | Some (VString s) => Json.jsstring_eqb s text
  | _ => false
  end.

(** [v || undefined]. *)
Definition orUndefined (v : option value) : option value :=
  if ToBoolean v then v else None.

(** A rounding that leaves the safe integers as they are, as the
    rounding to the nearest double does. *)
Definition exactOnSafeIntegers : Prop :=
  forall n : Z,
    - 2 ^ 53 < n < 2 ^ 53 ->
    roundToDouble (QArith_base.inject_Z n) = Finite (QArith_base.inject_Z n).

(** [parseInt(v)] for a value: the text of the value is read as in
    [UniqueCode], and the integer rounded. *)
Definition parseIntOf (v : value) : outcome number :=
  str <- ToString stackDepth v ;;
  Returns match parseInt str with
          | Num z => roundToDouble (QArith_base.inject_Z z)
          | NaN => NotANumber
          end.

End Conversions.

End Conversion.

(** ** uniqueCode.ts: parseUniqueCode on every code *)

Module AnyCode.
Import Js UniqueCode Configs JsonValue Conversion.
Local Open Scope Z_scope.

Record ParsedCode : Type := mkParsedCode {
  sdp : option value;
  iceServer : option value;
  chunkSize : number;
  publicKey : option value;
  highPerformance : bool
}.

Definition invalidCodeFormat : error := Error (lit "Invalid code format").

Section Platform.

Variable roundToDouble : QArith_base.Q -> number.
Variable numberToString : number -> jsstring.
Variable stackDepth : nat.

(** The statements of the [try] block after [JSON.parse]; reading a
    property of null throws a TypeError. *)
Definition readCode (data : value) : outcome ParsedCode :=
  match data with
  | VNull => Throws TypeError
  | _ =>
      highPerformance <-
        (if strictEqualsString (get data (lit "h")) (lit "1")
         then Returns true
         else exceeds roundToDouble numberToString stackDepth
                      (get data (lit "c")) 16777216) ;;
      chunkSize <-
        (match get data (lit "c") with
         | Some c =>
             if ToBoolean (Some c)
             then parseIntOf roundToDouble numberToString stackDepth c
             else Returns (Finite (QArith_base.inject_Z 67108864))
         | None => Returns (Finite (QArith_base.inject_Z 67108864))
         end) ;;
      Returns {| sdp := get data (lit "s");
                 iceServer := orUndefined (get data (lit "i"));
                 chunkSize := chunkSize;
                 publicKey := orUndefined (get data (lit "p"));
                 highPerformance := highPerformance |}
  end.

(** [parseUniqueCode]: whatever is thrown inside [try] becomes the error
    'Invalid code format'.  [None] would be a parse of the JSON text that
    is not over when the fuel is spent. *)
Definition parseUniqueCode (code : jsstring) : option (outcome ParsedCode) :=
  match Base64.decode code with
  | Throws _ => Some (Throws invalidCodeFormat)
  | Returns jsonData =>
      match parse roundToDouble jsonData with
      | None => None
      | Some (Throws _) => Some (Throws invalidCodeFormat)
      | Some (Returns data) =>
          match readCode data with
          | Returns r => Some (Returns r)
          | Throws _ => Some (Throws invalidCodeFormat)
          end
      end
  end.

End Platform.

(** Stand-ins for the examples: a platform whose numbers are exact, which
    writes a whole number in decimal digits. *)
Definition sampleRound (q : QArith_base.Q) : number := Finite q.

Definition sampleNumberToString (x : number) : jsstring :=
  match x with
  | Finite q => Number_toString (QArith_base.Qnum q / Zpos (QArith_base.Qden q))
  | Infinity => lit "Infinity"
  | NegativeInfinity => lit "-Infinity"
  | NotANumber => lit "NaN"
  end.

End AnyCode.

(* ------------------------------------------------------------------ *)
(** * Properties *)

(** Linear arithmetic with division and remainder by constants. *)
Ltac div_lia := zify; Z.to_euclidean_division_equations; lia.

Section BytesFacts.
Import Js.

Lemma Z_of_byte_range (b : byte) : 0 <= Z_of_byte b < 256.
Proof.
  unfold Z_of_byte. pose proof (Byte.to_N_bounded b). lia.
Qed.

Lemma Z_of_byte_of_Z (z : Z) : Z_of_byte (byte_of_Z z) = z mod 256.
Proof.
  unfold Z_of_byte, byte_of_Z.
  assert (Hr : 0 <= z mod 256 < 256) by (apply Z.mod_pos_bound; lia).
  destruct (Byte.of_N (Z.to_N (z mod 256))) as [b|] eqn:E.
  - apply Byte.to_of_N in E. rewrite E. lia.
  - apply Byte.of_N_None_iff in E. lia.
Qed.

Lemma uint16_buffer_roundtrip (n : Z) :
  0 <= n < 65536 ->
  uint16_of_bytes (byte_of_Z (n mod 256)) (byte_of_Z (n / 256)) = n.
Proof.
  intros Hn. unfold uint16_of_bytes. rewrite !Z_of_byte_of_Z.
  rewrite Z.mod_mod by lia.
  assert (0 <= n / 256 < 256)
    by (split; [apply Z.div_pos; lia | apply Z.div_lt_upper_bound; lia]).
  rewrite (Z.mod_small (n / 256)) by lia.
  pose proof (Z.div_mod n 256). lia.
Qed.

Lemma byteLength_app (a b : bytes) :
  byteLength (a ++ b) = byteLength a + byteLength b.
Proof. unfold byteLength. rewrite length_app. lia. Qed.

Lemma byteLength_nonneg (a : bytes) : 0 <= byteLength a.
Proof. unfold byteLength. lia. Qed.

End BytesFacts.

(** ** The two-buffer frame *)

Section FrameFacts.
Import Js ConcatBytes.

Lemma set_overwrites (p m s source : bytes) :
  length m = length source ->
  set (p ++ m ++ s) source (byteLength p) = Returns (p ++ source ++ s).
Proof.
  intros Hlen. unfold set.
  rewrite !byteLength_app.
  assert (Hm : byteLength m = byteLength source)
    by (unfold byteLength; now rewrite Hlen).
  pose proof (byteLength_nonneg p). pose proof (byteLength_nonneg s).
  destruct (byteLength p <? 0) eqn:E1; [lia|].
  destruct (byteLength p + (byteLength m + byteLength s)
            <? byteLength p + byteLength source) eqn:E2; [lia|].
  cbn [orb]. f_equal.
  unfold byteLength. rewrite Nat2Z.id.
  rewrite firstn_app, firstn_all, Nat.sub_diag, firstn_O, app_nil_r.
  f_equal. f_equal.
  rewrite <- Nat2Z.inj_add, Nat2Z.id.
  rewrite skipn_app.
  rewrite (skipn_all2 p) by lia. cbn [app].
  replace (length p + length source - length p)%nat with (length m) by lia.
  rewrite skipn_app, skipn_all, Nat.sub_diag. reflexivity.
Qed.

Lemma newUint8Array_split (a b : Z) :
  0 <= a -> 0 <= b ->
  newUint8Array (a + b) = newUint8Array a ++ newUint8Array b.
Proof.
  intros Ha Hb. unfold newUint8Array.
  rewrite Z2Nat.inj_add by lia. apply repeat_app.
Qed.

Lemma newUint8Array_length (n : Z) :
  0 <= n -> length (newUint8Array n) = Z.to_nat n.
Proof. intros _. apply repeat_length. Qed.

(** The frame that [concatUint8Arrays] builds: prefix, first array,
    second array. *)
Lemma concatUint8Arrays_layout (array1 array2 : bytes) :
  concatUint8Arrays array1 array2
  = Returns (uint16_buffer (ToUint16 (byteLength array1)) ++ array1 ++ array2).
Proof.
  unfold concatUint8Arrays.
  pose proof (byteLength_nonneg array1) as H1.
  pose proof (byteLength_nonneg array2) as H2.
  set (ix := uint16_buffer (ToUint16 (byteLength array1))).
  replace (2 + byteLength array1 + byteLength array2)
    with (2 + (byteLength array1 + byteLength array2)) by lia.
  rewrite (newUint8Array_split 2) by lia.
  rewrite (newUint8Array_split (byteLength array1)) by lia.
  pose proof (set_overwrites [] (newUint8Array 2)
                (newUint8Array (byteLength array1)
                 ++ newUint8Array (byteLength array2)) ix eq_refl) as S0.
  cbn [app] in S0. change (byteLength []) with 0 in S0.
  cbn [app]. rewrite S0. cbn [bind].
  pose proof (set_overwrites ix (newUint8Array (byteLength array1))
                (newUint8Array (byteLength array2)) array1) as S1.
  change (byteLength ix) with 2 in S1.
  rewrite S1
    by (rewrite newUint8Array_length by lia; unfold byteLength; lia).
  cbn [bind].
  pose proof (set_overwrites (ix ++ array1) (newUint8Array (byteLength array2))
                [] array2) as S2.
  rewrite byteLength_app in S2. change (byteLength ix) with 2 in S2.
  rewrite app_nil_r in S2.
  rewrite <- app_assoc in S2.
  rewrite S2
    by (rewrite newUint8Array_length by lia; unfold byteLength; lia).
  now rewrite app_nil_r, <- app_assoc.
Qed.

(** What [splitUint8Array] returns on a buffer of two bytes or more. *)
Lemma splitUint8Array_parts (b0 b1 : byte) (rest : bytes) :
  splitUint8Array (b0 :: b1 :: rest)
  = Returns (firstn (Z.to_nat (uint16_of_bytes b0 b1)) rest,
             skipn (Z.to_nat (uint16_of_bytes b0 b1)) rest).
Proof.
  pose proof (Z_of_byte_range b0). pose proof (Z_of_byte_range b1).
  assert (Hs : 0 <= uint16_of_bytes b0 b1) by (unfold uint16_of_bytes; lia).
  set (k := uint16_of_bytes b0 b1) in *.
  unfold splitUint8Array.
  assert (Hlen : byteLength (b0 :: b1 :: rest) = 2 + byteLength rest)
    by (unfold byteLength; cbn [length]; lia).
  pose proof (byteLength_nonneg rest) as Hr.
  assert (Hslice : slice (b0 :: b1 :: rest) 0 2 = [b0; b1]).
  { unfold slice, subarray, window, range, relativeIndex. rewrite Hlen.
    cbn [fst snd]. cbn [Z.ltb Z.compare].
    rewrite (Z.min_l 0) by lia. rewrite (Z.min_l 2) by lia.
    reflexivity. }
  rewrite Hslice. fold k. f_equal. f_equal.
  - unfold subarray, window, range, relativeIndex. rewrite Hlen.
    cbn [fst snd].
    destruct (2 <? 0) eqn:E; [lia|]. destruct (2 + k <? 0) eqn:E'; [lia|].
    rewrite (Z.min_l 2) by lia.
    change (Z.to_nat 2) with 2%nat. cbn [skipn].
    destruct (Z.le_ge_cases (2 + k) (2 + byteLength rest)).
    + rewrite Z.min_l by lia. f_equal. lia.
    + rewrite Z.min_r by lia.
      replace (Z.max (2 + byteLength rest - 2) 0) with (byteLength rest) by lia.
      unfold byteLength in *. rewrite Nat2Z.id.
      rewrite firstn_all. symmetry. apply firstn_all2. lia.
  - unfold subarray_from, subarray, window, range, relativeIndex. rewrite Hlen.
    cbn [fst snd].
    destruct (2 + k <? 0) eqn:E'; [lia|].
    destruct (2 + byteLength rest <? 0) eqn:E''; [lia|].
    rewrite (Z.min_l (2 + byteLength rest)) by lia.
    destruct (Z.le_ge_cases (2 + k) (2 + byteLength rest)).
    + rewrite Z.min_l by lia.
      replace (Z.to_nat (2 + k)) with (S (S (Z.to_nat k))) by lia.
      cbn [skipn]. apply firstn_all2. rewrite length_skipn.
      unfold byteLength in *. lia.
    + rewrite Z.min_r by lia.
      replace (Z.max (2 + byteLength rest - (2 + byteLength rest)) 0) with 0
        by lia.
      cbn [Z.to_nat firstn]. symmetry. apply skipn_all2.
      unfold byteLength in *. lia.
Qed.

End FrameFacts.

Section FrameTheorems.
Import Js ConcatBytes.

(** C3, as stated, fails: a first buffer of 65536 bytes is framed with the
    prefix 0, and the split then returns an empty first part and the whole
    payload as second part. *)
Lemma C3_counterexample_long_first_buffer :
  frameRoundTrip longBuffer [] = Returns ([], longBuffer)
  /\ frameRoundTrip longBuffer [] <> Returns (longBuffer, []).
Proof.
  assert (Hlen : byteLength longBuffer = 65536).
  { unfold byteLength, longBuffer. rewrite repeat_length. lia. }
  assert (E : frameRoundTrip longBuffer [] = Returns ([], longBuffer)).
  { unfold frameRoundTrip. rewrite concatUint8Arrays_layout, Hlen.
    cbn [bind]. change (uint16_buffer (ToUint16 65536)) with [x00; x00].
    cbn [app]. rewrite splitUint8Array_parts, app_nil_r. reflexivity. }
  split; [exact E|]. rewrite E. intros H. injection H as H _.
  apply (f_equal byteLength) in H. rewrite Hlen in H. discriminate H.
Qed.

(** C3 (amended): for every pair of byte arrays (A, B) in which A has at
    most 65535 bytes, the frame is the length of A as two little-endian
    bytes, then A, then B, and splitting the frame returns (A, B). *)
Theorem C3_frame_roundtrip (A B : bytes) :
  byteLength A < 65536 ->
  (exists b0 b1,
      concatUint8Arrays A B = Returns (b0 :: b1 :: A ++ B)
      /\ Z_of_byte b0 + 256 * Z_of_byte b1 = byteLength A)
  /\ frameRoundTrip A B = Returns (A, B).
Proof.
  intros Hlt. pose proof (byteLength_nonneg A) as Hnn.
  assert (Hix : ToUint16 (byteLength A) = byteLength A)
    by (unfold ToUint16; apply Z.mod_small; lia).
  pose proof (uint16_buffer_roundtrip (byteLength A) (conj Hnn Hlt)) as Hrt.
  split.
  - exists (byte_of_Z (byteLength A mod 256)), (byte_of_Z (byteLength A / 256)).
    split.
    + rewrite concatUint8Arrays_layout, Hix. reflexivity.
    + exact Hrt.
  - unfold frameRoundTrip. rewrite concatUint8Arrays_layout, Hix. cbn [bind].
    unfold uint16_buffer. cbn [app]. rewrite splitUint8Array_parts, Hrt.
    unfold byteLength. rewrite Nat2Z.id.
    rewrite firstn_app, firstn_all, Nat.sub_diag, firstn_O, app_nil_r.
    rewrite skipn_app, skipn_all, Nat.sub_diag. reflexivity.
Qed.

(** A frame of a three-byte buffer and a one-byte buffer is split into the same two buffers. *)
Lemma C3_witness_three_bytes_and_one :
  byteLength [x01; x02; x03] < 65536
  /\ frameRoundTrip [x01; x02; x03] [x04] = Returns ([x01; x02; x03], [x04]).
Proof.
  split; [reflexivity|].
  apply (C3_frame_roundtrip [x01; x02; x03] [x04]). reflexivity.
Defined.

(** C4, as stated, fails: the frame 05 00 01 declares five bytes and holds
    one, and [splitUint8Array] returns that byte and an empty second part
    without throwing. *)
Lemma C4_counterexample_short_frame :
  declaredLength [x05; x00; x01] = Some 5
  /\ 5 > byteLength [x05; x00; x01] - 2
  /\ splitUint8Array [x05; x00; x01] = Returns ([x01], [])
  /\ (forall e, splitUint8Array [x05; x00; x01] <> Throws e).
Proof.
  repeat split; try reflexivity.
  intros e H. vm_compute in H. discriminate H.
Qed.

(** C4 (amended): for every input buffer whose two-byte prefix declares
    more bytes than follow it, [splitUint8Array] does not fail: it returns
    all bytes after the prefix as first part and an empty second part. *)
Theorem C4_split_clamps (combined : bytes) (declared : Z) :
  declaredLength combined = Some declared ->
  declared > byteLength combined - 2 ->
  splitUint8Array combined = Returns (skipn 2 combined, []).
Proof.
  intros Hd Hgt.
  destruct combined as [|b0 [|b1 rest]]; try discriminate Hd.
  cbn [declaredLength] in Hd. injection Hd as Hd.
  rewrite splitUint8Array_parts, Hd. cbn [skipn].
  assert (Hlen : (length rest <= Z.to_nat declared)%nat)
    by (unfold byteLength in Hgt; cbn [length] in Hgt; lia).
  rewrite firstn_all2 by exact Hlen. rewrite skipn_all2 by exact Hlen.
  reflexivity.
Qed.

(** The frame 05 00 01 is split into its one byte and an empty second part. *)
Lemma C4_witness_five_declared_one_present :
  splitUint8Array [x05; x00; x01] = Returns ([x01], []).
Proof.
  apply (C4_split_clamps [x05; x00; x01] 5); reflexivity.
Defined.

End FrameTheorems.

(** ** Chunk views *)

Section ChunkFacts.
Import Js ConcatBytes.

Lemma range_inside (len offset size : Z) :
  0 <= offset < len -> 0 < size ->
  range len offset (offset + size)
  = (offset, Z.min (offset + size) len - offset).
Proof.
  intros Ho Hs. unfold range, relativeIndex.
  destruct (offset <? 0) eqn:E; [lia|].
  destruct (offset + size <? 0) eqn:E'; [lia|].
  rewrite (Z.min_l offset) by lia. f_equal. lia.
Qed.

Lemma chunkLoop_done (fuel : nat) (len size offset : Z) (acc : list View) :
  len <= offset -> chunkLoop fuel len size offset acc = Some acc.
Proof.
  intros H. destruct fuel; cbn [chunkLoop];
    destruct (offset <? len) eqn:E; (lia || reflexivity).
Qed.

(** The loop invariant: from an offset inside the data the loop ends, and
    the views it adds tile the rest of the data in pieces of at most
    [size] bytes. *)
Lemma chunkLoop_tiles (fuel : nat) :
  forall (len size offset : Z) (acc : list View),
    0 < size -> 0 <= offset <= len -> len - offset < Z.of_nat fuel ->
    exists vs,
      chunkLoop fuel len size offset acc = Some (acc ++ vs)
      /\ tiles offset vs len
      /\ Forall (fun v => viewLength v <= size) vs.
Proof.
  induction fuel as [|fuel IH]; intros len size offset acc Hs Ho Hf.
  - exfalso. lia.
  - cbn [chunkLoop]. destruct (offset <? len) eqn:E.
    + apply Z.ltb_lt in E. rewrite range_inside by lia. cbn [fst snd].
      destruct (Z.le_gt_cases (offset + size) len) as [Hin|Hout].
      * rewrite Z.min_l by lia.
        destruct (IH len size (offset + size)
                     (acc ++ [mkView offset (offset + size - offset)]))
          as (vs & Hrun & Htile & Hall); try lia.
        exists (mkView offset (offset + size - offset) :: vs).
        rewrite Hrun, <- app_assoc. cbn [app tiles byteOffset viewLength].
        repeat split; try lia.
        -- replace (offset + (offset + size - offset)) with (offset + size)
             by lia. exact Htile.
        -- constructor; [cbn; lia | exact Hall].
      * rewrite Z.min_r by lia. rewrite chunkLoop_done by lia.
        exists [mkView offset (len - offset)].
        cbn [tiles byteOffset viewLength]. repeat split; try lia.
        constructor; [cbn; lia | constructor].
    + apply Z.ltb_ge in E. exists []. rewrite app_nil_r.
      cbn [tiles]. repeat split; [lia | constructor].
Qed.

(** Views that tile [start, stop) hold, in order, the bytes of that range
    of the data. *)
Lemma tiles_contents (data : bytes) (vs : list View) :
  forall start stop,
    0 <= start -> stop <= byteLength data -> tiles start vs stop ->
    start <= stop
    /\ concat (map (viewBytes data) vs)
       = firstn (Z.to_nat (stop - start)) (skipn (Z.to_nat start) data).
Proof.
  induction vs as [|v vs IH]; intros start stop H0 Hstop Ht; cbn [tiles] in Ht.
  - subst stop. split; [lia|]. now rewrite Z.sub_diag.
  - destruct Ht as (Hoff & Hpos & Ht).
    assert (Hnext : 0 <= start + viewLength v) by lia.
    destruct (IH _ _ Hnext Hstop Ht) as [Hle Hrest].
    split; [lia|]. cbn [map concat]. rewrite Hrest.
    unfold viewBytes, window. cbn [fst snd]. rewrite Hoff.
    replace (Z.to_nat (start + viewLength v))
      with (Z.to_nat (viewLength v) + Z.to_nat start)%nat by lia.
    rewrite <- skipn_skipn.
    replace (Z.to_nat (stop - start))
      with (Z.to_nat (viewLength v)
            + Z.to_nat (stop - (start + viewLength v)))%nat by lia.
    set (rest := skipn (Z.to_nat start) data).
    rewrite <- (firstn_skipn (Z.to_nat (viewLength v)) rest) at 3.
    rewrite firstn_app.
    assert (Hlen : (Z.to_nat (viewLength v) <= length rest)%nat).
    { unfold rest. rewrite length_skipn. unfold byteLength in Hstop. lia. }
    rewrite firstn_firstn, length_firstn.
    rewrite (Nat.min_l (Z.to_nat (viewLength v)) (length rest)) by exact Hlen.
    rewrite Nat.min_r by lia. f_equal. f_equal. lia.
Qed.

End ChunkFacts.

Section ChunkTheorems.
Import Js ConcatBytes.

(** C2, as stated, fails: asked for chunks of one byte, the split of a
    two-byte array is a single view of two bytes. *)
Lemma C2_counterexample_small_chunk_size :
  createOptimizedChunks [x0a; x0b] 1 = Some [mkView 0 2]
  /\ ~ (forall vs, createOptimizedChunks [x0a; x0b] 1 = Some vs ->
                   Forall (fun v => viewLength v <= 1) vs).
Proof.
  split; [reflexivity|]. intros H.
  specialize (H _ eq_refl). inversion H as [|v l Hv Hl]; subst.
  cbn in Hv. lia.
Qed.

(** C2 (amended): for every byte array and every requested chunk size
    above 0, a whole number of bytes, [createOptimizedChunks] returns
    views on the data, none empty and each of length at most
    max(chunkSize, 16 MiB), which cover [0, len(data)) exactly once in
    order; their contents, concatenated in order, are the data. *)
Theorem C2_chunks_cover_data (data : bytes) (chunkSize : Z) :
  0 < chunkSize ->
  exists chunks,
    createOptimizedChunks data chunkSize = Some chunks
    /\ Forall (fun v => viewLength v <= Z.max chunkSize 16777216) chunks
    /\ tiles 0 chunks (byteLength data)
    /\ concat (map (viewBytes data) chunks) = data.
Proof.
  intros Hpositive. unfold createOptimizedChunks.
  destruct (chunkLoop_tiles (S (length data)) (byteLength data)
              (Z.max chunkSize minimumChunk) 0 [])
    as (vs & Hrun & Htile & Hall).
  - unfold minimumChunk. lia.
  - pose proof (byteLength_nonneg data). lia.
  - unfold byteLength. lia.
  - exists vs. cbn [app] in Hrun. repeat split; try assumption.
    destruct (tiles_contents data vs 0 (byteLength data)) as [_ Hc];
      try assumption; try lia.
    rewrite Hc. cbn [Z.to_nat skipn]. rewrite Z.sub_0_r.
    unfold byteLength. rewrite Nat2Z.id. apply firstn_all.
Qed.

(** Two bytes, asked for in chunks of one byte. *)
Lemma C2_witness_two_bytes_in_chunks_of_one :
  0 < 1
  /\ exists chunks,
       createOptimizedChunks [x0a; x0b] 1 = Some chunks
       /\ Forall (fun v => viewLength v <= Z.max 1 16777216) chunks
       /\ tiles 0 chunks (byteLength [x0a; x0b])
       /\ concat (map (viewBytes [x0a; x0b]) chunks) = [x0a; x0b].
Proof.
  assert (Hpositive : 0 < 1) by lia.
  split; [exact Hpositive|].
  exact (C2_chunks_cover_data [x0a; x0b] 1 Hpositive).
Defined.

End ChunkTheorems.

(** ** Chunk-size tiers *)

Section TierTheorems.
Import UniqueCode.

(** C5: [calculateOptimalChunkSize s] is 128 MiB when s > 10 GiB, 64 MiB
    when 1 GiB < s <= 10 GiB, 16 MiB when 100 MiB < s <= 1 GiB and 4 MiB
    otherwise; it is non-decreasing in s, and the tiers change exactly
    after 100 MiB, 1 GiB and 10 GiB. *)
Theorem C5_chunk_size_tiers (s : Z) :
  (s > 10 * GiB -> calculateOptimalChunkSize s = 128 * MiB)
  /\ (1 * GiB < s <= 10 * GiB -> calculateOptimalChunkSize s = 64 * MiB)
  /\ (100 * MiB < s <= 1 * GiB -> calculateOptimalChunkSize s = 16 * MiB)
  /\ (s <= 100 * MiB -> calculateOptimalChunkSize s = 4 * MiB)
  /\ (forall t, s <= t ->
        calculateOptimalChunkSize s <= calculateOptimalChunkSize t)
  /\ calculateOptimalChunkSize (100 * MiB) = 4 * MiB
  /\ calculateOptimalChunkSize (100 * MiB + 1) = 16 * MiB
  /\ calculateOptimalChunkSize (1 * GiB) = 16 * MiB
  /\ calculateOptimalChunkSize (1 * GiB + 1) = 64 * MiB
  /\ calculateOptimalChunkSize (10 * GiB) = 64 * MiB
  /\ calculateOptimalChunkSize (10 * GiB + 1) = 128 * MiB.
Proof.
  unfold calculateOptimalChunkSize, GiB, MiB.
  repeat split; try reflexivity; intros;
    repeat match goal with
           | |- context [?a >? ?b] =>
               let E := fresh "E" in
               destruct (Z.gtb_spec a b) as [E|E]
           end; lia.
Qed.

(** One file size in each tier, and two sizes in order. *)
Lemma C5_witness_one_size_per_tier :
  calculateOptimalChunkSize (11 * GiB) = 128 * MiB
  /\ calculateOptimalChunkSize (2 * GiB) = 64 * MiB
  /\ calculateOptimalChunkSize (500 * MiB) = 16 * MiB
  /\ calculateOptimalChunkSize 1000 = 4 * MiB
  /\ calculateOptimalChunkSize 1000 <= calculateOptimalChunkSize (2 * GiB).
Proof.
  destruct (C5_chunk_size_tiers (11 * GiB)) as (H1 & _).
  destruct (C5_chunk_size_tiers (2 * GiB)) as (_ & H2 & _).
  destruct (C5_chunk_size_tiers (500 * MiB)) as (_ & _ & H3 & _).
  destruct (C5_chunk_size_tiers 1000) as (_ & _ & _ & H4 & H5 & _).
  split; [apply H1; reflexivity|].
  split; [apply H2; split; [reflexivity | discriminate]|].
  split; [apply H3; split; [reflexivity | discriminate]|].
  split; [apply H4; discriminate|].
  apply H5. discriminate.
Defined.

End TierTheorems.

(** ** Size limit *)

Section ValidateTheorems.
Import Js Validate.

Variable humanFileSize : Z -> jsstring.



End ValidateTheorems.


(** ** Batches processed in order *)

Section ListFacts.
Context {A : Type}.

Lemma skipn_nth_cons (d : A) (l : list A) :
  forall n, (n < length l)%nat -> skipn n l = nth n l d :: skipn (S n) l.
Proof.
  induction l as [|x l IH]; intros n Hn; cbn [length] in Hn.
  - lia.
  - destruct n as [|n]; [reflexivity|].
    cbn [skipn nth]. rewrite IH by lia. reflexivity.
Qed.

Lemma firstn_plus (l : list A) :
  forall n k, firstn (n + k) l = firstn n l ++ firstn k (skipn n l).
Proof.
  induction l as [|x l IH]; intros n k.
  - now rewrite skipn_nil, !firstn_nil.
  - destruct n as [|n]; [reflexivity|].
    cbn [Nat.add firstn skipn app]. now rewrite IH.
Qed.

Lemma Forall2_nth_error_l {B : Type} (R : A -> B -> Prop)
      (l : list A) (l' : list B) :
  Forall2 R l l' ->
  forall i a, nth_error l i = Some a ->
              exists b, nth_error l' i = Some b /\ R a b.
Proof.
  induction 1 as [|x y l l' Hxy _ IH]; intros i a Hi.
  - destruct i; discriminate Hi.
  - destruct i as [|i]; cbn [nth_error] in *.
    + injection Hi as <-. now exists y.
    + now apply IH.
Qed.

End ListFacts.

Section ParallelFacts.
Import Js ConcatBytes.
Context {T : Type}.
Variable chunks : list bytes.
Variable processor : bytes -> outcome T.
Variable concurrency : Z.
Hypothesis concurrency_positive : 1 <= concurrency.
Hypothesis processor_resolves :
  Forall (fun c => exists t, processor c = Returns t) chunks.

Let output (c : bytes) (t : T) : Prop := processor c = Returns t.

Lemma fillBatch_takes (fuel : nat) :
  forall (i : Z) (index : nat) (batch : list (outcome T)),
    (index <= length chunks)%nat -> (length chunks - index <= fuel)%nat ->
    exists k,
      fillBatch chunks processor concurrency fuel i index batch
      = Some (batch ++ map processor (firstn k (skipn index chunks)),
              (index + k)%nat)
      /\ (index + k <= length chunks)%nat
      /\ (i < concurrency -> (index < length chunks)%nat -> (1 <= k)%nat).
Proof.
  induction fuel as [|fuel IH]; intros i index batch Hle Hfuel.
  - exists 0%nat. cbn [fillBatch].
    destruct (Nat.ltb_spec index (length chunks)) as [Hlt|_]; [lia|].
    rewrite andb_false_r, app_nil_r, Nat.add_0_r.
    repeat split; lia.
  - cbn [fillBatch].
    destruct (Z.ltb_spec i concurrency) as [Hi|Hi];
      destruct (Nat.ltb_spec index (length chunks)) as [Hlt|Hge];
      cbn [andb];
      try (exists 0%nat; rewrite app_nil_r, Nat.add_0_r;
           repeat split; lia).
    destruct (IH (i + 1) (S index)
                 (batch ++ [processor (nth index chunks [])]))
      as (k & Hrun & Hbound & _); try lia.
    exists (S k). rewrite Hrun, <- app_assoc.
    rewrite (skipn_nth_cons (A:=bytes) [] chunks index Hlt).
    cbn [firstn map app].
    replace (index + S k)%nat with (S index + k)%nat by lia.
    repeat split; lia.
Qed.

Lemma Promise_all_resolved (l : list bytes) :
  Forall (fun c => exists t, processor c = Returns t) l ->
  exists ts, Promise_all (map processor l) = Returns ts /\ Forall2 output l ts.
Proof.
  induction 1 as [|c l [t Ht] _ (ts & Hts & Hall)].
  - exists []. split; [reflexivity | constructor].
  - exists (t :: ts). cbn [map Promise_all]. rewrite Ht, Hts.
    split; [reflexivity | now constructor].
Qed.

Lemma Forall_window (k n : nat) :
  Forall (fun c => exists t, processor c = Returns t)
         (firstn k (skipn n chunks)).
Proof.
  apply Forall_forall. intros c Hc.
  apply (proj1 (Forall_forall _ _) processor_resolves).
  rewrite <- (firstn_skipn n chunks). apply in_or_app. right.
  rewrite <- (firstn_skipn k (skipn n chunks)). apply in_or_app. now left.
Qed.

Lemma processNextBatch_in_order (fuel : nat) :
  forall (index : nat) (results : list T),
    (index <= length chunks)%nat -> (length chunks - index < fuel)%nat ->
    Forall2 output (firstn index chunks) results ->
    exists res,
      processNextBatch chunks processor concurrency fuel index results
      = Some (Returns res)
      /\ Forall2 output chunks res.
Proof.
  induction fuel as [|fuel IH]; intros index results Hle Hfuel Hdone.
  - lia.
  - cbn [processNextBatch].
    destruct (fillBatch_takes (length chunks) 0 index [] Hle)
      as (k & Hfill & Hbound & Hstep); [lia|].
    rewrite Hfill. cbn [app].
    destruct (Promise_all_resolved _ (Forall_window k index))
      as (ts & Hts & Hout).
    rewrite Hts.
    assert (Hall : Forall2 output (firstn (index + k) chunks) (results ++ ts))
      by (rewrite firstn_plus; now apply Forall2_app).
    destruct (Nat.ltb_spec (index + k) (length chunks)) as [Hlt|Hge].
    + apply IH; [lia | | exact Hall].
      assert (1 <= k)%nat by (apply Hstep; lia). lia.
    + exists (results ++ ts). split; [reflexivity|].
      rewrite firstn_all2 in Hall by lia. exact Hall.
Qed.

End ParallelFacts.

Section ParallelTheorems.
Import Js ConcatBytes.

(** C9: for every chunk list, every processor whose calls on these chunks
    resolve and every concurrency of at least 1, [processChunksParallel]
    returns a list of the same length as the input whose i-th element is
    the output of the processor for the i-th chunk. *)
Theorem C9_results_in_input_order {T : Type} (chunks : list bytes)
        (processor : bytes -> outcome T) (concurrency : Z) :
  1 <= concurrency ->
  Forall (fun c => exists t, processor c = Returns t) chunks ->
  exists results,
    processChunksParallel chunks processor concurrency
    = Some (Returns results)
    /\ length results = length chunks
    /\ (forall i c, nth_error chunks i = Some c ->
          exists t, nth_error results i = Some t /\ processor c = Returns t).
Proof.
  intros Hc Hres. unfold processChunksParallel.
  destruct (processNextBatch_in_order chunks processor concurrency Hc Hres
              (S (length chunks)) 0%nat [])
    as (res & Hrun & Hall); [lia | lia | constructor |].
  exists res. split; [exact Hrun|]. split.
  - symmetry. eapply Forall2_length. exact Hall.
  - intros i c Hi.
    destruct (Forall2_nth_error_l _ _ _ Hall i c Hi) as (t & Ht & Hout).
    now exists t.
Qed.

(** Five chunks processed two at a time, the processor returning the length of its chunk. *)
Lemma C9_witness_five_chunks_two_at_a_time :
  exists results,
    processChunksParallel [[x01]; [x02; x03]; []; [x04]; [x05]]
      (fun c => Returns (byteLength c)) 2
    = Some (Returns results)
    /\ length results = 5%nat
    /\ (forall i c,
          nth_error [[x01]; [x02; x03]; []; [x04]; [x05]] i = Some c ->
          exists t, nth_error results i = Some t
                    /\ Returns (byteLength c) = Returns t).
Proof.
  apply (C9_results_in_input_order
           [[x01]; [x02; x03]; []; [x04]; [x05]]
           (fun c => Returns (byteLength c)) 2).
  - discriminate.
  - repeat constructor; eexists; reflexivity.
Defined.

End ParallelTheorems.

(** ** Progress reports *)

Section ProgressFacts.
Import Js FileTransferOptimizer.

Variable floorPercent : Z -> Z -> Z.
Variable sender : bytes -> bool -> outcome unit.
Variable data : bytes.
Variable chunkSize : Z.
Variable onProgress : bool.

Local Abbreviation size := (fileSize data).
Local Abbreviation loop :=
  (transferLoop floorPercent sender data chunkSize onProgress).

(** Division by a positive size, multiplication by 100 and [Math.floor]
    are monotone, also in floating point, and a full transfer is
    (size / size) * 100 = 100 without rounding. *)
Hypothesis floorPercent_monotone :
  forall a b, 0 < size -> a <= b <= size ->
              floorPercent a size <= floorPercent b size.
Hypothesis floorPercent_complete : 0 < size -> floorPercent size size = 100.

Lemma reports_app (t1 t2 : list event) :
  reports (t1 ++ t2) = reports t1 ++ reports t2.
Proof.
  induction t1 as [|[c l|p] t1 IH]; cbn [app reports];
    [reflexivity | exact IH | now rewrite IH].
Qed.

Lemma transferLoop_done (fuel : nat) (offset last : Z) (trace : list event) :
  size <= offset -> loop fuel offset last trace = (Completed, trace).
Proof.
  intros H.
  destruct fuel; cbn [transferLoop];
    destruct (offset <? size) eqn:E; (lia || reflexivity).
Qed.

Lemma floorPercent_at_most_100 (offset : Z) :
  0 < size -> offset <= size -> floorPercent offset size <= 100.
Proof.
  intros Hs Ho. rewrite <- floorPercent_complete by exact Hs.
  apply floorPercent_monotone; lia.
Qed.

(** The loop invariant: whatever the fuel, the events added by the loop
    report values that obey the throttle and do not exceed 100, and a
    loop that completes after at least one chunk ends on the report 100. *)
Lemma transferLoop_throttled (fuel : nat) :
  forall (offset last : Z) (trace : list event),
    0 < size -> offset <= size -> last <= 100 ->
    exists added,
      snd (loop fuel offset last trace) = trace ++ added
      /\ throttled last (reports added)
      /\ Forall (fun r => r <= 100) (reports added)
      /\ (fst (loop fuel offset last trace) = Completed ->
          offset < size -> onProgress = true ->
          exists before, reports added = before ++ [100]).
Proof.
  induction fuel as [|fuel IH]; intros offset last trace Hs Ho Hl.
  - exists []. cbn [transferLoop].
    destruct (offset <? size) eqn:E; cbn [fst snd reports throttled].
    + rewrite app_nil_r. repeat split; try constructor. discriminate.
    + rewrite app_nil_r. apply Z.ltb_ge in E.
      repeat split; try constructor. lia.
  - cbn [transferLoop].
    destruct (offset <? size) eqn:E.
    2:{ exists []. cbn [fst snd reports throttled]. rewrite app_nil_r.
        apply Z.ltb_ge in E. repeat split; try constructor. lia. }
    set (end_ := Z.min (offset + chunkSize) size).
    set (chunk := slice data offset end_).
    assert (Hend : end_ <= size) by (unfold end_; lia).
    pose proof (floorPercent_at_most_100 end_ Hs Hend) as Hcur.
    destruct (sender chunk (end_ =? size)) as [u|e].
    2:{ exists [Sent chunk (end_ =? size)].
        cbn [fst snd reports throttled].
        repeat split; try constructor. discriminate. }
    destruct (Z.eqb_spec end_ size) as [Hlast|Hmore].
    + (* the last chunk *)
      rewrite orb_true_r, andb_true_r. rewrite Hlast in *.
      rewrite (floorPercent_complete Hs) in *.
      rewrite !transferLoop_done by lia.
      destruct onProgress; cbn [fst snd].
      * exists [Sent chunk true; Progress 100].
        rewrite <- app_assoc. cbn [app reports throttled].
        repeat split; try (constructor; try constructor; lia).
        -- right. repeat split. exact Hl.
        -- intros _ _ _. now exists [].
      * exists [Sent chunk true]. cbn [reports throttled].
        repeat split; try constructor. discriminate.
    + rewrite orb_false_r.
      destruct (onProgress
                && (last + 1 <=? floorPercent end_ size)) eqn:Hreport.
      * apply andb_prop in Hreport as [Hon Hadv]. apply Z.leb_le in Hadv.
        destruct (IH end_ (floorPercent end_ size)
                     ((trace ++ [Sent chunk false])
                      ++ [Progress (floorPercent end_ size)]) Hs Hend Hcur)
          as (added & Hsnd & Hthr & Hall & Hfin).
        exists (Sent chunk false :: Progress (floorPercent end_ size) :: added).
        split; [rewrite Hsnd, <- !app_assoc; reflexivity|].
        cbn [reports throttled]. repeat split; try assumption.
        -- now left.
        -- now constructor.
        -- intros Hc _ Hp. destruct (Hfin Hc) as [before Hb]; [lia | exact Hp |].
           exists (floorPercent end_ size :: before). now rewrite Hb.
      * destruct (IH end_ last (trace ++ [Sent chunk false]) Hs Hend Hl)
          as (added & Hsnd & Hthr & Hall & Hfin).
        exists (Sent chunk false :: added).
        split; [rewrite Hsnd, <- !app_assoc; reflexivity|].
        cbn [reports]. repeat split; try assumption.
        intros Hc _ Hp. apply Hfin; [exact Hc | lia | exact Hp].
Qed.

(** With a positive chunk size and a sender that resolves the loop ends
    within one step per remaining byte. *)
Lemma transferLoop_completes (fuel : nat) :
  forall (offset last : Z) (trace : list event),
    0 < chunkSize -> (forall c l, exists u, sender c l = Returns u) ->
    size - offset <= Z.of_nat fuel ->
    fst (loop fuel offset last trace) = Completed.
Proof.
  induction fuel as [|fuel IH]; intros offset last trace Hc Hres Hfuel.
  - rewrite transferLoop_done by lia. reflexivity.
  - cbn [transferLoop].
    destruct (offset <? size) eqn:E; [|reflexivity].
    apply Z.ltb_lt in E.
    set (end_ := Z.min (offset + chunkSize) size).
    destruct (Hres (slice data offset end_) (end_ =? size)) as [u ->].
    assert (size - end_ <= Z.of_nat fuel) by (unfold end_; lia).
    destruct (onProgress && _); now apply IH.
Qed.

Lemma throttled_nondecreasing (rs : list Z) :
  forall last, throttled last rs -> nondecreasing last rs.
Proof.
  induction rs as [|r rs IH]; intros last H; cbn [throttled nondecreasing] in *.
  - exact I.
  - destruct H as [H Hrest]. split; [|now apply IH].
    destruct H as [H|(_ & _ & H)]; lia.
Qed.

Lemma throttled_count (rs : list Z) :
  forall last, throttled last rs -> Forall (fun r => r <= 100) rs ->
               last <= 100 -> Z.of_nat (length rs) <= 100 - last + 1.
Proof.
  induction rs as [|r rs IH]; intros last H Hall Hl; cbn [length].
  - lia.
  - cbn [throttled] in H. destruct H as [H Hrest].
    inversion Hall as [|r' rs' Hr Hall']; subst.
    destruct H as [H|(-> & _ & H)].
    + specialize (IH r Hrest Hall' Hr). lia.
    + cbn [length]. lia.
Qed.

End ProgressFacts.

Section ProgressTheorems.
Import Js FileTransferOptimizer.

Lemma exactPercent_monotone (size a b : Z) :
  0 < size -> a <= b <= size -> exactPercent a size <= exactPercent b size.
Proof.
  intros Hs Hab. unfold exactPercent. apply Z.div_le_mono; lia.
Qed.

Lemma exactPercent_complete (size : Z) :
  0 < size -> exactPercent size size = 100.
Proof.
  intros Hs. unfold exactPercent. apply Z.div_mul. lia.
Qed.

(** C8: for every file data, chunk size and sender, and for every
    monotone [floorPercent] that is 100 on the full size, the values that
    [progressiveFileTransfer] hands to the callback obey the throttle at
    every point of the run (each is at least one more than the one before,
    except possibly the final completion report), are non-decreasing and
    number at most 100 plus the completion report; a run that completes on
    non-empty data ends on the report 100; and with a positive chunk size
    and a sender that resolves the run completes. *)
Theorem C8_progress_throttled (floorPercent : Z -> Z -> Z)
        (sender : bytes -> bool -> outcome unit)
        (data : bytes) (chunkSize : Z) :
  (forall a b, 0 < fileSize data -> a <= b <= fileSize data ->
     floorPercent a (fileSize data) <= floorPercent b (fileSize data)) ->
  (0 < fileSize data -> floorPercent (fileSize data) (fileSize data) = 100) ->
  (forall fuel onProgress,
      let rs := reports (snd (transferLoop floorPercent sender data chunkSize
                                onProgress fuel 0 0 [])) in
      throttled 0 rs /\ nondecreasing 0 rs /\ (length rs <= 101)%nat)
  /\ (forall onProgress,
        let run := progressiveFileTransfer floorPercent sender data chunkSize
                     onProgress in
        fst run = Completed -> onProgress = true -> data <> [] ->
        exists before, reports (snd run) = before ++ [100])
  /\ (0 < chunkSize -> (forall c l, exists u, sender c l = Returns u) ->
      forall onProgress,
        fst (progressiveFileTransfer floorPercent sender data chunkSize
               onProgress) = Completed).
Proof.
  intros Hmono Hfull.
  destruct (Z.lt_ge_cases 0 (fileSize data)) as [Hs|Hempty].
  - split; [|split].
    + intros fuel onProgress rs.
      destruct (transferLoop_throttled floorPercent sender data chunkSize
                  onProgress Hmono Hfull fuel 0 0 [] Hs)
        as (added & Hsnd & Hthr & Hall & _); try lia.
      subst rs. rewrite Hsnd. cbn [app].
      split; [exact Hthr|]. split; [now apply throttled_nondecreasing|].
      pose proof (throttled_count _ 0 Hthr Hall). lia.
    + intros onProgress run Hc Hon _. subst run.
      unfold progressiveFileTransfer in *.
      destruct (transferLoop_throttled floorPercent sender data chunkSize
                  onProgress Hmono Hfull (S (length data)) 0 0 [] Hs)
        as (added & Hsnd & _ & _ & Hfin); try lia.
      rewrite Hsnd. now apply Hfin.
    + intros Hc Hres onProgress. unfold progressiveFileTransfer.
      apply transferLoop_completes; try assumption.
      unfold fileSize, byteLength. lia.
  - assert (Hnil : data = []).
    { destruct data; [reflexivity|].
      unfold fileSize, byteLength in Hempty. cbn [length] in Hempty. lia. }
    subst data. split; [|split].
    + intros fuel onProgress rs. subst rs.
      destruct fuel; cbn; repeat split; lia.
    + intros onProgress run _ _ Hne. now contradiction Hne.
    + intros _ _ onProgress. reflexivity.
Qed.

(** Five bytes sent in chunks of two with the exact percentage: the reports are 40, 80, 100. *)
Lemma C8_witness_five_bytes_in_chunks_of_two :
  reports (snd (progressiveFileTransfer exactPercent alwaysResolves
                  [x01; x02; x03; x04; x05] 2 true))
  = [40; 80; 100]
  /\ throttled 0 [40; 80; 100]
  /\ fst (progressiveFileTransfer exactPercent alwaysResolves
            [x01; x02; x03; x04; x05] 2 true) = Completed.
Proof.
  destruct (C8_progress_throttled exactPercent alwaysResolves
              [x01; x02; x03; x04; x05] 2
              (fun a b => exactPercent_monotone _ a b)
              (exactPercent_complete _))
    as (Hsafe & _ & Hdone).
  split; [reflexivity|]. split.
  - exact (proj1 (Hsafe 6%nat true)).
  - apply Hdone; [reflexivity|]. intros c l. now exists tt.
Defined.

End ProgressTheorems.

(** ** The cipher envelope *)

Section SampleCipherFacts.
Import Js Crypto.

Lemma maskByte_involutive (k b : byte) : maskByte k (maskByte k b) = b.
Proof.
  unfold maskByte.
  destruct (Byte.to_bits k) as (k0 & k1 & k2 & k3 & k4 & k5 & k6 & k7).
  destruct (Byte.to_bits b) as (b0 & b1 & b2 & b3 & b4 & b5 & b6 & b7) eqn:Eb.
  rewrite Byte.to_bits_of_bits.
  rewrite <- !xorb_assoc, !xorb_nilpotent, !xorb_false_l.
  rewrite <- Eb. apply Byte.of_bits_to_bits.
Qed.

Lemma sampleTag_length (k : byte) (iv : bytes) : length (sampleTag k iv) = 16%nat.
Proof.
  unfold sampleTag. rewrite length_firstn, length_app, repeat_length. lia.
Qed.

Lemma sampleEncrypt_length (k : byte) (iv m : bytes) :
  byteLength (sampleEncrypt k iv m) = byteLength m + 16.
Proof.
  unfold sampleEncrypt, byteLength.
  rewrite length_app, length_map, sampleTag_length. lia.
Qed.

Lemma sampleDecrypt_length (k : byte) (iv c m : bytes) :
  sampleDecrypt k iv c = Returns m -> byteLength c = byteLength m + 16.
Proof.
  unfold sampleDecrypt.
  destruct (Nat.leb_spec 16 (length c)) as [Hle|Hlt]; [|discriminate].
  destruct (bytes_eqb _ _); [|discriminate]. cbn [andb].
  intros H. injection H as <-. unfold byteLength.
  rewrite length_map, length_firstn. lia.
Qed.

Lemma sampleDecrypt_correct (k : byte) (iv m : bytes) :
  sampleDecrypt k iv (sampleEncrypt k iv m) = Returns m.
Proof.
  unfold sampleDecrypt, sampleEncrypt.
  set (c := map (maskByte k) m).
  assert (Hn : (length (c ++ sampleTag k iv) - 16 = length c)%nat)
    by (rewrite length_app, sampleTag_length; lia).
  assert (Hle : (16 <=? length (c ++ sampleTag k iv))%nat = true)
    by (apply Nat.leb_le; rewrite length_app, sampleTag_length; lia).
  rewrite Hn, Hle.
  rewrite skipn_app, skipn_all, Nat.sub_diag. cbn [skipn app].
  rewrite firstn_app, firstn_all, Nat.sub_diag, firstn_O, app_nil_r.
  unfold bytes_eqb. destruct (list_eq_dec _ _ _) as [_|Hne];
    [|now contradiction Hne].
  cbn [andb]. unfold c. rewrite map_map.
  rewrite <- (map_id m) at 2. apply (f_equal Returns).
  apply map_ext. intros b. apply maskByte_involutive.
Qed.

End SampleCipherFacts.

Section EnvelopeFacts.
Import Js Crypto.

Lemma subarray_exact (a : bytes) (b e : Z) :
  0 <= b <= e -> e <= byteLength a ->
  subarray a b e = firstn (Z.to_nat (e - b)) (skipn (Z.to_nat b) a).
Proof.
  intros Hb He. unfold subarray, window, range, relativeIndex. cbn [fst snd].
  destruct (b <? 0) eqn:E1; [lia|]. destruct (e <? 0) eqn:E2; [lia|].
  rewrite !Z.min_l by lia. f_equal. lia.
Qed.

Lemma subarray_length (a : bytes) (b e : Z) :
  0 <= b <= e -> e <= byteLength a -> byteLength (subarray a b e) = e - b.
Proof.
  intros Hb He. rewrite subarray_exact by assumption.
  unfold byteLength in *. rewrite length_firstn, length_skipn. lia.
Qed.

Lemma slice_prefix (p r : bytes) :
  slice (p ++ r) 0 (byteLength p) = p.
Proof.
  pose proof (byteLength_nonneg p). pose proof (byteLength_nonneg r).
  unfold slice. rewrite subarray_exact by (rewrite ?byteLength_app; lia).
  cbn [Z.to_nat skipn]. rewrite Z.sub_0_r. unfold byteLength.
  rewrite Nat2Z.id, firstn_app, firstn_all, Nat.sub_diag, firstn_O.
  apply app_nil_r.
Qed.

Lemma slice_from_suffix (p r : bytes) :
  slice_from (p ++ r) (byteLength p) = r.
Proof.
  pose proof (byteLength_nonneg p). pose proof (byteLength_nonneg r).
  unfold slice_from, subarray_from.
  rewrite subarray_exact by (rewrite ?byteLength_app; lia).
  rewrite byteLength_app.
  replace (byteLength p + byteLength r - byteLength p) with (byteLength r)
    by lia.
  unfold byteLength. rewrite !Nat2Z.id.
  rewrite skipn_app, skipn_all, Nat.sub_diag. cbn [skipn app].
  apply firstn_all.
Qed.

Lemma totalLength_concat (chunks : list bytes) :
  forall sum,
    fold_left (fun sum chunk => sum + byteLength chunk) chunks sum
    = sum + byteLength (concat chunks).
Proof.
  induction chunks as [|c chunks IH]; intros sum; cbn [fold_left concat].
  - unfold byteLength. cbn. lia.
  - rewrite IH, byteLength_app. lia.
Qed.

Section WithCipher.

Variable CryptoKey : Type.
Variable gcmEncrypt : CryptoKey -> bytes -> bytes -> bytes.
Variable gcmDecrypt : CryptoKey -> bytes -> bytes -> outcome bytes.

(** AES-GCM as WebCrypto runs it: the tag has 128 bits, so a ciphertext is
    sixteen bytes longer than its plaintext, and decryption inverts
    encryption under the same key and IV. *)
Hypothesis gcm_encrypt_length :
  forall k v m, byteLength (gcmEncrypt k v m) = byteLength m + 16.
Hypothesis gcm_decrypt_length :
  forall k v c m, gcmDecrypt k v c = Returns m ->
                  byteLength c = byteLength m + 16.
Hypothesis gcm_decrypt_encrypt :
  forall k v m, gcmDecrypt k v (gcmEncrypt k v m) = Returns m.

Variable key : CryptoKey.
Variable iv : bytes.
Hypothesis iv_length : byteLength iv = 12.

Lemma combineChunks_concat (chunks : list bytes) :
  forall pre,
    combineChunks (pre ++ newUint8Array (byteLength (concat chunks)))
                  (byteLength pre) chunks
    = Returns (pre ++ concat chunks).
Proof.
  induction chunks as [|c chunks IH]; intros pre; cbn [combineChunks concat].
  - change (newUint8Array (byteLength [])) with (@nil byte). reflexivity.
  - rewrite byteLength_app.
    rewrite newUint8Array_split by apply byteLength_nonneg.
    rewrite set_overwrites
      by (rewrite newUint8Array_length by apply byteLength_nonneg;
          unfold byteLength; lia).
    cbn [bind]. rewrite <- byteLength_app, !app_assoc. apply IH.
Qed.

(** The chunked loop ends and emits one ciphertext per sub-range; together
    they are sixteen bytes per sub-range longer than the data they
    cover. *)
Lemma encryptLoop_lengths (data : bytes) (chunkSize : Z) (fuel : nat) :
  forall (offset : Z) (acc : list bytes),
    0 < chunkSize -> 0 <= offset <= byteLength data ->
    byteLength data - offset < Z.of_nat fuel ->
    exists cts,
      encryptLoop CryptoKey gcmEncrypt key iv fuel data chunkSize offset acc
      = Some (acc ++ cts)
      /\ byteLength (concat cts)
         = byteLength data - offset + 16 * Z.of_nat (length cts)
      /\ (offset + chunkSize < byteLength data -> (2 <= length cts)%nat).
Proof.
  induction fuel as [|fuel IH]; intros offset acc Hc Ho Hf.
  - exfalso. lia.
  - cbn [encryptLoop]. destruct (offset <? byteLength data) eqn:E.
    + apply Z.ltb_lt in E.
      set (stop := Z.min (offset + chunkSize) (byteLength data)).
      assert (Hchunk : byteLength (gcmEncrypt key iv (subarray data offset stop))
                       = stop - offset + 16).
      { rewrite gcm_encrypt_length, subarray_length; unfold stop; lia. }
      destruct (Z.le_gt_cases (byteLength data) (offset + chunkSize))
        as [Hend|Hmore].
      * exists [gcmEncrypt key iv (subarray data offset stop)].
        split; [|split].
        -- destruct fuel; cbn [encryptLoop];
             destruct (offset + chunkSize <? byteLength data) eqn:E';
             (lia || reflexivity).
        -- cbn [concat length]. rewrite app_nil_r, Hchunk.
           unfold stop. lia.
        -- lia.
      * destruct (IH (offset + chunkSize)
                     (acc ++ [gcmEncrypt key iv (subarray data offset stop)]))
          as (cts & Hrun & Hlen & _); try lia.
        exists (gcmEncrypt key iv (subarray data offset stop) :: cts).
        split; [|split].
        -- rewrite Hrun, <- app_assoc. reflexivity.
        -- cbn [concat length]. rewrite byteLength_app, Hchunk, Hlen.
           unfold stop. lia.
        -- intros _. cbn [length].
           destruct cts as [|c cts]; [|cbn [length]; lia].
           cbn [concat length] in Hlen. change (byteLength []) with 0 in Hlen.
           lia.
    + apply Z.ltb_ge in E. exists []. rewrite app_nil_r.
      split; [reflexivity|]. split; [|lia].
      cbn [concat length]. change (byteLength []) with 0. lia.
Qed.

(** The envelope of the chunked branch: the IV, then the ciphertexts of
    the sub-ranges. *)
Lemma chunked_envelope (message : bytes) (chunkSize : Z) :
  0 < chunkSize < byteLength message ->
  exists cts,
    encryptAesGcmOptimized CryptoKey gcmEncrypt key iv message chunkSize
    = Some (Returns (iv ++ concat cts))
    /\ byteLength (concat cts)
       = byteLength message + 16 * Z.of_nat (length cts)
    /\ (2 <= length cts)%nat.
Proof.
  intros Hc. unfold encryptAesGcmOptimized.
  destruct (Z.gtb_spec (byteLength message) chunkSize) as [_|H]; [|lia].
  destruct (encryptLoop_lengths message chunkSize (S (length message)) 0 [])
    as (cts & Hrun & Hlen & Htwo);
    try (unfold byteLength; lia).
  exists cts. rewrite Hrun. cbn [app].
  rewrite totalLength_concat, Z.add_0_l.
  rewrite newUint8Array_split
    by (try apply byteLength_nonneg; rewrite iv_length; lia).
  pose proof (set_overwrites [] (newUint8Array (byteLength iv))
                (newUint8Array (byteLength (concat cts))) iv) as S0.
  cbn [app] in S0. change (byteLength []) with 0 in S0.
  rewrite S0
    by (rewrite newUint8Array_length by apply byteLength_nonneg;
        unfold byteLength; lia).
  cbn [bind]. rewrite combineChunks_concat.
  split; [reflexivity|]. split; [|apply Htwo; lia].
  rewrite Z.sub_0_r in Hlen. exact Hlen.
Qed.

(** The envelope of the direct branch: the IV, then one ciphertext. *)
Lemma direct_envelope (message : bytes) (chunkSize : Z) :
  byteLength message <= chunkSize ->
  encryptAesGcmOptimized CryptoKey gcmEncrypt key iv message chunkSize
  = Some (Returns (iv ++ gcmEncrypt key iv message)).
Proof.
  intros Hc. unfold encryptAesGcmOptimized.
  destruct (Z.gtb_spec (byteLength message) chunkSize) as [H|_]; [lia|].
  rewrite newUint8Array_split by apply byteLength_nonneg.
  pose proof (set_overwrites [] (newUint8Array (byteLength iv))
                (newUint8Array (byteLength (gcmEncrypt key iv message))) iv)
    as S0.
  cbn [app] in S0. change (byteLength []) with 0 in S0.
  rewrite S0
    by (rewrite newUint8Array_length by apply byteLength_nonneg;
        unfold byteLength; lia).
  cbn [bind].
  pose proof (set_overwrites iv
                (newUint8Array (byteLength (gcmEncrypt key iv message)))
                [] (gcmEncrypt key iv message)) as S1.
  rewrite !app_nil_r in S1. rewrite S1
    by (rewrite newUint8Array_length by apply byteLength_nonneg;
        unfold byteLength; lia).
  reflexivity.
Qed.

Lemma decrypt_envelope (body : bytes) (chunkSize : Z) :
  decryptAesGcmOptimized CryptoKey gcmDecrypt key (iv ++ body) chunkSize
  = gcmDecrypt key iv body.
Proof.
  unfold decryptAesGcmOptimized.
  rewrite <- iv_length, slice_prefix, slice_from_suffix.
  now destruct (byteLength body >? chunkSize).
Qed.

(** A message that is not above the threshold is recovered. *)
Lemma direct_roundtrip (message : bytes) (chunkSize decryptChunkSize : Z) :
  byteLength message <= chunkSize ->
  cipherRoundTrip CryptoKey gcmEncrypt gcmDecrypt key iv message
                  chunkSize decryptChunkSize
  = Some (Returns message).
Proof.
  intros Hc. unfold cipherRoundTrip. rewrite direct_envelope by exact Hc.
  cbn [bind]. rewrite decrypt_envelope. now rewrite gcm_decrypt_encrypt.
Qed.

(** C1 (the code departs from it): a message longer than the chunking
    threshold is encrypted as several ciphertexts after one IV, each with
    its own tag, so the body of the envelope is at least 32 bytes longer
    than the message, while the decryption treats the body as a single
    ciphertext: it cannot return the message.  This holds for every
    positive threshold, and so for [encryptAesGcm] and [decryptAesGcm] on
    every message above 16 MiB. *)
Theorem C1_chunked_envelope_not_recovered
        (message : bytes) (chunkSize decryptChunkSize : Z) :
  0 < chunkSize < byteLength message ->
  (exists envelope,
      encryptAesGcmOptimized CryptoKey gcmEncrypt key iv message chunkSize
      = Some (Returns envelope)
      /\ 12 + byteLength message + 32 <= byteLength envelope
      /\ decryptAesGcmOptimized CryptoKey gcmDecrypt key envelope
           decryptChunkSize <> Returns message)
  /\ cipherRoundTrip CryptoKey gcmEncrypt gcmDecrypt key iv message
       chunkSize decryptChunkSize <> Some (Returns message)
  /\ (chunkSize = defaultChunkSize ->
      exists envelope,
        encryptAesGcm CryptoKey gcmEncrypt key iv message
        = Some (Returns envelope)
        /\ decryptAesGcm CryptoKey gcmDecrypt key envelope
           <> Returns message).
Proof.
  intros Hc.
  destruct (chunked_envelope message chunkSize Hc) as (cts & Henc & Hlen & Htwo).
  assert (Hdec : forall d,
             decryptAesGcmOptimized CryptoKey gcmDecrypt key
               (iv ++ concat cts) d <> Returns message).
  { intros d. rewrite decrypt_envelope. intros Hret.
    apply gcm_decrypt_length in Hret. lia. }
  split; [|split].
  - exists (iv ++ concat cts). split; [exact Henc|]. split; [|apply Hdec].
    rewrite byteLength_app, iv_length, Hlen. lia.
  - unfold cipherRoundTrip. rewrite Henc. cbn [bind].
    intros H. injection H as H. now apply Hdec in H.
  - intros ->. exists (iv ++ concat cts). split; [exact Henc | apply Hdec].
Qed.

End WithCipher.
End EnvelopeFacts.

Section EnvelopeTheorems.
Import Js Crypto.

(** Three bytes under a threshold of two bytes, with the stand-in cipher: the round trip does not return them. *)
Lemma C1_witness_three_bytes_threshold_two :
  0 < 2 < byteLength [x61; x62; x63]
  /\ cipherRoundTrip byte sampleEncrypt sampleDecrypt x2a sampleIv
       [x61; x62; x63] 2 2 <> Some (Returns [x61; x62; x63]).
Proof.
  split; [split; reflexivity|].
  apply (C1_chunked_envelope_not_recovered byte sampleEncrypt sampleDecrypt
           sampleEncrypt_length sampleDecrypt_length x2a sampleIv eq_refl
           [x61; x62; x63] 2 2).
  split; reflexivity.
Defined.

End EnvelopeTheorems.

(** ** base64url *)

Section Base64Facts.
Import Js Base64.

Open Scope N_scope.

Lemma list_ind3 {A : Type} (P : list A -> Prop) :
  P [] -> (forall a, P [a]) -> (forall a b, P [a; b]) ->
  (forall a b c l, P l -> P (a :: b :: c :: l)) ->
  forall l, P l.
Proof.
  intros H0 H1 H2 H3.
  assert (H : forall l, P l /\ (forall a, P (a :: l))
                        /\ (forall a b, P (a :: b :: l))).
  { induction l as [|x l (IH0 & IH1 & IH2)].
    - repeat split; auto.
    - repeat split; auto. }
  intros l. apply H.
Qed.

(** A property checked on each number below [n] holds of all of them. *)
Lemma check_below (n : nat) (P : N -> bool) :
  forallb P (map N.of_nat (seq 0 n)) = true ->
  forall v, v < N.of_nat n -> P v = true.
Proof.
  intros Hall v Hv.
  apply (proj1 (forallb_forall _ _) Hall).
  apply in_map_iff. exists (N.to_nat v). split; [lia|].
  apply in_seq. lia.
Qed.

Lemma check_sextets (P : N -> bool) :
  forallb P (map N.of_nat (seq 0 64)) = true ->
  forall v, v < 64 -> P v = true.
Proof. exact (check_below 64 P). Qed.

Lemma base64Value_base64Char (v : N) :
  v < 64 -> base64Value (base64Char v) = Some v.
Proof.
  intros Hv.
  pose proof (check_sextets
                (fun v => match base64Value (base64Char v) with
                          | Some w => w =? v
                          | None => false
                          end) eq_refl v Hv) as H.
  cbv beta in H. destruct (base64Value (base64Char v)); [|discriminate].
  apply N.eqb_eq in H. now subst.
Qed.

(** A character of the alphabet is no [=], no whitespace, and is restored
    by the replacements of [decode] after those of [encode]. *)
Lemma base64Char_plain (v : N) :
  v < 64 ->
  base64Char v <> equalsSign
  /\ urlSafe (base64Char v) <> equalsSign
  /\ isAsciiWhitespace (base64Char v) = false
  /\ urlUnsafe (urlSafe (base64Char v)) = base64Char v.
Proof.
  intros Hv.
  pose proof (check_sextets
                (fun v => negb (base64Char v =? equalsSign)
                          && negb (urlSafe (base64Char v) =? equalsSign)
                          && negb (isAsciiWhitespace (base64Char v))
                          && (urlUnsafe (urlSafe (base64Char v))
                              =? base64Char v))
                eq_refl v Hv) as H.
  cbv beta in H.
  apply andb_prop in H as [H H4]. apply andb_prop in H as [H H3].
  apply andb_prop in H as [H1 H2].
  apply negb_true_iff in H1, H2, H3.
  apply N.eqb_neq in H1, H2. apply N.eqb_eq in H4. auto.
Qed.

Lemma sextets_bounded (l : list N) :
  Forall (fun b => b < 256) l -> Forall (fun v => v < 64) (sextets l).
Proof.
  induction l as [| a | a b | a b c l IH] using list_ind3; intros H;
    cbn [sextets].
  - constructor.
  - inversion H; subst. repeat constructor; div_lia.
  - inversion H as [|? ? Ha H']; subst. inversion H'; subst.
    repeat constructor; div_lia.
  - inversion H as [|? ? Ha H']; subst.
    inversion H' as [|? ? Hb H'']; subst.
    inversion H'' as [|? ? Hc H''']; subst.
    repeat (constructor; [div_lia|]). now apply IH.
Qed.

Lemma unsextets_sextets (l : list N) :
  Forall (fun b => b < 256) l -> unsextets (sextets l) = Some l.
Proof.
  induction l as [| a | a b | a b c l IH] using list_ind3; intros H;
    cbn [sextets unsextets].
  - reflexivity.
  - inversion H; subst. do 2 f_equal. div_lia.
  - inversion H as [|? ? Ha H']; subst. inversion H'; subst.
    do 2 f_equal; [div_lia|]. f_equal. div_lia.
  - inversion H as [|? ? Ha H']; subst.
    inversion H' as [|? ? Hb H'']; subst.
    inversion H'' as [|? ? Hc H''']; subst.
    rewrite (IH H''').
    do 2 f_equal; [div_lia|]. f_equal; [div_lia|]. f_equal. div_lia.
Qed.

Lemma traverse_map {A B : Type} (f : B -> option A) (g : A -> B) (l : list A) :
  Forall (fun x => f (g x) = Some x) l -> traverse f (map g l) = Some l.
Proof.
  induction 1 as [|x l Hx _ IH]; cbn [map traverse].
  - reflexivity.
  - now rewrite Hx, IH.
Qed.

Lemma padLoop_group (fuel : nat) (x1 x2 x3 x4 : N) :
  forall s, padLoop fuel (x1 :: x2 :: x3 :: x4 :: s)
            = x1 :: x2 :: x3 :: x4 :: padLoop fuel s.
Proof.
  induction fuel as [|fuel IH]; intros s; cbn [padLoop];
    change (length (x1 :: x2 :: x3 :: x4 :: s)) with (4 + length s)%nat;
    replace ((4 + length s) mod 4)%nat with (length s mod 4)%nat
      by (rewrite Nat.add_comm;
          exact (eq_sym (Nat.Div0.mod_add (length s) 1 4)));
    destruct (length s mod 4 =? 0)%nat; try reflexivity.
  cbn [app]. apply IH.
Qed.

Lemma padding_group (a b c : N) (l : list N) :
  padding (a :: b :: c :: l) = padding l.
Proof.
  unfold padding.
  change (length (a :: b :: c :: l)) with (3 + length l)%nat.
  replace ((3 + length l) mod 3)%nat with (length l mod 3)%nat
    by (rewrite Nat.add_comm;
        exact (eq_sym (Nat.Div0.mod_add (length l) 1 3))).
  reflexivity.
Qed.

(** The padding loop of [decode] restores the [=] that [encode]
    removed. *)
Lemma padLoop_restores (f : N -> N) (l : list N) :
  padLoop 3 (map f (sextets l)) = map f (sextets l) ++ padding l.
Proof.
  induction l as [| a | a b | a b c l IH] using list_ind3.
  - reflexivity.
  - reflexivity.
  - reflexivity.
  - cbn [sextets map]. rewrite padLoop_group, IH, padding_group.
    reflexivity.
Qed.

Lemma padded_length (f : N -> N) (l : list N) :
  (length (map f (sextets l) ++ padding l) mod 4 = 0)%nat.
Proof.
  induction l as [| a | a b | a b c l IH] using list_ind3.
  - reflexivity.
  - reflexivity.
  - reflexivity.
  - cbn [sextets map]. rewrite padding_group. cbn [app].
    change (length (?x1 :: ?x2 :: ?x3 :: ?x4 :: ?s))
      with (4 + length s)%nat.
    cbn [length].
    change (S (S (S (S ?n)))) with (4 + n)%nat.
    rewrite Nat.add_comm.
    rewrite (Nat.Div0.mod_add _ 1 4). exact IH.
Qed.

Lemma padding_cases (l : list N) :
  padding l = [] \/ padding l = [equalsSign]
  \/ padding l = [equalsSign; equalsSign].
Proof.
  unfold padding. destruct (length l mod 3)%nat as [|[|n]]; auto.
Qed.

Lemma stripPadding_padded (body pad : jsstring) :
  (length (body ++ pad) mod 4 = 0)%nat ->
  Forall (fun c => c <> equalsSign) body ->
  pad = [] \/ pad = [equalsSign] \/ pad = [equalsSign; equalsSign] ->
  stripPadding (body ++ pad) = body.
Proof.
  intros Hlen Hbody Hpad. unfold stripPadding. rewrite Hlen. cbn [Nat.eqb].
  assert (Hlast : forall x r, rev body = x :: r -> (x =? equalsSign) = false).
  { intros x r Hr. apply N.eqb_neq.
    apply (proj1 (Forall_forall _ _) Hbody).
    apply in_rev. rewrite Hr. now left. }
  rewrite rev_app_distr.
  destruct Hpad as [-> | [-> | ->]]; cbn [rev app].
  - rewrite app_nil_r.
    destruct (rev body) as [|x [|y r]] eqn:Hr; try reflexivity;
      now rewrite (Hlast _ _ eq_refl).
  - destruct (rev body) as [|x r] eqn:Hr.
    + cbn. apply (f_equal (@rev N)) in Hr. rewrite rev_involutive in Hr.
      now rewrite Hr.
    + rewrite N.eqb_refl, (Hlast _ _ eq_refl).
      change (rev r ++ [x]) with (rev (x :: r)).
      now rewrite <- Hr, rev_involutive.
  - rewrite !N.eqb_refl. apply rev_involutive.
Qed.

Lemma filter_all {A : Type} (p : A -> bool) (l : list A) :
  Forall (fun x => p x = true) l -> filter p l = l.
Proof.
  induction 1 as [|x l Hx _ IH]; cbn [filter]; [reflexivity|].
  now rewrite Hx, IH.
Qed.

Lemma latin1_bytes (s : jsstring) :
  forallb (fun c => c <=? 255) s = true -> Forall (fun b => b < 256) s.
Proof.
  intros H. apply Forall_forall. intros c Hc.
  apply (proj1 (forallb_forall _ _) H) in Hc. apply N.leb_le in Hc. lia.
Qed.

(** [atob] inverts [btoa]. *)
Lemma atob_btoa (s base64 : jsstring) :
  btoa s = Returns base64 -> atob base64 = Returns s.
Proof.
  unfold btoa. destruct (forallb _ s) eqn:Hs; [|discriminate].
  intros H. injection H as <-. apply latin1_bytes in Hs.
  pose proof (sextets_bounded s Hs) as Hv.
  assert (Hbody : Forall (fun c => c <> equalsSign)
                         (map base64Char (sextets s))).
  { apply Forall_map. eapply Forall_impl; [|exact Hv].
    intros v Hlt. now apply base64Char_plain. }
  unfold atob. rewrite filter_all.
  - rewrite stripPadding_padded;
      [| apply padded_length | exact Hbody | apply padding_cases].
    rewrite traverse_map
      by (eapply Forall_impl; [|exact Hv];
          intros v Hlt; now apply base64Value_base64Char).
    now rewrite unsextets_sextets.
  - apply Forall_app. split.
    + apply Forall_map. eapply Forall_impl; [|exact Hv].
      intros v Hlt. cbv beta.
      now rewrite (proj1 (proj2 (proj2 (base64Char_plain v Hlt)))).
    + destruct (padding_cases s) as [-> | [-> | ->]];
        repeat constructor.
Qed.

Lemma dropLeading_run (c : N) (run rest : jsstring) :
  Forall (fun x => x = c) run ->
  (forall x r, rest = x :: r -> x <> c) ->
  dropLeading c (run ++ rest) = rest.
Proof.
  intros Hrun Hrest. induction Hrun as [|x run -> _ IH]; cbn [app].
  - destruct rest as [|x r]; [reflexivity|]. cbn [dropLeading].
    destruct (N.eqb_spec x c) as [E|_]; [|reflexivity].
    now destruct (Hrest x r eq_refl).
  - cbn [dropLeading]. now rewrite N.eqb_refl.
Qed.

Lemma replaceAll_urlSafe (s : jsstring) :
  replaceAll 47 95 (replaceAll 43 45 s) = map urlSafe s.
Proof. unfold replaceAll. rewrite map_map. reflexivity. Qed.

Lemma replaceAll_urlUnsafe (s : jsstring) :
  replaceAll 95 47 (replaceAll 45 43 s) = map urlUnsafe s.
Proof. unfold replaceAll. rewrite map_map. reflexivity. Qed.

(** [base64url.decode] inverts [base64url.encode]. *)
Lemma decode_encode (s code : jsstring) :
  encode s = Returns code -> decode code = Returns s.
Proof.
  unfold encode. destruct (btoa s) as [base64|e] eqn:Hb; [|discriminate].
  cbn [bind]. intros H. injection H as <-.
  pose proof Hb as Hbtoa. unfold btoa in Hb.
  destruct (forallb _ s) eqn:Hs; [|discriminate]. injection Hb as Hb.
  apply latin1_bytes in Hs. pose proof (sextets_bounded s Hs) as Hv.
  rewrite replaceAll_urlSafe, <- Hb, map_app, map_map.
  assert (Hpad : map urlSafe (padding s) = padding s)
    by (destruct (padding_cases s) as [-> | [-> | ->]]; reflexivity).
  rewrite Hpad.
  assert (Hstrip : removeTrailingEquals
                     (map (fun v => urlSafe (base64Char v)) (sextets s)
                      ++ padding s)
                   = map (fun v => urlSafe (base64Char v)) (sextets s)).
  { unfold removeTrailingEquals. rewrite rev_app_distr.
    rewrite dropLeading_run; [apply rev_involutive | |].
    - apply Forall_rev.
      destruct (padding_cases s) as [-> | [-> | ->]]; repeat constructor.
    - intros x r Hr.
      assert (Hin : In x (map (fun v => urlSafe (base64Char v)) (sextets s)))
        by (apply in_rev; rewrite Hr; now left).
      apply in_map_iff in Hin as (v & <- & Hin).
      apply (proj1 (Forall_forall _ _) Hv) in Hin.
      now apply base64Char_plain. }
  rewrite Hstrip. unfold decode.
  rewrite replaceAll_urlUnsafe, map_map.
  assert (Hback : map (fun v => urlUnsafe (urlSafe (base64Char v))) (sextets s)
                  = map base64Char (sextets s)).
  { apply map_ext_in. intros v Hin.
    apply (proj1 (Forall_forall _ _) Hv) in Hin.
    now apply base64Char_plain. }
  rewrite Hback, padLoop_restores, Hb.
  now apply atob_btoa.
Qed.

End Base64Facts.

(** ** JSON texts of string members *)

Section JsonFacts.
Import Js Json.

Open Scope N_scope.

Lemma list_ind2 {A : Type} (P : list A -> Prop) :
  P [] -> (forall a, P [a]) ->
  (forall a b l, P l -> P (b :: l) -> P (a :: b :: l)) ->
  forall l, P l.
Proof.
  intros H0 H1 H2.
  assert (H : forall l, P l /\ (forall a, P (a :: l))).
  { induction l as [|x l [IH0 IH1]]; split; auto. }
  intros l. apply H.
Qed.

Lemma hexValue_hexDigit (v : N) : v < 16 -> hexValue (hexDigit v) = Some v.
Proof.
  intros Hv.
  pose proof (check_below 16
                (fun v => match hexValue (hexDigit v) with
                          | Some w => w =? v
                          | None => false
                          end) eq_refl v Hv) as H.
  cbv beta in H. destruct (hexValue (hexDigit v)); [|discriminate].
  apply N.eqb_eq in H. now subst.
Qed.

Lemma parseChars_verbatim (c : N) (rest str tail : jsstring) :
  32 <= c -> c <> quotationMark -> c <> reverseSolidus ->
  parseChars rest = Some (str, tail) ->
  parseChars (c :: rest) = Some (c :: str, tail).
Proof.
  intros H32 Hq Hb Hrest. cbn [parseChars].
  destruct (N.eqb_spec c quotationMark) as [E|_]; [contradiction|].
  destruct (N.eqb_spec c reverseSolidus) as [E|_]; [contradiction|].
  destruct (N.ltb_spec c 32) as [E|_]; [lia|].
  now rewrite Hrest.
Qed.

Lemma parseChars_simpleEscape (e ch : N) (rest str tail : jsstring) :
  e <> 117 -> simpleEscape e = Some ch ->
  parseChars rest = Some (str, tail) ->
  parseChars (reverseSolidus :: e :: rest) = Some (ch :: str, tail).
Proof.
  intros Hu He Hrest. cbn [parseChars].
  change (reverseSolidus =? quotationMark) with false.
  change (reverseSolidus =? reverseSolidus) with true. cbv iota.
  destruct (N.eqb_spec e 117) as [E|_]; [contradiction|].
  now rewrite He, Hrest.
Qed.

Lemma parseChars_unicodeEscape (c : N) (rest str tail : jsstring) :
  c < 65536 ->
  parseChars rest = Some (str, tail) ->
  parseChars (unicodeEscape c ++ rest) = Some (c :: str, tail).
Proof.
  intros Hc Hrest. unfold unicodeEscape. cbn [app parseChars].
  change (reverseSolidus =? quotationMark) with false.
  change (reverseSolidus =? reverseSolidus) with true.
  change (117 =? 117) with true. cbv iota.
  rewrite !hexValue_hexDigit by div_lia. rewrite Hrest.
  do 2 f_equal. f_equal. div_lia.
Qed.

Lemma parseChars_quoteUnit (c : N) (rest str tail : jsstring) :
  parseChars rest = Some (str, tail) ->
  parseChars (quoteUnit c ++ rest) = Some (c :: str, tail).
Proof.
  intros Hrest. unfold quoteUnit.
  destruct (N.eqb_spec c 8) as [->|H8];
    [now apply parseChars_simpleEscape|].
  destruct (N.eqb_spec c 9) as [->|H9];
    [now apply parseChars_simpleEscape|].
  destruct (N.eqb_spec c 10) as [->|H10];
    [now apply parseChars_simpleEscape|].
  destruct (N.eqb_spec c 12) as [->|H12];
    [now apply parseChars_simpleEscape|].
  destruct (N.eqb_spec c 13) as [->|H13];
    [now apply parseChars_simpleEscape|].
  destruct (N.eqb_spec c quotationMark) as [->|Hq];
    [now apply parseChars_simpleEscape|].
  destruct (N.eqb_spec c reverseSolidus) as [->|Hb];
    [now apply parseChars_simpleEscape|].
  destruct ((c <? 32) || isLeadingSurrogate c || isTrailingSurrogate c)
    eqn:Hesc.
  - apply parseChars_unicodeEscape; [|exact Hrest].
    unfold isLeadingSurrogate, isTrailingSurrogate in Hesc.
    apply orb_prop in Hesc as [Hesc|Hesc];
      [apply orb_prop in Hesc as [Hesc|Hesc]|].
    + apply N.ltb_lt in Hesc. lia.
    + apply andb_prop in Hesc as [_ Hesc]. apply N.leb_le in Hesc. lia.
    + apply andb_prop in Hesc as [_ Hesc]. apply N.leb_le in Hesc. lia.
  - apply orb_false_elim in Hesc as [Hesc _].
    apply orb_false_elim in Hesc as [Hesc _]. apply N.ltb_ge in Hesc.
    cbn [app]. now apply parseChars_verbatim.
Qed.

(** A quoted string is read back, whatever its code units. *)
Lemma parseChars_quoteUnits (s : jsstring) :
  forall rest,
    parseChars (quoteUnits s ++ quotationMark :: rest) = Some (s, rest).
Proof.
  induction s as [| c | c d s IHs IHd] using list_ind2; intros rest.
  - reflexivity.
  - cbn [quoteUnits]. now apply parseChars_quoteUnit.
  - cbn [quoteUnits].
    destruct (isLeadingSurrogate c && isTrailingSurrogate d) eqn:Hpair.
    + apply andb_prop in Hpair as [Hc Hd].
      unfold isLeadingSurrogate in Hc. unfold isTrailingSurrogate in Hd.
      apply andb_prop in Hc as [Hc _]. apply andb_prop in Hd as [Hd _].
      apply N.leb_le in Hc, Hd. cbn [app].
      apply parseChars_verbatim; try (unfold quotationMark, reverseSolidus; lia).
      apply parseChars_verbatim; try (unfold quotationMark, reverseSolidus; lia).
      apply IHs.
    + rewrite <- app_assoc. apply parseChars_quoteUnit. apply IHd.
Qed.

Lemma parseString_quoteJSONString (s rest : jsstring) :
  parseString (quoteJSONString s ++ rest) = Some (s, rest).
Proof.
  unfold quoteJSONString. cbn [app parseString].
  rewrite N.eqb_refl, <- app_assoc. apply parseChars_quoteUnits.
Qed.

Lemma skipWhitespace_quoted (s rest : jsstring) :
  skipWhitespace (quoteJSONString s ++ rest) = quoteJSONString s ++ rest.
Proof. reflexivity. Qed.

Lemma parseMembers_membersText (ms : list (jsstring * jsstring)) :
  forall m fuel acc tail,
    (length (m :: ms) <= fuel)%nat ->
    parseMembers fuel (membersText (m :: ms) ++ 125 :: tail) acc
    = Some (acc ++ m :: ms, tail).
Proof.
  induction ms as [|m' ms IH]; intros [k v] fuel acc tail Hfuel;
    (destruct fuel as [|fuel]; [cbn [length] in Hfuel; lia|]).
  - cbn [membersText parseMembers]. unfold memberText. cbn [fst snd].
    rewrite <- app_assoc, skipWhitespace_quoted, parseString_quoteJSONString.
    cbn [app skipWhitespace isJsonWhitespace N.eqb Pos.eqb orb].
    rewrite skipWhitespace_quoted, parseString_quoteJSONString.
    reflexivity.
  - change (membersText ((k, v) :: m' :: ms))
      with (memberText (k, v) ++ 44 :: membersText (m' :: ms)).
    cbn [parseMembers]. unfold memberText at 1. cbn [fst snd].
    rewrite <- !app_assoc, skipWhitespace_quoted, parseString_quoteJSONString.
    cbn [app skipWhitespace isJsonWhitespace N.eqb Pos.eqb orb].
    change (58 =? 58) with true. cbv iota.
    rewrite skipWhitespace_quoted, parseString_quoteJSONString.
    cbn [app skipWhitespace isJsonWhitespace N.eqb Pos.eqb orb].
    rewrite IH by (cbn [length] in *; lia).
    now rewrite <- app_assoc.
Qed.

Lemma membersText_length (ms : list (jsstring * jsstring)) :
  (length ms <= length (membersText ms))%nat.
Proof.
  induction ms as [|m [|m' ms] IH].
  - cbn. lia.
  - cbn [membersText]. unfold memberText, quoteJSONString.
    cbn [app length]. lia.
  - change (membersText (m :: m' :: ms))
      with (memberText m ++ 44 :: membersText (m' :: ms)).
    rewrite length_app. cbn [length] in *. lia.
Qed.

(** [JSON.parse] inverts [JSON.stringify] on objects of string members. *)
Lemma parse_stringify (ms : list (jsstring * jsstring)) :
  parse (stringify ms) = Some ms.
Proof.
  destruct ms as [|m ms]; [reflexivity|].
  unfold parse, stringify.
  cbn [skipWhitespace isJsonWhitespace N.eqb Pos.eqb orb].
  change (123 =? 123) with true. cbv iota.
  assert (Hhead : exists body,
             membersText (m :: ms) ++ [125] = quotationMark :: body).
  { destruct m as [k v]. destruct ms; eexists; reflexivity. }
  destruct Hhead as [body Hbody]. rewrite Hbody.
  cbn [skipWhitespace isJsonWhitespace quotationMark N.eqb Pos.eqb orb].
  change (34 =? 125) with false. cbv iota.
  change 34 with quotationMark. rewrite <- Hbody.
  rewrite parseMembers_membersText.
  - reflexivity.
  - pose proof (membersText_length (m :: ms)).
    cbn [length] in *. rewrite length_app. cbn [length]. lia.
Qed.

End JsonFacts.

(** ** Decimal numbers *)

Section NumberFacts.
Import Js UniqueCode.

Lemma digitValue_decimal (d : N) :
  (d < 10)%N -> digitValue 10 (48 + d) = Some d.
Proof.
  intros Hd. unfold digitValue.
  destruct (N.leb_spec 48 (48 + d)) as [_|H]; [|lia].
  destruct (N.leb_spec (48 + d) 57) as [_|H]; [|lia].
  cbn [andb]. replace (48 + d - 48)%N with d by lia.
  destruct (N.ltb_spec d 10) as [_|H]; [reflexivity | lia].
Qed.

Lemma digitsOf_step (fuel : nat) (n : N) (acc : jsstring) :
  digitsOf (S fuel) n acc
  = if (n <? 10)%N then (48 + n mod 10)%N :: acc
    else digitsOf fuel (n / 10)%N ((48 + n mod 10)%N :: acc).
Proof. reflexivity. Qed.

(** The digits written for [n] are read back as [n], after any digits
    read before them. *)
Lemma digitsOf_read (fuel : nat) :
  forall (n : N) (acc : jsstring),
    (n < 2 ^ N.of_nat (S fuel))%N ->
    exists ds,
      digitsOf (S fuel) n acc = ds ++ acc
      /\ ds <> []
      /\ Forall isDecimalDigit ds
      /\ (forall rest, takeDigits 10 (ds ++ rest) None
                       = takeDigits 10 rest (Some n))
      /\ (exists weight, forall a rest,
             takeDigits 10 (ds ++ rest) (Some a)
             = takeDigits 10 rest (Some (a * weight + n)%N)).
Proof.
  induction fuel as [|fuel IH]; intros n acc Hn;
    rewrite digitsOf_step; destruct (N.ltb_spec n 10) as [Hlt|Hge];
    try (exists [(48 + n mod 10)%N];
         rewrite (N.mod_small n 10) by exact Hlt;
         split; [reflexivity|]; split; [discriminate|];
         split; [constructor; [unfold isDecimalDigit; lia | constructor]|];
         split;
         [ intros rest; cbn [app takeDigits];
           now rewrite digitValue_decimal by exact Hlt
         | exists 10%N; intros a rest; cbn [app takeDigits];
           now rewrite digitValue_decimal by exact Hlt ]).
  - exfalso. cbn in Hn. lia.
  - assert (Hq : (n / 10 < 2 ^ N.of_nat (S fuel))%N).
    { rewrite (Nat2N.inj_succ (S fuel)), N.pow_succ_r' in Hn.
      set (X := (2 ^ N.of_nat (S fuel))%N) in *. clearbody X. div_lia. }
    destruct (IH (n / 10)%N ((48 + n mod 10)%N :: acc) Hq)
      as (ds & Hds & Hne & Hdig & Hnone & weight & Hsome).
    assert (Hd : (n mod 10 < 10)%N) by (apply N.mod_lt; lia).
    exists (ds ++ [(48 + n mod 10)%N]).
    split; [now rewrite Hds, <- app_assoc|].
    split; [now destruct ds|].
    split.
    { apply Forall_app. split; [exact Hdig|].
      constructor; [unfold isDecimalDigit; div_lia | constructor]. }
    split.
    + intros rest. rewrite <- app_assoc, Hnone. cbn [app takeDigits].
      rewrite digitValue_decimal by exact Hd. do 2 f_equal. div_lia.
    + exists (weight * 10)%N. intros a rest.
      rewrite <- app_assoc, Hsome. cbn [app takeDigits].
      rewrite digitValue_decimal by exact Hd. do 2 f_equal. div_lia.
Qed.

Lemma decimal_read (n : N) :
  decimal n <> []
  /\ Forall isDecimalDigit (decimal n)
  /\ takeDigits 10 (decimal n) None = Some n.
Proof.
  unfold decimal.
  destruct (digitsOf_read (N.to_nat (N.log2 n)) n [])
    as (ds & Hds & Hne & Hdig & Hnone & _).
  - rewrite Nat2N.inj_succ, N2Nat.id.
    destruct (N.eq_dec n 0) as [->|Hpos]; [reflexivity|].
    apply N.log2_spec. lia.
  - rewrite Hds, app_nil_r. repeat split; try assumption.
    specialize (Hnone []). now rewrite app_nil_r in Hnone.
Qed.

Lemma digit_plain (c : N) :
  isDecimalDigit c ->
  isStrWhiteSpaceChar c = false
  /\ (c =? 45)%N = false /\ (c =? 43)%N = false
  /\ (c =? 120)%N = false /\ (c =? 88)%N = false
  /\ ((48 <=? c) && (c <=? 57))%N = true
  /\ (c <=? 255)%N = true.
Proof.
  intros [Hlo Hhi].
  pose proof (check_below 10
                (fun d => let c := (48 + d)%N in
                          negb (isStrWhiteSpaceChar c)
                          && negb (c =? 45)%N && negb (c =? 43)%N
                          && negb (c =? 120)%N && negb (c =? 88)%N
                          && ((48 <=? c) && (c <=? 57))%N
                          && (c <=? 255)%N)
                eq_refl (c - 48)%N ltac:(lia)) as H.
  cbv beta zeta in H. replace (48 + (c - 48))%N with c in H by lia.
  repeat (apply andb_prop in H as [H ?]).
  repeat match goal with
         | Hn : negb _ = true |- _ => apply negb_true_iff in Hn
         end.
  repeat (split; [assumption|]). assumption.
Qed.

Lemma trimStart_plain (c : N) (rest : jsstring) :
  isStrWhiteSpaceChar c = false -> trimStart (c :: rest) = c :: rest.
Proof. intros H. cbn [trimStart]. now rewrite H. Qed.

Lemma trim_plain (s : jsstring) :
  Forall (fun c => isStrWhiteSpaceChar c = false) s -> trim s = s.
Proof.
  intros H. unfold trim.
  assert (Hstart : forall t, Forall (fun c => isStrWhiteSpaceChar c = false) t ->
                             trimStart t = t).
  { intros [|c t] Ht; [reflexivity|]. inversion Ht; subst.
    now apply trimStart_plain. }
  rewrite (Hstart s H), (Hstart (rev s)) by now apply Forall_rev.
  apply rev_involutive.
Qed.

(** The digits of a number are read as that number by [parseInt] and by
    the conversion of [>]. *)
Lemma digits_parse (sign : Z) (prefix : jsstring) (n : N) :
  (prefix = [] /\ sign = 1) \/ (prefix = [45%N] /\ sign = -1) ->
  parseInt (prefix ++ decimal n) = Num (sign * Z.of_N n)
  /\ StringToNumber (prefix ++ decimal n) = Some (Num (sign * Z.of_N n))
  /\ prefix ++ decimal n <> []
  /\ forallb (fun c => (c <=? 255)%N) (prefix ++ decimal n) = true.
Proof.
  intros Hprefix.
  destruct (decimal_read n) as (Hne & Hdig & Hread).
  destruct (decimal n) as [|d ds] eqn:Hdec; [now contradiction Hne|].
  assert (Hd : isDecimalDigit d) by now inversion Hdig.
  destruct (digit_plain d Hd) as (Hws & H45 & H43 & _ & _ & _ & _).
  assert (Hradix : splitRadix (d :: ds) = (10%N, d :: ds)).
  { destruct ds as [|x ds]; [reflexivity|].
    assert (Hx : isDecimalDigit x)
      by (inversion Hdig as [|? ? _ Hds]; now inversion Hds).
    destruct (digit_plain x Hx) as (_ & _ & _ & H120 & H88 & _ & _).
    unfold splitRadix. now rewrite H120, H88, andb_false_r. }
  assert (Hsign : splitSign (d :: ds) = (1, d :: ds))
    by (unfold splitSign; now rewrite H45, H43).
  assert (Hminus : splitSign (45%N :: d :: ds) = (-1, d :: ds))
    by reflexivity.
  assert (Hall : forallb (fun c => ((48 <=? c) && (c <=? 57))%N) (d :: ds)
                 = true).
  { apply forallb_forall. intros c Hc.
    apply (proj1 (Forall_forall _ _) Hdig) in Hc.
    now apply digit_plain. }
  assert (Hlatin : forallb (fun c => (c <=? 255)%N) (d :: ds) = true).
  { apply forallb_forall. intros c Hc.
    apply (proj1 (Forall_forall _ _) Hdig) in Hc.
    now apply digit_plain. }
  assert (Hspace : Forall (fun c => isStrWhiteSpaceChar c = false) (d :: ds)).
  { eapply Forall_impl; [|exact Hdig]. intros c Hc. now apply digit_plain. }
  destruct Hprefix as [[-> ->] | [-> ->]]; cbn [app].
  - repeat split.
    + unfold parseInt. rewrite trimStart_plain by exact Hws.
      rewrite Hsign, Hradix, Hread. reflexivity.
    + unfold StringToNumber. rewrite trim_plain by exact Hspace.
      rewrite Hsign, Hall, Hread. reflexivity.
    + discriminate.
    + exact Hlatin.
  - repeat split.
    + unfold parseInt. rewrite trimStart_plain by reflexivity.
      rewrite Hminus, Hradix, Hread. reflexivity.
    + unfold StringToNumber.
      rewrite trim_plain by (constructor; [reflexivity | exact Hspace]).
      rewrite Hminus, Hall, Hread. reflexivity.
    + discriminate.
    + change (forallb (fun c => (c <=? 255)%N) (45%N :: d :: ds))
        with (true && forallb (fun c => (c <=? 255)%N) (d :: ds)).
      now rewrite Hlatin.
Qed.

Lemma Number_toString_read (n : Z) :
  parseInt (Number_toString n) = Num n
  /\ StringToNumber (Number_toString n) = Some (Num n)
  /\ Number_toString n <> []
  /\ forallb (fun c => (c <=? 255)%N) (Number_toString n) = true.
Proof.
  destruct n as [|p|p]; cbn [Number_toString].
  - repeat split; discriminate.
  - pose proof (digits_parse 1 [] (Npos p) (or_introl (conj eq_refl eq_refl)))
      as H.
    cbn [app] in H. exact H.
  - pose proof (digits_parse (-1) [45%N] (Npos p)
                  (or_intror (conj eq_refl eq_refl))) as H.
    cbn [app] in H. exact H.
Qed.

End NumberFacts.

(** ** The rendezvous code *)

Section UniqueCodeFacts.
Import Js UniqueCode.

Lemma chunkText (options : Options) :
  match optChunkSize options with
  | Some n => if n =? 0 then lit "67108864" else Number_toString n
  | None => lit "67108864"
  end = Number_toString (effectiveChunkSize options).
Proof.
  unfold effectiveChunkSize. destruct (optChunkSize options) as [n|];
    [destruct (n =? 0)|]; reflexivity.
Qed.

Lemma truthy_orEmpty (value : option jsstring) :
  truthy (Some (orEmpty value)) = truthy value.
Proof. destruct value as [[|c s]|]; reflexivity. Qed.

(** The fields that [parseUniqueCode] reads from the object that
    [generateUniqueCode] writes. *)
Lemma parseData_codeData (sdp : jsstring) (options : Options) :
  parseData (codeData sdp options)
  = Parsed {| UniqueCode.sdp := Some sdp;
              iceServer := truthy (optIceServer options);
              chunkSize := Num (effectiveChunkSize options);
              publicKey := truthy (optPublicKey options);
              highPerformance :=
                requestedHighPerformance options
                || (effectiveChunkSize options >? 16777216) |}.
Proof.
  unfold parseData, codeData. rewrite chunkText.
  destruct (Number_toString_read (effectiveChunkSize options))
    as (Hint & Hnum & Hne & _).
  set (c := Number_toString (effectiveChunkSize options)) in *.
  change (Json.getProperty _ (lit "c")) with (Some c).
  change (Json.getProperty _ (lit "s")) with (Some sdp).
  change (Json.getProperty _ (lit "i"))
    with (Some (orEmpty (optIceServer options))).
  change (Json.getProperty _ (lit "p"))
    with (Some (orEmpty (optPublicKey options))).
  rewrite !truthy_orEmpty.
  assert (Hc : truthy (Some c) = Some c) by (destruct c; [contradiction|reflexivity]).
  rewrite Hc, Hint. unfold greaterThan. rewrite Hnum.
  unfold requestedHighPerformance.
  destruct (optHighPerformance options) as [[|]|]; reflexivity.
Qed.

(** Every code that [generateUniqueCode] returns is parsed, and the
    parsed fields are those of [parseData_codeData]. *)
Lemma parse_generate (sdp : jsstring) (options : Options) (code : jsstring) :
  generateUniqueCode sdp options = Returns code ->
  parseUniqueCode code = parseData (codeData sdp options).
Proof.
  unfold generateUniqueCode, parseUniqueCode. intros Hgen.
  rewrite (decode_encode _ _ Hgen), parse_stringify. reflexivity.
Qed.

Lemma hexDigit_latin1 (v : N) : (v < 16)%N -> (Json.hexDigit v <= 255)%N.
Proof.
  intros Hv. unfold Json.hexDigit.
  destruct (N.ltb_spec v 10); lia.
Qed.

Lemma quoteUnit_latin1 (c : N) :
  (c <= 255)%N -> latin1 (Json.quoteUnit c).
Proof.
  intros Hc. unfold Json.quoteUnit, latin1.
  repeat match goal with
         | |- context [(c =? ?k)%N] => destruct (c =? k)%N
         end;
    try (repeat constructor; unfold Json.reverseSolidus, Json.quotationMark; lia).
  destruct (_ || _ || _).
  - unfold Json.unicodeEscape, Json.reverseSolidus.
    repeat (constructor; [try lia; apply hexDigit_latin1; div_lia|]).
    constructor.
  - repeat constructor. exact Hc.
Qed.

Lemma quoteUnits_latin1 (s : jsstring) :
  latin1 s -> latin1 (Json.quoteUnits s).
Proof.
  unfold latin1. induction 1 as [|c s Hc Hs IH]; [constructor|].
  assert (Hsingle : Json.quoteUnits (c :: s)
                    = Json.quoteUnit c ++ Json.quoteUnits s).
  { destruct s as [|d s']; cbn [Json.quoteUnits];
      [now rewrite app_nil_r|].
    unfold Json.isLeadingSurrogate.
    destruct (N.leb_spec 55296 c); [lia | reflexivity]. }
  rewrite Hsingle. apply Forall_app. split; [|exact IH].
  now apply quoteUnit_latin1.
Qed.

Lemma quoteJSONString_latin1 (s : jsstring) :
  latin1 s -> latin1 (Json.quoteJSONString s).
Proof.
  intros Hs. unfold Json.quoteJSONString, latin1.
  constructor; [unfold Json.quotationMark; lia|].
  apply Forall_app. split; [now apply quoteUnits_latin1|].
  repeat constructor. unfold Json.quotationMark. lia.
Qed.

Lemma membersText_latin1 (ms : list (jsstring * jsstring)) :
  Forall (fun m => latin1 (fst m) /\ latin1 (snd m)) ms ->
  latin1 (Json.membersText ms).
Proof.
  induction 1 as [|m ms [Hk Hv] Hms IH]; [constructor|].
  assert (Hm : latin1 (Json.memberText m)).
  { unfold Json.memberText, latin1. apply Forall_app. split.
    - now apply quoteJSONString_latin1.
    - constructor; [lia | now apply quoteJSONString_latin1]. }
  destruct ms as [|m' ms']; [exact Hm|].
  change (Json.membersText (m :: m' :: ms'))
    with (Json.memberText m ++ 44%N :: Json.membersText (m' :: ms')).
  apply Forall_app. split; [exact Hm|]. constructor; [lia | exact IH].
Qed.

(** [generateUniqueCode] returns a code when no string it is given has a
    code unit above 255. *)
Lemma generate_returns (sdp : jsstring) (options : Options) :
  latin1 sdp -> latin1Option (optIceServer options) ->
  latin1Option (optPublicKey options) ->
  exists code, generateUniqueCode sdp options = Returns code.
Proof.
  intros Hs Hi Hp. unfold generateUniqueCode, Base64.encode, Base64.btoa.
  assert (Hnil : latin1 []) by constructor.
  assert (Hall : latin1 (Json.stringify (codeData sdp options))).
  { unfold Json.stringify, latin1. constructor; [lia|].
    apply Forall_app. split; [|repeat constructor; lia].
    apply membersText_latin1. unfold codeData. rewrite chunkText.
    repeat constructor; cbn [fst snd];
      try (cbv; repeat constructor; discriminate); try assumption.
    - destruct (optIceServer options); [exact Hi | exact Hnil].
    - apply Forall_forall. intros c Hc.
      destruct (Number_toString_read (effectiveChunkSize options))
        as (_ & _ & _ & Hl).
      apply (proj1 (forallb_forall _ _) Hl) in Hc. now apply N.leb_le.
    - destruct (optPublicKey options); [exact Hp | exact Hnil].
    - destruct (optHighPerformance options) as [[|]|];
        cbv; repeat constructor; discriminate. }
  assert (Hb : forallb (fun c => (c <=? 255)%N)
                       (Json.stringify (codeData sdp options)) = true).
  { apply forallb_forall. intros c Hc. apply N.leb_le.
    exact (proj1 (Forall_forall _ _) Hall c Hc). }
  rewrite Hb. cbn [bind]. eexists. reflexivity.
Qed.

End UniqueCodeFacts.

Section UniqueCodeTheorems.
Import Js UniqueCode.

(** C6, as stated, fails: a code generated with highPerformance false and
    no chunk size is parsed with highPerformance true. *)
Lemma C6_counterexample_flag_not_recovered :
  exists code r,
    generateUniqueCode sampleSdp plainOptions = Returns code
    /\ parseUniqueCode code = Parsed r
    /\ optHighPerformance plainOptions = Some false
    /\ highPerformance r = true.
Proof.
  do 2 eexists. split; [vm_compute; reflexivity|].
  split; [vm_compute; reflexivity|]. split; reflexivity.
Qed.

(** C6 (amended): for every SDP and every option set whose chunk size,
    when given, is a safe integer (a whole number below 2^53 in
    magnitude), the code is the base64url text of the JSON object with
    the members s, i, c, p, h in this order, where c is the chunk size in
    decimal digits (67108864 when the chunk size is left out or 0) and h
    is "0" or "1".  Whenever [generateUniqueCode] returns a code (it does
    when no string has a code unit above 255), [parseUniqueCode] of that
    code recovers the SDP, the ICE server and the public key (an empty or
    missing one as undefined), the chunk size as a number (67108864 when
    left out or 0), and as high-performance flag the disjunction of the
    requested flag and of chunk size > 16777216. *)
Theorem C6_code_roundtrip (sdp : jsstring) (options : Options) :
  safeChunkSize options ->
  (exists c h,
      generateUniqueCode sdp options
      = Base64.encode
          (Json.stringify
             [ (lit "s", sdp); (lit "i", orEmpty (optIceServer options));
               (lit "c", c); (lit "p", orEmpty (optPublicKey options));
               (lit "h", h) ])
      /\ c = Number_toString (effectiveChunkSize options)
      /\ (h = lit "0" \/ h = lit "1"))
  /\ (latin1 sdp -> latin1Option (optIceServer options) ->
      latin1Option (optPublicKey options) ->
      exists code, generateUniqueCode sdp options = Returns code)
  /\ (forall code,
        generateUniqueCode sdp options = Returns code ->
        parseUniqueCode code
        = Parsed {| UniqueCode.sdp := Some sdp;
                    iceServer := truthy (optIceServer options);
                    chunkSize := Num (effectiveChunkSize options);
                    publicKey := truthy (optPublicKey options);
                    highPerformance :=
                      requestedHighPerformance options
                      || (effectiveChunkSize options >? 16777216) |}).
Proof.
  intros Hsafe. split; [|split].
  - exists (Number_toString (effectiveChunkSize options)),
           (match optHighPerformance options with
            | Some true => lit "1"
            | _ => lit "0"
            end).
    split; [|split].
    + unfold generateUniqueCode, codeData. now rewrite chunkText.
    + reflexivity.
    + destruct (optHighPerformance options) as [[|]|]; auto.
  - apply generate_returns.
  - intros code Hgen.
    rewrite (parse_generate _ _ _ Hgen). apply parseData_codeData.
Qed.

(** A code generated from the sample options is parsed back to them. *)
Lemma C6_witness_sample_options :
  exists code,
    generateUniqueCode sampleSdp sampleOptions = Returns code
    /\ parseUniqueCode code
       = Parsed {| UniqueCode.sdp := Some sampleSdp;
                   iceServer := Some (lit "stun:stun.l.google.com:19302");
                   chunkSize := Num 262144;
                   publicKey := Some (lit "MIGfMA0G+/8=");
                   highPerformance := true |}.
Proof.
  assert (Hsafe : safeChunkSize sampleOptions)
    by (unfold safeChunkSize; cbn; lia).
  destruct (C6_code_roundtrip sampleSdp sampleOptions Hsafe)
    as (_ & Hret & Hparse).
  destruct Hret as [code Hcode].
  - unfold latin1, sampleSdp. cbv. repeat constructor; discriminate.
  - cbv. repeat constructor; discriminate.
  - cbv. repeat constructor; discriminate.
  - exists code. split; [exact Hcode|]. exact (Hparse code Hcode).
Defined.

End UniqueCodeTheorems.

(** ** Every code: the JSON text *)

Section JsonValueFacts.
Import Js UniqueCode Configs JsonValue.
Local Open Scope nat_scope.

Lemma skipWhitespace_length (s : jsstring) :
  length (Json.skipWhitespace s) <= length s.
Proof.
  induction s as [|c rest IH]; cbn [Json.skipWhitespace length]; [lia|].
  destruct (Json.isJsonWhitespace c); cbn [length]; lia.
Qed.

(** A string in a text ends before the text does. *)
Lemma parseChars_length (n : nat) :
  forall s str tail,
    length s <= n -> Json.parseChars s = Some (str, tail) ->
    length tail < length s.
Proof.
  induction n as [|n IH]; intros s str tail Hn Hp.
  - destruct s; [discriminate|cbn in Hn; lia].
  - destruct s as [|c rest]; [discriminate|].
    cbn [Json.parseChars] in Hp. cbn [length] in *.
    destruct (c =? Json.quotationMark)%N.
    { injection Hp as _ <-. lia. }
    destruct (c =? Json.reverseSolidus)%N.
    { destruct rest as [|e rest1]; [discriminate|]. cbn [length] in *.
      destruct (e =? 117)%N.
      - destruct rest1 as [|h1 [|h2 [|h3 [|h4 rest2]]]]; try discriminate.
        cbn [length] in *.
        destruct (Json.hexValue h1), (Json.hexValue h2), (Json.hexValue h3),
          (Json.hexValue h4); try discriminate.
        destruct (Json.parseChars rest2) as [[str' tail']|] eqn:E;
          [|discriminate].
        injection Hp as _ <-. apply IH in E; lia.
      - destruct (Json.simpleEscape e); [|discriminate].
        destruct (Json.parseChars rest1) as [[str' tail']|] eqn:E;
          [|discriminate].
        injection Hp as _ <-. apply IH in E; lia. }
    destruct (c <? 32)%N; [discriminate|].
    destruct (Json.parseChars rest) as [[str' tail']|] eqn:E; [|discriminate].
    injection Hp as _ <-. apply IH in E; lia.
Qed.

Lemma parseString_length (s key tail : jsstring) :
  Json.parseString s = Some (key, tail) -> length tail < length s.
Proof.
  destruct s as [|c rest]; cbn [Json.parseString]; [discriminate|].
  destruct (c =? Json.quotationMark)%N; [|discriminate].
  intros H. apply (parseChars_length (length rest)) in H; cbn [length]; lia.
Qed.

Lemma spanDigits_length (s : jsstring) :
  length (fst (spanDigits s)) + length (snd (spanDigits s)) = length s.
Proof.
  induction s as [|c rest IH]; cbn [spanDigits]; [reflexivity|].
  destruct (isDigit c); [|reflexivity].
  destruct (spanDigits rest) as [ds tail]. cbn [fst snd length] in *. lia.
Qed.

Lemma splitSign_shorter (s : jsstring) :
  length (snd (splitSign s)) <= length s.
Proof.
  destruct s as [|c rest]; cbn [splitSign]; [cbn; lia|].
  destruct (c =? 45)%N; [cbn; lia|]. destruct (c =? 43)%N; cbn; lia.
Qed.

Lemma parseExponent_length (s : jsstring) (e : Z) (tail : jsstring) :
  parseExponent s = Some (e, tail) -> length tail < length s.
Proof.
  unfold parseExponent. pose proof (splitSign_shorter s) as Hs.
  destruct (splitSign s) as [sign s1]. cbn [snd] in Hs.
  pose proof (spanDigits_length s1) as Hd.
  destruct (spanDigits s1) as [[|d ds] rest]; [discriminate|].
  intros [= _ <-]. cbn [fst snd length] in Hd. lia.
Qed.

Lemma parseNumber_length (s : jsstring) (mv : QArith_base.Q)
      (tail : jsstring) :
  parseNumber s = Some (mv, tail) -> length tail < length s.
Proof.
  unfold parseNumber.
  set (signed := match s with
                 | c :: rest => if (c =? 45)%N then (-1, rest)%Z else (1%Z, s)
                 | [] => (1%Z, [])
                 end).
  assert (Hs : length (snd signed) <= length s).
  { unfold signed. destruct s as [|c rest]; [cbn; lia|].
    destruct (c =? 45)%N; cbn; lia. }
  destruct signed as [sign s1]. cbn [snd] in Hs.
  pose proof (spanDigits_length s1) as Hd.
  destruct (spanDigits s1) as [[|d more] s2]; [discriminate|].
  cbn [fst snd length] in Hd.
  destruct ((d =? 48)%N && negb (length more =? 0)); [discriminate|].
  set (fraction := match s2 with
                   | c :: rest =>
                       if (c =? 46)%N then
                         match spanDigits rest with
                         | ([], _) => None
                         | (fs, tail) => Some (fs, tail)
                         end
                       else Some ([], s2)
                   | [] => Some ([], [])
                   end).
  assert (Hf : forall frac s3, fraction = Some (frac, s3) ->
                               length s3 <= length s2).
  { unfold fraction. intros frac s3. destruct s2 as [|c rest].
    - intros [= _ <-]. lia.
    - destruct (c =? 46)%N.
      + pose proof (spanDigits_length rest) as Hr.
        destruct (spanDigits rest) as [[|f fs] t]; [discriminate|].
        intros [= _ <-]. cbn [fst snd length] in *. lia.
      + intros [= _ <-]. lia. }
  destruct fraction as [[frac s3]|]; [|discriminate].
  specialize (Hf frac s3 eq_refl).
  set (exponent := match s3 with
                   | c :: rest =>
                       if isExponentIndicator c then parseExponent rest
                       else Some (0%Z, s3)
                   | [] => Some (0%Z, [])
                   end).
  assert (He : forall e s4, exponent = Some (e, s4) ->
                            length s4 <= length s3).
  { unfold exponent. intros e s4. destruct s3 as [|c rest].
    - intros [= _ <-]. lia.
    - destruct (isExponentIndicator c).
      + intros H. apply parseExponent_length in H. cbn [length]. lia.
      + intros [= _ <-]. lia. }
  destruct exponent as [[e s4]|]; [|discriminate].
  specialize (He e s4 eq_refl). intros [= _ <-]. lia.
Qed.

Lemma afterWord_length (word : jsstring) :
  forall s tail,
    afterWord word s = Some tail -> length tail + length word = length s.
Proof.
  induction word as [|w word IH]; intros s tail; cbn [afterWord].
  - intros [= <-]. cbn. lia.
  - destruct s as [|c rest]; [discriminate|].
    destruct (w =? c)%N; [|discriminate].
    intros H. apply IH in H. cbn [length]. lia.
Qed.

Section WithRounding.

Variable roundToDouble : QArith_base.Q -> number.

Local Abbreviation parseValue := (JsonValue.parseValue roundToDouble).
Local Abbreviation parseElements := (JsonValue.parseElements roundToDouble).
Local Abbreviation parseMembers := (JsonValue.parseMembers roundToDouble).

(** What is read is taken from the text. *)
Lemma parse_consumes (fuel : nat) :
  (forall s v tail, parseValue fuel s = Read v tail ->
                    length tail < length s)
  /\ (forall s acc l tail, parseElements fuel s acc = Read l tail ->
                           length tail < length s)
  /\ (forall s acc l tail, parseMembers fuel s acc = Read l tail ->
                           length tail < length s).
Proof.
  induction fuel as [|fuel (IHv & IHe & IHm)].
  - repeat split; intros; discriminate.
  - split; [|split].
    + intros s v tail. cbn [JsonValue.parseValue].
      destruct s as [|c rest]; [discriminate|]. cbn [length].
      pose proof (skipWhitespace_length rest) as Hw.
      destruct (c =? 123)%N.
      { destruct (Json.skipWhitespace rest) as [|d rest1]; [discriminate|].
        cbn [length] in Hw.
        destruct (d =? 125)%N; [intros [= _ <-]; lia|].
        destruct (parseMembers fuel (d :: rest1) []) as [ms t| |] eqn:E;
          try discriminate.
        intros [= _ <-]. apply IHm in E. cbn [length] in E. lia. }
      destruct (c =? 91)%N.
      { destruct (Json.skipWhitespace rest) as [|d rest1]; [discriminate|].
        cbn [length] in Hw.
        destruct (d =? 93)%N; [intros [= _ <-]; lia|].
        destruct (parseElements fuel (d :: rest1) []) as [es t| |] eqn:E;
          try discriminate.
        intros [= _ <-]. apply IHe in E. cbn [length] in E. lia. }
      destruct (c =? Json.quotationMark)%N.
      { destruct (Json.parseChars rest) as [[str t]|] eqn:E; [|discriminate].
        intros [= _ <-].
        apply (parseChars_length (length rest)) in E; lia. }
      destruct ((c =? 45)%N || isDigit c).
      { destruct (parseNumber (c :: rest)) as [[mv t]|] eqn:E;
          [|discriminate].
        intros [= _ <-]. apply parseNumber_length in E.
        cbn [length] in E. lia. }
      destruct (afterWord (lit "true") (c :: rest)) as [t|] eqn:E1.
      { intros [= _ <-]. apply afterWord_length in E1.
        cbn [length] in E1. cbn in E1. lia. }
      destruct (afterWord (lit "false") (c :: rest)) as [t|] eqn:E2.
      { intros [= _ <-]. apply afterWord_length in E2.
        cbn [length] in E2. cbn in E2. lia. }
      destruct (afterWord (lit "null") (c :: rest)) as [t|] eqn:E3;
        [|discriminate].
      intros [= _ <-]. apply afterWord_length in E3.
      cbn [length] in E3. cbn in E3. lia.
    + intros s acc l tail. cbn [JsonValue.parseElements].
      destruct (parseValue fuel s) as [v s1| |] eqn:Ev; try discriminate.
      apply IHv in Ev. pose proof (skipWhitespace_length s1) as Hw.
      destruct (Json.skipWhitespace s1) as [|d s2]; [discriminate|].
      cbn [length] in Hw.
      destruct (d =? 44)%N.
      { intros H. apply IHe in H.
        pose proof (skipWhitespace_length s2). lia. }
      destruct (d =? 93)%N; [|discriminate].
      intros [= _ <-]. lia.
    + intros s acc l tail. cbn [JsonValue.parseMembers].
      pose proof (skipWhitespace_length s) as Hw0.
      destruct (Json.parseString (Json.skipWhitespace s)) as [[key s1]|] eqn:Ek;
        [|discriminate].
      apply parseString_length in Ek.
      pose proof (skipWhitespace_length s1) as Hw1.
      destruct (Json.skipWhitespace s1) as [|c s2]; [discriminate|].
      cbn [length] in Hw1.
      destruct (c =? 58)%N; [|discriminate].
      pose proof (skipWhitespace_length s2) as Hw2.
      destruct (parseValue fuel (Json.skipWhitespace s2)) as [v s3| |] eqn:Ev;
        try discriminate.
      apply IHv in Ev. pose proof (skipWhitespace_length s3) as Hw3.
      destruct (Json.skipWhitespace s3) as [|d s4]; [discriminate|].
      cbn [length] in Hw3.
      destruct (d =? 44)%N.
      { intros H. apply IHm in H. lia. }
      destruct (d =? 125)%N; [|discriminate].
      intros [= _ <-]. lia.
Qed.

(** Fuel of twice the length of the text and one more is enough for a
    value, and one more again for elements and members. *)
Lemma parse_fuel_enough (fuel : nat) :
  (forall s, 2 * length s + 1 <= fuel -> parseValue fuel s <> Unfinished)
  /\ (forall s acc, 2 * length s + 2 <= fuel ->
                    parseElements fuel s acc <> Unfinished)
  /\ (forall s acc, 2 * length s + 2 <= fuel ->
                    parseMembers fuel s acc <> Unfinished).
Proof.
  induction fuel as [|fuel (IHv & IHe & IHm)].
  - repeat split; intros; lia.
  - split; [|split].
    + intros s Hf. cbn [JsonValue.parseValue].
      destruct s as [|c rest]; [discriminate|]. cbn [length] in Hf.
      pose proof (skipWhitespace_length rest) as Hw.
      destruct (c =? 123)%N.
      { destruct (Json.skipWhitespace rest) as [|d rest1]; [discriminate|].
        cbn [length] in Hw.
        destruct (d =? 125)%N; [discriminate|].
        specialize (IHm (d :: rest1) []).
        destruct (parseMembers fuel (d :: rest1) []); try discriminate.
        exfalso. apply IHm; [cbn [length]; lia|reflexivity]. }
      destruct (c =? 91)%N.
      { destruct (Json.skipWhitespace rest) as [|d rest1]; [discriminate|].
        cbn [length] in Hw.
        destruct (d =? 93)%N; [discriminate|].
        specialize (IHe (d :: rest1) []).
        destruct (parseElements fuel (d :: rest1) []); try discriminate.
        exfalso. apply IHe; [cbn [length]; lia|reflexivity]. }
      destruct (c =? Json.quotationMark)%N.
      { destruct (Json.parseChars rest) as [[str t]|]; discriminate. }
      destruct ((c =? 45)%N || isDigit c).
      { destruct (parseNumber (c :: rest)) as [[mv t]|]; discriminate. }
      destruct (afterWord (lit "true") (c :: rest)); [discriminate|].
      destruct (afterWord (lit "false") (c :: rest)); [discriminate|].
      destruct (afterWord (lit "null") (c :: rest)); discriminate.
    + intros s acc Hf. cbn [JsonValue.parseElements].
      specialize (IHv s).
      destruct (parseValue fuel s) as [v s1| |] eqn:Ev; try discriminate.
      * apply (proj1 (parse_consumes fuel)) in Ev.
        pose proof (skipWhitespace_length s1) as Hw.
        destruct (Json.skipWhitespace s1) as [|d s2]; [discriminate|].
        cbn [length] in Hw.
        destruct (d =? 44)%N.
        { apply IHe. pose proof (skipWhitespace_length s2). lia. }
        destruct (d =? 93)%N; discriminate.
      * exfalso. apply IHv; [lia|reflexivity].
    + intros s acc Hf. cbn [JsonValue.parseMembers].
      pose proof (skipWhitespace_length s) as Hw0.
      destruct (Json.parseString (Json.skipWhitespace s)) as [[key s1]|] eqn:Ek;
        [|discriminate].
      apply parseString_length in Ek.
      pose proof (skipWhitespace_length s1) as Hw1.
      destruct (Json.skipWhitespace s1) as [|c s2]; [discriminate|].
      cbn [length] in Hw1.
      destruct (c =? 58)%N; [|discriminate].
      pose proof (skipWhitespace_length s2) as Hw2.
      specialize (IHv (Json.skipWhitespace s2)).
      destruct (parseValue fuel (Json.skipWhitespace s2)) as [v s3| |] eqn:Ev;
        try discriminate.
      * apply (proj1 (parse_consumes fuel)) in Ev.
        pose proof (skipWhitespace_length s3) as Hw3.
        destruct (Json.skipWhitespace s3) as [|d s4]; [discriminate|].
        cbn [length] in Hw3.
        destruct (d =? 44)%N; [apply IHm; lia|].
        destruct (d =? 125)%N; discriminate.
      * exfalso. apply IHv; [lia|reflexivity].
Qed.

(** [JSON.parse] returns or throws on every text. *)
Lemma parse_settles (text : jsstring) :
  exists result, parse roundToDouble text = Some result.
Proof.
  unfold parse.
  pose proof (proj1 (parse_fuel_enough (2 * length text + 2))
                (Json.skipWhitespace text)) as Hfuel.
  pose proof (skipWhitespace_length text) as Hw.
  destruct (JsonValue.parseValue roundToDouble (2 * length text + 2)
              (Json.skipWhitespace text)) as [v rest| |].
  - destruct (Json.skipWhitespace rest); eexists; reflexivity.
  - eexists; reflexivity.
  - exfalso. apply Hfuel; [lia|reflexivity].
Qed.

(** The parser of objects with string members, where it reads a text,
    reads what this parser reads. *)
Lemma parseMembers_agree (fuel : nat) :
  forall s acc ms tail more,
    Json.parseMembers fuel s acc = Some (ms, tail) ->
    fuel < more ->
    parseMembers more s (stringMembers acc)
    = Read (stringMembers ms) tail.
Proof.
  induction fuel as [|fuel IH]; intros s acc ms tail more Hold Hmore;
    [discriminate|].
  destruct more as [|more]; [lia|].
  cbn [Json.parseMembers] in Hold. cbn [JsonValue.parseMembers].
  destruct (Json.parseString (Json.skipWhitespace s)) as [[key s1]|];
    [|discriminate].
  destruct (Json.skipWhitespace s1) as [|c s2]; [discriminate|].
  destruct (c =? 58)%N; [|discriminate].
  destruct (Json.parseString (Json.skipWhitespace s2)) as [[str s3]|] eqn:Es;
    [|discriminate].
  assert (Hv : parseValue more (Json.skipWhitespace s2)
               = Read (VString str) s3).
  { unfold Json.parseString in Es.
    destruct (Json.skipWhitespace s2) as [|q rest]; [discriminate|].
    destruct more as [|more']; [lia|].
    cbn [JsonValue.parseValue].
    destruct (N.eqb_spec q Json.quotationMark) as [->|]; [|discriminate].
    cbn. now rewrite Es. }
  rewrite Hv.
  destruct (Json.skipWhitespace s3) as [|d s4]; [discriminate|].
  assert (Hacc : stringMembers acc ++ [(key, VString str)]
                 = stringMembers (acc ++ [(key, str)]))
    by (unfold stringMembers; now rewrite map_app).
  rewrite Hacc.
  destruct (d =? 44)%N.
  - apply (IH _ _ _ _ _ Hold). lia.
  - destruct (d =? 125)%N; [|discriminate].
    now injection Hold as <- <-.
Qed.

Lemma parse_agree (text : jsstring) (ms : list (jsstring * jsstring)) :
  Json.parse text = Some ms ->
  parse roundToDouble text = Some (Returns (VObject (stringMembers ms))).
Proof.
  unfold Json.parse, parse.
  destruct (Json.skipWhitespace text) as [|c s1] eqn:Et; [discriminate|].
  destruct (N.eqb_spec c 123) as [->|]; [|discriminate].
  replace (2 * length text + 2) with (S (2 * length text + 1)) by lia.
  cbn [JsonValue.parseValue]. cbn [N.eqb Pos.eqb].
  destruct (Json.skipWhitespace s1) as [|d s2]; [discriminate|].
  destruct (d =? 125)%N.
  - destruct (Json.skipWhitespace s2); [|discriminate].
    now intros [= <-].
  - destruct (Json.parseMembers (length text) (d :: s2) [])
      as [[ms' tail]|] eqn:Em; [|discriminate].
    rewrite (parseMembers_agree _ _ [] ms' tail _ Em) by lia.
    destruct (Json.skipWhitespace tail); [|discriminate].
    now intros [= <-].
Qed.

End WithRounding.

Lemma getOwn_stringMembers (ms : list (jsstring * jsstring))
      (key : jsstring) :
  getOwn (stringMembers ms) key
  = option_map VString (Json.getProperty ms key).
Proof.
  induction ms as [|[k v] ms IH]; cbn [stringMembers map getOwn
                                         Json.getProperty fst snd];
    [reflexivity|].
  fold (stringMembers ms). rewrite IH.
  destruct (Json.getProperty ms key); cbn [option_map]; [reflexivity|].
  now destruct (Json.jsstring_eqb k key).
Qed.

End JsonValueFacts.

(** ** Every code: conversions *)

Section ConversionFacts.
Import Js UniqueCode Configs JsonValue Conversion.
Local Open Scope Z_scope.

Lemma isDigit_decimal (c : N) : isDecimalDigit c -> isDigit c = true.
Proof.
  unfold isDecimalDigit, isDigit. intros H.
  apply andb_true_iff. split; apply N.leb_le; lia.
Qed.

Lemma spanDigits_digits (ds : jsstring) :
  Forall isDecimalDigit ds -> spanDigits ds = (ds, []).
Proof.
  induction 1 as [|c ds Hc _ IH]; cbn [spanDigits]; [reflexivity|].
  now rewrite (isDigit_decimal c Hc), IH.
Qed.

Lemma nonDecimalPrefix_digits (ds : jsstring) :
  Forall isDecimalDigit ds -> nonDecimalPrefix ds = None.
Proof.
  intros H. destruct ds as [|z [|x rest]]; try reflexivity.
  inversion H as [|? ? _ H']; subst. inversion H' as [|? ? Hx _]; subst.
  unfold nonDecimalPrefix, isDecimalDigit in *.
  destruct (z =? 48)%N; [|reflexivity].
  destruct (N.eqb_spec x 120); [lia|]. destruct (N.eqb_spec x 88); [lia|].
  destruct (N.eqb_spec x 111); [lia|]. destruct (N.eqb_spec x 79); [lia|].
  destruct (N.eqb_spec x 98); [lia|]. destruct (N.eqb_spec x 66); [lia|].
  reflexivity.
Qed.

Lemma digits_not_Infinity (ds : jsstring) :
  Forall isDecimalDigit ds ->
  Json.jsstring_eqb ds (lit "Infinity") = false.
Proof.
  intros H. unfold Json.jsstring_eqb.
  destruct (list_eq_dec N.eq_dec ds (lit "Infinity")) as [->|]; [|reflexivity].
  inversion H as [|? ? Hc _]; subst. unfold isDecimalDigit in Hc.
  cbn in Hc. lia.
Qed.

Lemma unsignedDecimal_digits (ds : jsstring) (n : N) :
  ds <> [] -> Forall isDecimalDigit ds ->
  takeDigits 10 ds None = Some n ->
  unsignedDecimal ds = Some (Z.of_N n, 0).
Proof.
  intros Hne Hds Hn. unfold unsignedDecimal.
  rewrite (spanDigits_digits ds Hds).
  destruct ds as [|d ds']; [contradiction|].
  cbn [length Nat.eqb andb]. unfold digitsValue.
  now rewrite app_nil_r, Hn.
Qed.

Section WithPlatform.

Variable roundToDouble : QArith_base.Q -> number.
Variable numberToString : number -> jsstring.
Variable stackDepth : nat.

Local Abbreviation StringToNumber := (Conversion.StringToNumber roundToDouble).

(** The text that [toString] gives for an integer is read as that
    integer. *)
Lemma StringToNumber_digits (sign : Z) (prefix : jsstring) (n : N) :
  (prefix = [] /\ sign = 1) \/ (prefix = [45%N] /\ sign = -1) ->
  StringToNumber (prefix ++ decimal n)
  = roundToDouble (QArith_base.inject_Z (sign * Z.of_N n)).
Proof.
  intros Hprefix. destruct (decimal_read n) as (Hne & Hds & Hn).
  assert (Hplain : Forall (fun c => isStrWhiteSpaceChar c = false)
                          (prefix ++ decimal n)).
  { apply Forall_app. split.
    - destruct Hprefix as [[-> _]|[-> _]]; repeat constructor.
    - eapply Forall_impl; [|exact Hds]. intros c Hc.
      now destruct (digit_plain c Hc). }
  unfold Conversion.StringToNumber. rewrite (trim_plain _ Hplain).
  destruct (decimal n) as [|d ds] eqn:Ed; [contradiction|].
  assert (Hd : isDecimalDigit d) by now inversion Hds.
  destruct (digit_plain d Hd) as (_ & Hminus & Hplus & _).
  assert (Hscaled : forall m, scaled (sign * Z.of_N m) 0
                              = QArith_base.inject_Z (sign * Z.of_N m)).
  { intros m. unfold scaled. cbn [Z.leb Z.compare].
    now rewrite Z.pow_0_r, Z.mul_1_r. }
  destruct Hprefix as [[-> ->]|[-> ->]]; cbn [app].
  - rewrite (nonDecimalPrefix_digits _ Hds).
    cbn [splitSign]. rewrite Hminus, Hplus.
    rewrite (digits_not_Infinity _ Hds).
    rewrite (unsignedDecimal_digits _ n) by (assumption || discriminate).
    now rewrite Hscaled.
  - assert (Hnone : nonDecimalPrefix (45%N :: d :: ds) = None)
      by reflexivity.
    rewrite Hnone. cbn [splitSign N.eqb Pos.eqb].
    rewrite (digits_not_Infinity _ Hds).
    rewrite (unsignedDecimal_digits _ n) by (assumption || discriminate).
    now rewrite Hscaled.
Qed.

Lemma StringToNumber_toString (n : Z) :
  StringToNumber (Number_toString n)
  = roundToDouble (QArith_base.inject_Z n).
Proof.
  destruct n as [|p|p]; cbn [Number_toString].
  - apply (StringToNumber_digits 1 [] 0). auto.
  - apply (StringToNumber_digits 1 [] (Npos p)). auto.
  - apply (StringToNumber_digits (-1) [45%N] (Npos p)). auto.
Qed.

Lemma greaterThan_integer (n bound : Z) :
  greaterThan (Finite (QArith_base.inject_Z n)) bound = (n >? bound).
Proof.
  unfold greaterThan, QArith_base.Qle_bool. cbn [QArith_base.Qnum
    QArith_base.Qden QArith_base.inject_Z].
  rewrite !Z.mul_1_r.
  destruct (Z.leb_spec n bound), (Z.gtb_spec n bound); (reflexivity || lia).
Qed.

Lemma strictEqualsString_true (v : option value) (text : jsstring) :
  strictEqualsString v text = true <-> v = Some (VString text).
Proof.
  unfold strictEqualsString, Json.jsstring_eqb.
  destruct v as [[| | |s| |]|]; try (split; discriminate).
  destruct (list_eq_dec N.eq_dec s text) as [->|Hne].
  - split; reflexivity.
  - split; [discriminate|]. intros [= H]. contradiction.
Qed.

End WithPlatform.
End ConversionFacts.

(** ** Every code: the flag *)

Section AnyCodeFacts.
Import Js UniqueCode Configs JsonValue Conversion AnyCode.
Local Open Scope Z_scope.

Variable roundToDouble : QArith_base.Q -> number.
Variable numberToString : number -> jsstring.
Variable stackDepth : nat.

Local Abbreviation readCode :=
  (AnyCode.readCode roundToDouble numberToString stackDepth).
Local Abbreviation exceeds :=
  (Conversion.exceeds roundToDouble numberToString stackDepth).

(** The flag of a result is that of the line that computes it. *)
Lemma readCode_flag (data : value) (r : ParsedCode) :
  readCode data = Returns r ->
  (highPerformance r = true <->
   get data (lit "h") = Some (VString (lit "1"))
   \/ exceeds (get data (lit "c")) 16777216 = Returns true).
Proof.
  intros Hread.
  assert (Hbody :
            (highPerformance <-
               (if strictEqualsString (get data (lit "h")) (lit "1")
                then Returns true
                else exceeds (get data (lit "c")) 16777216) ;;
             chunkSize <-
               (match get data (lit "c") with
                | Some c =>
                    if ToBoolean (Some c)
                    then parseIntOf roundToDouble numberToString stackDepth c
                    else Returns (Finite (QArith_base.inject_Z 67108864))
                | None => Returns (Finite (QArith_base.inject_Z 67108864))
                end) ;;
             Returns {| sdp := get data (lit "s");
                        iceServer := orUndefined (get data (lit "i"));
                        chunkSize := chunkSize;
                        publicKey := orUndefined (get data (lit "p"));
                        highPerformance := highPerformance |})
            = Returns r).
  { destruct data; try exact Hread. discriminate Hread. }
  clear Hread.
  destruct (strictEqualsString (get data (lit "h")) (lit "1")) eqn:Eh.
  - apply strictEqualsString_true in Eh. cbn [bind] in Hbody.
    destruct (match get data (lit "c") with
              | Some c => _
              | None => _
              end) as [size|e]; [|discriminate].
    cbn [bind] in Hbody. injection Hbody as <-. cbn [highPerformance].
    split; auto.
  - assert (Hnot : get data (lit "h") <> Some (VString (lit "1"))).
    { intros H. apply strictEqualsString_true in H. congruence. }
    destruct (exceeds (get data (lit "c")) 16777216) as [flag|e];
      [|discriminate].
    cbn [bind] in Hbody.
    destruct (match get data (lit "c") with
              | Some c => _
              | None => _
              end) as [size|e]; [|discriminate].
    cbn [bind] in Hbody. injection Hbody as <-. cbn [highPerformance].
    split.
    + intros ->. auto.
    + intros [H|H]; [contradiction|]. now injection H.
Qed.

(** What is read from the decoded object of a generated code. *)
Lemma readCode_codeData (sdp : jsstring) (options : Options) :
  exactOnSafeIntegers roundToDouble -> safeChunkSize options ->
  readCode (VObject (stringMembers (codeData sdp options)))
  = Returns {| AnyCode.sdp := Some (VString sdp);
               AnyCode.iceServer :=
                 option_map VString (truthy (optIceServer options));
               AnyCode.chunkSize :=
                 Finite (QArith_base.inject_Z (effectiveChunkSize options));
               AnyCode.publicKey :=
                 option_map VString (truthy (optPublicKey options));
               AnyCode.highPerformance :=
                 requestedHighPerformance options
                 || (effectiveChunkSize options >? 16777216) |}.
Proof.
  intros Hexact Hsafe.
  assert (Hrange : - 2 ^ 53 < effectiveChunkSize options < 2 ^ 53).
  { unfold safeChunkSize, effectiveChunkSize in *.
    destruct (optChunkSize options) as [n|]; [|lia].
    destruct (n =? 0); lia. }
  unfold AnyCode.readCode, get. rewrite !getOwn_stringMembers.
  unfold codeData. rewrite chunkText.
  destruct (Number_toString_read (effectiveChunkSize options))
    as (Hint & _ & Hne & _).
  pose proof (StringToNumber_toString roundToDouble
                (effectiveChunkSize options)) as Hnum.
  rewrite (Hexact _ Hrange) in Hnum.
  set (c := Number_toString (effectiveChunkSize options)) in *.
  change (Json.getProperty _ (lit "c")) with (Some c).
  change (Json.getProperty _ (lit "s")) with (Some sdp).
  change (Json.getProperty _ (lit "i"))
    with (Some (orEmpty (optIceServer options))).
  change (Json.getProperty _ (lit "p"))
    with (Some (orEmpty (optPublicKey options))).
  change (Json.getProperty _ (lit "h"))
    with (Some match optHighPerformance options with
               | Some true => lit "1"
               | _ => lit "0"
               end).
  cbn [option_map].
  assert (Htruthy : forall x,
             orUndefined (Some (VString (orEmpty x)))
             = option_map VString (truthy x)).
  { intros [[|ch str]|]; reflexivity. }
  rewrite !Htruthy.
  assert (Hc : ToBoolean (Some (VString c)) = true)
    by (destruct c; [contradiction|reflexivity]).
  rewrite Hc.
  unfold parseIntOf. 
  assert (Hstr : ToString numberToString stackDepth (VString c) = Returns c)
    by (destruct stackDepth; reflexivity).
  rewrite Hstr. cbn [bind]. rewrite Hint, (Hexact _ Hrange).
  unfold Conversion.exceeds, ToNumber. cbn [bind]. rewrite Hnum.
  rewrite greaterThan_integer.
  unfold requestedHighPerformance.
  destruct (optHighPerformance options) as [[|]|]; reflexivity.
Qed.

(** A generated code is decoded to the text of its object and parsed to
    that object. *)
Lemma parse_generated (sdp : jsstring) (options : Options)
      (code : jsstring) :
  generateUniqueCode sdp options = Returns code ->
  parseUniqueCode roundToDouble numberToString stackDepth code
  = Some match readCode (VObject (stringMembers (codeData sdp options))) with
         | Returns r => Returns r
         | Throws _ => Throws invalidCodeFormat
         end.
Proof.
  unfold generateUniqueCode, parseUniqueCode. intros Hgen.
  rewrite (decode_encode _ _ Hgen).
  rewrite (parse_agree roundToDouble _ _ (parse_stringify _)).
  now destruct (readCode _).
Qed.

End AnyCodeFacts.

Section AnyCodeTheorems.
Import Js UniqueCode Configs JsonValue Conversion AnyCode.
Local Open Scope Z_scope.



End AnyCodeTheorems.

(* ================================================================== *)
(** * Further properties of the utilities *)

(** ** Frames of any size *)

Section FrameParts.
Import Js ConcatBytes.

(** X1: for all byte arrays A and B, [concatUint8Arrays] returns a frame of
    2 + len(A) + len(B) bytes, and [splitUint8Array] cuts the payload
    A ++ B of that frame at len(A) modulo 65536: no byte of the payload is
    lost or repeated, also when A is too long for the prefix. *)
Theorem X1_frame_payload_preserved (A B : bytes) :
  exists frame part1 part2,
    concatUint8Arrays A B = Returns frame
    /\ byteLength frame = 2 + byteLength A + byteLength B
    /\ splitUint8Array frame = Returns (part1, part2)
    /\ part1 ++ part2 = A ++ B
    /\ byteLength part1 = byteLength A mod 65536.
Proof.
  pose proof (byteLength_nonneg A) as HA.
  pose proof (byteLength_nonneg B) as HB.
  set (k := byteLength A mod 65536).
  assert (Hk : 0 <= k < 65536) by (apply Z.mod_pos_bound; lia).
  assert (Hle : k <= byteLength A) by (apply Z.mod_le; lia).
  exists (uint16_buffer (ToUint16 (byteLength A)) ++ A ++ B),
    (firstn (Z.to_nat k) (A ++ B)), (skipn (Z.to_nat k) (A ++ B)).
  split; [apply concatUint8Arrays_layout|].
  split.
  { rewrite !byteLength_app.
    change (byteLength (uint16_buffer (ToUint16 (byteLength A)))) with 2.
    lia. }
  split.
  - unfold uint16_buffer, ToUint16. fold k. cbn [app].
    now rewrite splitUint8Array_parts, uint16_buffer_roundtrip.
  - split; [apply firstn_skipn|].
    unfold byteLength in *. rewrite length_firstn, length_app. lia.
Qed.

(** X2: [splitUint8Array] throws a RangeError on every buffer of one byte;
    on a buffer of two bytes or more it returns two parts that together are
    exactly the bytes after the prefix, the first part having the declared
    length or, when fewer bytes are present, all of them. *)
Theorem X2_split_partitions_payload :
  (forall b, splitUint8Array [b] = Throws RangeError)
  /\ (forall b0 b1 payload,
        exists part1 part2,
          splitUint8Array (b0 :: b1 :: payload) = Returns (part1, part2)
          /\ part1 ++ part2 = payload
          /\ byteLength part1
             = Z.min (uint16_of_bytes b0 b1) (byteLength payload)).
Proof.
  split; [reflexivity|]. intros b0 b1 payload.
  pose proof (Z_of_byte_range b0). pose proof (Z_of_byte_range b1).
  exists (firstn (Z.to_nat (uint16_of_bytes b0 b1)) payload),
    (skipn (Z.to_nat (uint16_of_bytes b0 b1)) payload).
  split; [apply splitUint8Array_parts|].
  split; [apply firstn_skipn|].
  unfold byteLength, uint16_of_bytes in *. rewrite length_firstn. lia.
Qed.

End FrameParts.

(** ** How many chunks *)

Section ChunkCount.
Import Js ConcatBytes.

Lemma chunkLoop_count (fuel : nat) :
  forall (len size offset : Z) (acc : list View),
    0 < size -> 0 <= offset <= len -> len - offset < Z.of_nat fuel ->
    exists vs,
      chunkLoop fuel len size offset acc = Some (acc ++ vs)
      /\ Z.of_nat (length vs) = (len - offset + size - 1) / size.
Proof.
  induction fuel as [|fuel IH]; intros len size offset acc Hs Ho Hf.
  - exfalso. lia.
  - cbn [chunkLoop]. destruct (offset <? len) eqn:E.
    + apply Z.ltb_lt in E.
      destruct (Z.le_gt_cases (offset + size) len) as [Hin|Hout].
      * destruct (IH len size (offset + size)
                     (acc ++ [mkView (fst (range len offset (offset + size)))
                                     (snd (range len offset (offset + size)))]))
          as (vs & Hrun & Hcount); try lia.
        eexists (_ :: vs). rewrite Hrun, <- app_assoc.
        split; [reflexivity|]. cbn [length].
        rewrite Nat2Z.inj_succ, Hcount.
        replace (len - offset + size - 1)
          with (len - (offset + size) + size - 1 + 1 * size) by lia.
        rewrite Z.div_add by lia. lia.
      * rewrite chunkLoop_done by lia.
        eexists [_]. split; [reflexivity|]. cbn [length].
        apply Z.div_unique with (r := len - offset - 1); lia.
    + apply Z.ltb_ge in E. exists []. rewrite app_nil_r.
      split; [reflexivity|]. cbn [length]. symmetry.
      apply Z.div_small. lia.
Qed.

(** X3: [createOptimizedChunks] returns ceil(len / max(chunkSize, 16 MiB))
    views: none for empty data, and for data of at most 16 MiB a single
    view of all of it, whatever chunk size was asked for below 16 MiB. *)
Theorem X3_chunk_count (data : bytes) (chunkSize : Z) :
  exists chunks,
    createOptimizedChunks data chunkSize = Some chunks
    /\ Z.of_nat (length chunks)
       = (byteLength data + Z.max chunkSize 16777216 - 1)
         / Z.max chunkSize 16777216
    /\ (data = [] -> chunks = [])
    /\ (data <> [] -> byteLength data <= 16777216 ->
        chunks = [mkView 0 (byteLength data)]).
Proof.
  pose proof (byteLength_nonneg data) as Hnn.
  unfold createOptimizedChunks.
  destruct (chunkLoop_count (S (length data)) (byteLength data)
              (Z.max chunkSize minimumChunk) 0 [])
    as (vs & Hrun & Hcount);
    try (unfold minimumChunk, byteLength; lia).
  exists vs. cbn [app] in Hrun. split; [exact Hrun|].
  split; [rewrite Hcount; unfold minimumChunk; f_equal; lia|].
  split.
  - intros ->. cbn in Hrun. now injection Hrun as <-.
  - intros Hne Hsmall.
    assert (Hpos : 0 < byteLength data)
      by (destruct data; [contradiction | unfold byteLength; cbn; lia]).
    cbn [chunkLoop] in Hrun.
    destruct (0 <? byteLength data) eqn:E; [|apply Z.ltb_ge in E; lia].
    rewrite range_inside in Hrun by (unfold minimumChunk; lia).
    rewrite chunkLoop_done in Hrun by (unfold minimumChunk; lia).
    cbn [fst snd app] in Hrun. injection Hrun as <-.
    do 2 f_equal. unfold minimumChunk. lia.
Qed.

(** Two bytes asked for in chunks of one byte come back as one view. *)
Lemma X3_witness_two_bytes :
  exists chunks,
    createOptimizedChunks [x01; x02] 1 = Some chunks
    /\ chunks = [mkView 0 2].
Proof.
  destruct (X3_chunk_count [x01; x02] 1) as (chunks & Hrun & _ & _ & Hone).
  exists chunks. split; [exact Hrun|].
  apply Hone; [discriminate | cbn; discriminate].
Defined.

End ChunkCount.

(** ** Batches that reject or never start *)

Section ParallelOutcomes.
Import Js ConcatBytes.
Context {T : Type}.
Variable chunks : list bytes.
Variable processor : bytes -> outcome T.
Variable concurrency : Z.

Lemma Promise_all_settles (l : list bytes) :
  (exists ts, Promise_all (map processor l) = Returns ts
              /\ Forall2 (fun c t => processor c = Returns t) l ts)
  \/ (exists e c, Promise_all (map processor l) = Throws e
                  /\ In c l /\ processor c = Throws e).
Proof.
  induction l as [|c l IH].
  - left. exists []. split; [reflexivity | constructor].
  - cbn [map Promise_all]. destruct (processor c) as [t|e] eqn:Hc.
    + cbn [bind]. destruct IH as [(ts & -> & Hall) | (e & c' & -> & Hin & Hc')].
      * left. exists (t :: ts). split; [reflexivity | now constructor].
      * right. exists e, c'. repeat split; [now right | exact Hc'].
    + right. exists e, c. repeat split; [now left | exact Hc].
Qed.

Lemma in_window (k n : nat) (c : bytes) :
  In c (firstn k (skipn n chunks)) -> In c chunks.
Proof.
  intros Hc. rewrite <- (firstn_skipn n chunks). apply in_or_app. right.
  rewrite <- (firstn_skipn k (skipn n chunks)). apply in_or_app. now left.
Qed.

(** With a concurrency of at least 1 the batches settle: either every
    call resolved, or the rejection of one of the chunks is passed on. *)
Lemma processNextBatch_settles (fuel : nat) :
  1 <= concurrency ->
  forall (index : nat) (results : list T),
    (index <= length chunks)%nat -> (length chunks - index < fuel)%nat ->
    Forall2 (fun c t => processor c = Returns t) (firstn index chunks) results ->
    (exists res,
        processNextBatch chunks processor concurrency fuel index results
        = Some (Returns res)
        /\ Forall2 (fun c t => processor c = Returns t) chunks res)
    \/ (exists e c,
           processNextBatch chunks processor concurrency fuel index results
           = Some (Throws e)
           /\ In c chunks /\ processor c = Throws e).
Proof.
  intros Hconc.
  induction fuel as [|fuel IH]; intros index results Hle Hfuel Hdone.
  - lia.
  - cbn [processNextBatch].
    destruct (fillBatch_takes chunks processor concurrency
                (length chunks) 0 index [] Hle)
      as (k & Hfill & Hbound & Hstep); [lia|].
    rewrite Hfill. cbn [app].
    destruct (Promise_all_settles (firstn k (skipn index chunks)))
      as [(ts & Hts & Hout) | (e & c & Hts & Hin & Hc)]; rewrite Hts.
    + assert (Hall : Forall2 (fun c t => processor c = Returns t)
                             (firstn (index + k) chunks) (results ++ ts))
        by (rewrite firstn_plus; now apply Forall2_app).
      destruct (Nat.ltb_spec (index + k) (length chunks)) as [Hlt|Hge].
      * apply IH; [lia | | exact Hall].
        assert (1 <= k)%nat by (apply Hstep; lia). lia.
      * left. exists (results ++ ts). split; [reflexivity|].
        rewrite firstn_all2 in Hall by lia. exact Hall.
    + right. exists e, c. split; [reflexivity|].
      split; [eapply in_window; exact Hin | exact Hc].
Qed.

(** Without a positive concurrency no batch is ever filled, and the
    recursion goes on as long as a chunk is left. *)
Lemma processNextBatch_stalls (fuel : nat) :
  concurrency <= 0 ->
  forall (index : nat) (results : list T),
    (index < length chunks)%nat ->
    processNextBatch chunks processor concurrency fuel index results = None.
Proof.
  intros Hconc. induction fuel as [|fuel IH]; intros index results Hlt.
  - reflexivity.
  - cbn [processNextBatch].
    assert (Hfill : forall f, fillBatch chunks processor concurrency f 0 index []
                              = Some ([], index)).
    { intros f. destruct f; cbn [fillBatch];
        destruct (Z.ltb_spec 0 concurrency); (lia || reflexivity). }
    rewrite Hfill. cbn [Promise_all app].
    destruct (Nat.ltb_spec index (length chunks)); [|lia].
    rewrite app_nil_r. now apply IH.
Qed.

End ParallelOutcomes.

Section ParallelOutcomeTheorems.
Import Js ConcatBytes.

(** X4: with a concurrency of at least 1, [processChunksParallel] always
    settles, and it rejects exactly when the processor rejects one of the
    chunks; the rejection it passes on is that of one of the chunks. *)
Theorem X4_parallel_rejects_iff {T : Type} (chunks : list bytes)
        (processor : bytes -> outcome T) (concurrency : Z) :
  1 <= concurrency ->
  ((exists results,
       processChunksParallel chunks processor concurrency
       = Some (Returns results))
   \/ (exists e c,
          processChunksParallel chunks processor concurrency
          = Some (Throws e)
          /\ In c chunks /\ processor c = Throws e))
  /\ ((exists e, processChunksParallel chunks processor concurrency
                 = Some (Throws e))
      <-> (exists c e, In c chunks /\ processor c = Throws e)).
Proof.
  intros Hconc. unfold processChunksParallel.
  assert (Hstart : Forall2 (fun c t => processor c = Returns t)
                           (firstn 0 chunks) (@nil T)) by constructor.
  destruct (processNextBatch_settles chunks processor concurrency
              (S (length chunks)) Hconc 0%nat []
              (Nat.le_0_l _) ltac:(lia) Hstart)
    as [(res & Hrun & Hall) | (e & c & Hrun & Hin & Hc)].
  - split; [left; now exists res|]. rewrite Hrun. split.
    + intros [e He]. discriminate He.
    + intros (c & e & Hin & Hc). exfalso.
      apply In_nth_error in Hin as [i Hi].
      destruct (Forall2_nth_error_l _ _ _ Hall i c Hi) as (t & _ & Ht).
      rewrite Hc in Ht. discriminate Ht.
  - split; [right; now exists e, c|]. rewrite Hrun. split.
    + intros _. now exists c, e.
    + intros _. now exists e.
Qed.

(** Three chunks, the processor rejecting the empty one. *)
Lemma X4_witness_empty_chunk_rejected :
  exists e,
    processChunksParallel [[x01]; []; [x02]]
      (fun c => match c with
                | [] => Throws RangeError
                | _ => Returns (byteLength c)
                end) 2
    = Some (Throws e).
Proof.
  apply (X4_parallel_rejects_iff [[x01]; []; [x02]]
           (fun c => match c with
                     | [] => Throws RangeError
                     | _ => Returns (byteLength c)
                     end) 2).
  - discriminate.
  - exists [], RangeError. split; [right; now left | reflexivity].
Defined.

(** X5: [processChunksParallel] resolves to the empty list on an empty
    chunk list whatever the concurrency; with a concurrency of 0 or less
    and at least one chunk it never settles: however long it runs, no
    processor call is made and no result is returned. *)
Theorem X5_parallel_degenerate {T : Type} (processor : bytes -> outcome T)
        (concurrency : Z) :
  processChunksParallel [] processor concurrency = Some (Returns [])
  /\ (forall chunks,
        concurrency <= 0 -> chunks <> [] ->
        forall fuel,
          processNextBatch chunks processor concurrency fuel 0%nat [] = None).
Proof.
  split.
  - unfold processChunksParallel. cbn [length processNextBatch fillBatch].
    destruct (0 <? concurrency); reflexivity.
  - intros chunks Hconc Hne fuel. apply processNextBatch_stalls; [exact Hconc|].
    destruct chunks; [contradiction | cbn; lia].
Qed.

(** One chunk and a concurrency of 0: nothing after five rounds. *)
Lemma X5_witness_zero_concurrency :
  processNextBatch [[x01]] (fun c => Returns (byteLength c)) 0 5 0%nat []
  = None.
Proof.
  apply (X5_parallel_degenerate (fun c => Returns (byteLength c)) 0);
    [discriminate | discriminate].
Defined.

End ParallelOutcomeTheorems.

(** ** The chunks of a progressive transfer *)

Section TransferSends.
Import Js FileTransferOptimizer TransferTrace.

Variable floorPercent : Z -> Z -> Z.
Variable sender : bytes -> bool -> outcome unit.
Variable data : bytes.
Variable chunkSize : Z.
Variable onProgress : bool.

Local Abbreviation size := (fileSize data).
Local Abbreviation loop :=
  (transferLoop floorPercent sender data chunkSize onProgress).

Lemma sends_app (t1 t2 : list event) :
  sends (t1 ++ t2) = sends t1 ++ sends t2.
Proof.
  induction t1 as [|[c l|p] t1 IH]; cbn [app sends];
    [reflexivity | now rewrite IH | exact IH].
Qed.

Lemma slice_window (offset stop : Z) :
  0 <= offset <= stop -> stop <= size ->
  slice data offset stop
  = firstn (Z.to_nat (stop - offset)) (skipn (Z.to_nat offset) data)
  /\ byteLength (slice data offset stop) = stop - offset.
Proof.
  intros Ho Hs. unfold slice. split.
  - now apply subarray_exact.
  - now apply subarray_length.
Qed.

Lemma window_extend (offset mid stop : Z) :
  0 <= offset <= mid -> mid <= stop -> stop <= size ->
  firstn (Z.to_nat (mid - offset)) (skipn (Z.to_nat offset) data)
  ++ firstn (Z.to_nat (stop - mid)) (skipn (Z.to_nat mid) data)
  = firstn (Z.to_nat (stop - offset)) (skipn (Z.to_nat offset) data).
Proof.
  intros Ho Hm Hs.
  replace (Z.to_nat mid) with (Z.to_nat (mid - offset) + Z.to_nat offset)%nat
    by lia.
  rewrite <- skipn_skipn.
  replace (Z.to_nat (stop - offset))
    with (Z.to_nat (mid - offset) + Z.to_nat (stop - mid))%nat by lia.
  symmetry. apply firstn_plus.
Qed.

(** The loop invariant on the calls of [sender], for a positive chunk
    size and any sender. *)
Lemma transferLoop_sends (fuel : nat) :
  0 < chunkSize ->
  forall (offset last : Z) (trace : list event),
    0 <= offset <= size ->
    exists added stop,
      snd (loop fuel offset last trace) = trace ++ added
      /\ offset <= stop <= size
      /\ concat (map fst (sends added))
         = firstn (Z.to_nat (stop - offset)) (skipn (Z.to_nat offset) data)
      /\ Forall (fun call => 0 < byteLength (fst call) <= chunkSize)
                (sends added)
      /\ (fst (loop fuel offset last trace) = Completed ->
          stop = size
          /\ lastFlagged (sends added)
          /\ Z.of_nat (length (sends added))
             = (size - offset + chunkSize - 1) / chunkSize)
      /\ (forall e, fst (loop fuel offset last trace) = Rejected e ->
            exists before c l,
              added = before ++ [Sent c l] /\ sender c l = Throws e).
Proof.
  intros Hc.
  induction fuel as [|fuel IH]; intros offset last trace Ho.
  - exists [], offset. cbn [transferLoop].
    destruct (offset <? size) eqn:E; cbn [fst snd sends map concat].
    + rewrite app_nil_r, Z.sub_diag.
      repeat split; try lia; try constructor; try discriminate.
    + apply Z.ltb_ge in E. rewrite app_nil_r, Z.sub_diag.
      assert (offset = size) by lia. subst offset.
      repeat split; try lia; try constructor; try discriminate.
      rewrite Z.sub_diag. symmetry. apply Z.div_small. lia.
  - cbn [transferLoop]. destruct (offset <? size) eqn:E.
    2:{ apply Z.ltb_ge in E. exists [], offset.
        cbn [fst snd sends map concat].
        rewrite app_nil_r, Z.sub_diag.
        assert (Hoff : offset = size) by lia.
        repeat split; try lia; try constructor; try discriminate.
        rewrite Hoff, Z.sub_diag. symmetry. apply Z.div_small. lia. }
    apply Z.ltb_lt in E.
    set (end_ := Z.min (offset + chunkSize) size).
    assert (Hend : offset < end_ <= size) by (unfold end_; lia).
    destruct (slice_window offset end_) as [Hchunk Hlen]; try lia.
    set (chunk := slice data offset end_) in *.
    destruct (sender chunk (end_ =? size)) as [u|e] eqn:Hsend.
    2:{ exists [Sent chunk (end_ =? size)], end_.
        cbn [fst snd sends map concat]. rewrite app_nil_r.
        split; [reflexivity|]. split; [lia|]. split; [exact Hchunk|].
        split; [constructor; [cbn [fst]; unfold end_ in *; lia | constructor]|].
        split; [discriminate|].
        intros e' He'. injection He' as <-.
        exists [], chunk, (end_ =? size). now split. }
    (* both branches of the report go on from [end_] *)
    assert (Hnext : forall last' extra,
               sends extra = [] ->
               exists added stop,
                 snd (loop fuel end_ last'
                        ((trace ++ [Sent chunk (end_ =? size)]) ++ extra))
                 = trace ++ added
                 /\ offset <= stop <= size
                 /\ concat (map fst (sends added))
                    = firstn (Z.to_nat (stop - offset))
                             (skipn (Z.to_nat offset) data)
                 /\ Forall (fun call => 0 < byteLength (fst call) <= chunkSize)
                           (sends added)
                 /\ (fst (loop fuel end_ last'
                            ((trace ++ [Sent chunk (end_ =? size)]) ++ extra))
                     = Completed ->
                     stop = size
                     /\ lastFlagged (sends added)
                     /\ Z.of_nat (length (sends added))
                        = (size - offset + chunkSize - 1) / chunkSize)
                 /\ (forall e,
                       fst (loop fuel end_ last'
                              ((trace ++ [Sent chunk (end_ =? size)]) ++ extra))
                       = Rejected e ->
                       exists before c l,
                         added = before ++ [Sent c l]
                         /\ sender c l = Throws e)).
    { intros last' extra Hextra.
      destruct (IH end_ last'
                   ((trace ++ [Sent chunk (end_ =? size)]) ++ extra))
        as (added & stop & Hsnd & Hstop & Hcat & Hall & Hdone & Hrej);
        [lia|].
      exists (Sent chunk (end_ =? size) :: extra ++ added), stop.
      assert (Hsends : sends (Sent chunk (end_ =? size) :: extra ++ added)
                       = (chunk, end_ =? size) :: sends added)
        by (cbn [sends]; now rewrite sends_app, Hextra).
      rewrite Hsends.
      split; [rewrite Hsnd, <- !app_assoc; reflexivity|].
      split; [lia|].
      split.
      { cbn [map fst concat]. rewrite Hcat, Hchunk.
        apply window_extend; lia. }
      split; [constructor; [cbn [fst]; unfold end_ in *; lia | exact Hall]|].
      split.
      - intros Hcompleted.
        destruct (Hdone Hcompleted) as (-> & Hflag & Hcount).
        split; [reflexivity|].
        destruct (Z.le_gt_cases (offset + chunkSize) size) as [Hin|Hout].
        + assert (Hend' : end_ = offset + chunkSize) by (unfold end_; lia).
          assert (Hcount' : Z.of_nat (S (length (sends added)))
                            = (size - offset + chunkSize - 1) / chunkSize).
          { rewrite Nat2Z.inj_succ, Hcount, Hend'.
            replace (size - offset + chunkSize - 1)
              with (size - (offset + chunkSize) + chunkSize - 1
                    + 1 * chunkSize) by lia.
            rewrite Z.div_add by lia. lia. }
          split; [|exact Hcount'].
          cbn [lastFlagged]. destruct (sends added) as [|call calls] eqn:Hs.
          * cbn [length] in Hcount.
            assert (Hz : (size - end_ + chunkSize - 1) / chunkSize = 0)
              by lia.
            apply Z.div_small_iff in Hz; [|lia].
            apply Z.eqb_eq. lia.
          * split; [|exact Hflag].
            destruct (Z.eqb_spec end_ size) as [Heq|_]; [|reflexivity].
            exfalso. rewrite Heq, Z.sub_diag in Hcount.
            rewrite Z.div_small in Hcount by lia. cbn [length] in Hcount. lia.
        + assert (Hend' : end_ = size) by (unfold end_; lia).
          rewrite Hend', Z.sub_diag in Hcount.
          rewrite Z.div_small in Hcount by lia.
          destruct (sends added) as [|call calls]; [|cbn [length] in Hcount; lia].
          split.
          * cbn [lastFlagged]. apply Z.eqb_eq. exact Hend'.
          * cbn [length].
            apply Z.div_unique with (r := size - offset - 1); lia.
      - intros e He. destruct (Hrej e He) as (before & c & l & -> & Hthrow).
        exists (Sent chunk (end_ =? size) :: extra ++ before), c, l.
        split; [|exact Hthrow]. cbn [app]. now rewrite <- app_assoc. }
    destruct (onProgress && _).
    + apply Hnext. reflexivity.
    + specialize (Hnext last [] eq_refl).
      rewrite app_nil_r in Hnext. exact Hnext.
Qed.

(** Without a positive chunk size the offset never moves forward. *)
Lemma transferLoop_stalls (fuel : nat) :
  chunkSize <= 0 ->
  forall (offset last : Z) (trace : list event),
    offset < size -> fst (loop fuel offset last trace) <> Completed.
Proof.
  intros Hc. induction fuel as [|fuel IH]; intros offset last trace Ho;
    cbn [transferLoop];
    (destruct (offset <? size) eqn:E; [|apply Z.ltb_ge in E; lia]).
  - discriminate.
  - destruct (sender _ _); [|discriminate].
    destruct (onProgress && _); apply IH; lia.
Qed.

End TransferSends.

Section TransferSendTheorems.
Import Js FileTransferOptimizer TransferTrace.





(** X8: with a chunk size of 0 or less, [progressiveFileTransfer] on
    non-empty data never completes: however long it runs, the offset stays
    below the file size. *)
Theorem X8_transfer_needs_positive_chunk_size (floorPercent : Z -> Z -> Z)
        (sender : bytes -> bool -> outcome unit)
        (data : bytes) (chunkSize : Z) (onProgress : bool) :
  chunkSize <= 0 -> data <> [] ->
  forall fuel,
    fst (transferLoop floorPercent sender data chunkSize onProgress
           fuel 0 0 []) <> Completed.
Proof.
  intros Hc Hne fuel. apply transferLoop_stalls; [exact Hc|].
  destruct data; [contradiction|]. unfold fileSize, byteLength. cbn. lia.
Qed.

(** One byte with a chunk size of 0: still running after nine rounds. *)
Lemma X8_witness_zero_chunk_size :
  fst (transferLoop exactPercent alwaysResolves [x01] 0 true 9 0 0 [])
  <> Completed.
Proof.
  apply (X8_transfer_needs_positive_chunk_size exactPercent alwaysResolves
           [x01] 0 true); discriminate.
Defined.

End TransferSendTheorems.

(** ** Throttled sending *)

Section ThrottledFacts.
Import Js ThrottledSend.

Variable data : bytes.
Variable chunkSize : Z.
Hypothesis chunkSize_positive : 0 < chunkSize.

Local Abbreviation size := (byteLength data).

Lemma sound_initial : sound data chunkSize initial.
Proof.
  unfold sound, initial. cbn.
  pose proof (byteLength_nonneg data).
  repeat split; try lia; try constructor. discriminate.
Qed.

Lemma sound_step (st : state) (obs : observation) :
  sound data chunkSize st ->
  sound data chunkSize (sendNextChunk data chunkSize st obs).
Proof.
  intros (Hpos & Hcat & Hall & Hcount & Hres). unfold sendNextChunk.
  destruct (Z.leb_spec size (currentPosition st)) as [Hend|Hmore].
  - unfold sound. cbn. repeat split; try assumption; try lia.
  - destruct (bufferedAmount obs >? bufferedAmountLowThreshold obs).
    + unfold sound. cbn. repeat split; try assumption; try lia.
    + set (end_ := Z.min (currentPosition st + chunkSize) size).
      assert (Hnext : currentPosition st < end_ <= size)
        by (unfold end_; lia).
      destruct (sendThrows obs) as [e|].
      * unfold sound. cbn. repeat split; try assumption; try lia.
        intros Hs. apply Hres. destruct (settled st); try discriminate.
        reflexivity.
      * assert (Hchunk : slice data (currentPosition st) end_
                         = firstn (Z.to_nat (end_ - currentPosition st))
                                  (skipn (Z.to_nat (currentPosition st)) data))
          by (unfold slice; apply subarray_exact; lia).
        assert (Hlen : byteLength (slice data (currentPosition st) end_)
                       = end_ - currentPosition st)
          by (unfold slice; apply subarray_length; lia).
        assert (Hcat' : concat (delivered st
                                ++ [slice data (currentPosition st) end_])
                        = firstn (Z.to_nat end_) data).
        { rewrite concat_app, Hcat, Hchunk. cbn [concat].
          rewrite app_nil_r.
          replace (Z.to_nat end_)
            with (Z.to_nat (currentPosition st)
                  + Z.to_nat (end_ - currentPosition st))%nat by lia.
          symmetry. apply firstn_plus. }
        assert (Hall' : Forall (fun c => 0 < byteLength c <= chunkSize)
                               (delivered st
                                ++ [slice data (currentPosition st) end_])).
        { apply Forall_app. split; [exact Hall|].
          constructor; [unfold end_ in *; lia | constructor]. }
        assert (Hcount' : sentChunks st + 1
                          = Z.of_nat (length (delivered st
                                              ++ [slice data (currentPosition st)
                                                         end_])))
          by (rewrite length_app; cbn [length]; lia).
        destruct (Z.leb_spec size end_) as [Hlast|Hrest];
          unfold sound; cbn [currentPosition delivered sentChunks settled];
          repeat split; try assumption; try lia.
        intros Hs. exfalso. apply Hres in Hs. lia.
Qed.

Lemma sound_run (observations : list observation) :
  forall st,
    sound data chunkSize st ->
    sound data chunkSize
          (fold_left (sendNextChunk data chunkSize) observations st).
Proof.
  induction observations as [|obs rest IH]; intros st Hst; cbn [fold_left].
  - exact Hst.
  - apply IH. now apply sound_step.
Qed.

(** Runs that find the channel clear move the position forward by one
    chunk each, and resolve when the end is reached. *)
Lemma clear_run (observations : list observation) :
  Forall clear observations ->
  forall st,
    0 <= currentPosition st <= size -> settled st <> Resolved ->
    (forall e, settled st <> RejectedWith e) ->
    let st' := fold_left (sendNextChunk data chunkSize) observations st in
    (forall e, settled st' <> RejectedWith e)
    /\ (observations <> [] ->
        size <= currentPosition st
                + Z.of_nat (length observations) * chunkSize ->
        settled st' = Resolved).
Proof.
  induction 1 as [|obs rest [Hbuf Hsend] _ IH]; intros st Hpos Hpending Hnorej.
  - cbn. split; [exact Hnorej|]. intros Hne. now contradiction Hne.
  - cbn [fold_left length].
    assert (Hp : settled st = Pending)
      by (destruct (settled st) as [| |e]; [reflexivity | contradiction |
                                            now destruct (Hnorej e)]).
    (* once resolved, every later run leaves the promise resolved *)
    assert (Hkeep : forall l st0,
               settled st0 = Resolved -> 0 <= currentPosition st0 <= size ->
               currentPosition st0 = size ->
               settled (fold_left (sendNextChunk data chunkSize) l st0)
               = Resolved).
    { induction l as [|o l IHl]; intros st0 Hs Hr Heq; [exact Hs|].
      cbn [fold_left]. apply IHl.
      - unfold sendNextChunk.
        destruct (Z.leb_spec size (currentPosition st0)); [|lia].
        cbn. now rewrite Hs.
      - unfold sendNextChunk.
        destruct (Z.leb_spec size (currentPosition st0)); [|lia].
        cbn. exact Hr.
      - unfold sendNextChunk.
        destruct (Z.leb_spec size (currentPosition st0)); [|lia].
        cbn. exact Heq. }
    unfold sendNextChunk at 2 4.
    destruct (Z.leb_spec size (currentPosition st)) as [Hend|Hmore].
    + rewrite Hp. cbn [settle].
      assert (Hres : settled (fold_left (sendNextChunk data chunkSize) rest
                                (mkState (currentPosition st) (sentChunks st)
                                   (handlerSet st) (timers st) Resolved
                                   (delivered st) (logged st)))
                     = Resolved)
        by (apply Hkeep; [reflexivity | cbn; lia | cbn; lia]).
      split; [intros e; rewrite Hres; discriminate | intros _ _; exact Hres].
    + destruct (Z.gtb_spec (bufferedAmount obs)
                           (bufferedAmountLowThreshold obs)) as [Hfull|_];
        [lia|].
      rewrite Hsend, Hp. cbn [settle].
      set (end_ := Z.min (currentPosition st + chunkSize) size).
      destruct (Z.leb_spec size end_) as [Hlast|Hrest].
      * match goal with
        | |- context [fold_left _ rest ?s] => set (st1 := s)
        end.
        assert (Hres : settled (fold_left (sendNextChunk data chunkSize)
                                  rest st1) = Resolved)
          by (apply Hkeep; unfold st1;
              [reflexivity | cbn; unfold end_ in *; lia
               | cbn; unfold end_ in *; lia]).
        split; [intros e; rewrite Hres; discriminate | intros _ _; exact Hres].
      * match goal with
        | |- context [fold_left _ rest ?s] => set (st1 := s)
        end.
        destruct (IH st1) as [Hnr Hdone].
        { unfold st1. cbn. unfold end_ in *. lia. }
        { unfold st1. cbn. discriminate. }
        { intros e. unfold st1. cbn. discriminate. }
        split; [exact Hnr|]. intros _ Henough. apply Hdone.
        -- destruct rest; [|discriminate]. exfalso.
           cbn [length] in Henough. unfold end_ in *. lia.
        -- unfold st1. cbn [currentPosition]. unfold end_ in *. lia.
Qed.

End ThrottledFacts.

Section ThrottledTheorems.
Import Js ThrottledSend.

(** X9: with a positive chunk size, whatever the channel's buffer shows,
    whenever its send throws, and in whatever order timers and
    buffered-amount-low events run [sendNextChunk], [throttledSend] delivers
    the data in order and at most once: the chunks accepted by the channel
    are always a prefix of the data, each non-empty and at most chunkSize
    long, and when the promise is resolved they are all of the data.  If
    every run finds the buffer at or below the mark and send never throws,
    the promise is resolved after ceil(fileSize / chunkSize) runs (one run
    for empty data). *)
Theorem X9_throttled_send_delivers_in_order (data : bytes) (chunkSize : Z)
        (observations : list observation) :
  0 < chunkSize ->
  let st := throttledSend data chunkSize observations in
  concat (delivered st) = firstn (Z.to_nat (currentPosition st)) data
  /\ 0 <= currentPosition st <= byteLength data
  /\ Forall (fun c => 0 < byteLength c <= chunkSize) (delivered st)
  /\ (settled st = Resolved -> concat (delivered st) = data)
  /\ (Forall clear observations -> observations <> [] ->
      byteLength data <= Z.of_nat (length observations) * chunkSize ->
      settled st = Resolved).
Proof.
  intros Hc st. subst st. unfold throttledSend.
  destruct (sound_run data chunkSize Hc observations initial
              (sound_initial data chunkSize))
    as (Hpos & Hcat & Hall & _ & Hres).
  split; [exact Hcat|]. split; [exact Hpos|]. split; [exact Hall|]. split.
  - intros Hs. rewrite Hcat, (Hres Hs).
    unfold byteLength. rewrite Nat2Z.id. apply firstn_all.
  - intros Hclear Hne Henough.
    destruct (clear_run data chunkSize Hc observations Hclear initial)
      as [_ Hdone]; try (cbn; discriminate).
    + cbn. pose proof (byteLength_nonneg data). lia.
    + apply Hdone; [exact Hne | cbn; lia].
Qed.

(** Five bytes in chunks of two: a full buffer on the second run delays
    the second chunk, and four runs deliver the data. *)
Lemma X9_witness_one_full_buffer :
  delivered (throttledSend [x01; x02; x03; x04; x05] 2
               [idle; mkObservation 70000 65536 None; idle; idle])
  = [[x01; x02]; [x03; x04]; [x05]]
  /\ (settled (throttledSend [x01; x02; x03; x04; x05] 2
                 [idle; mkObservation 70000 65536 None; idle; idle])
      = Resolved ->
      concat (delivered (throttledSend [x01; x02; x03; x04; x05] 2
                           [idle; mkObservation 70000 65536 None;
                            idle; idle]))
      = [x01; x02; x03; x04; x05]).
Proof.
  split; [reflexivity|].
  apply (X9_throttled_send_delivers_in_order [x01; x02; x03; x04; x05] 2
           [idle; mkObservation 70000 65536 None; idle; idle]).
  reflexivity.
Defined.

End ThrottledTheorems.

(** ** Channel set-up *)

Section FileChannelTheorems.
Import Js UniqueCode FileChannel.

Lemma calculateOptimalChunkSize_values (fileSize : Z) :
  (fileSize <= 1024 * 1024 * 1024 ->
   calculateOptimalChunkSize fileSize = 4194304
   \/ calculateOptimalChunkSize fileSize = 16777216)
  /\ (fileSize > 1024 * 1024 * 1024 ->
      calculateOptimalChunkSize fileSize = 67108864
      \/ calculateOptimalChunkSize fileSize = 134217728).
Proof.
  unfold calculateOptimalChunkSize.
  repeat match goal with
         | |- context [?a >? ?b] => destruct (Z.gtb_spec a b)
         end; split; intros; lia.
Qed.

(** X10: the channel that [createOptimizedFileChannel] sets up keeps the
    label; it is ordered exactly for files below 100 MiB and has
    maxRetransmits 0 exactly for files above 1 GiB, so an ordered channel
    always retransmits and a file above 1 GiB gets a channel that is
    neither ordered nor retransmitting; its low-water mark is at least
    16 MiB and never below the chunk size that
    [calculateOptimalChunkSize] gives for the file. *)
Theorem X10_file_channel_options (label : jsstring) (fileSize : Z) :
  let channel := createOptimizedFileChannel label fileSize in
  FileChannel.label channel = label
  /\ (ordered (options channel) = true <-> fileSize < 100 * 1024 * 1024)
  /\ (maxRetransmits (options channel) = 0 <-> fileSize > 1024 * 1024 * 1024)
  /\ (ordered (options channel) = true ->
      maxRetransmits (options channel) = 3)
  /\ 16 * 1024 * 1024 <= lowThreshold channel
  /\ calculateOptimalChunkSize fileSize <= lowThreshold channel.
Proof.
  pose proof (calculateOptimalChunkSize_values fileSize) as [Hlow Hhigh].
  unfold createOptimizedFileChannel, createDataChannel.
  destruct (Z.gtb_spec fileSize (1024 * 1024 * 1024)) as [Hbig|Hsmall];
    destruct (Z.ltb_spec fileSize (100 * 1024 * 1024)) as [Hlt|Hge];
    cbn [FileChannel.label options lowThreshold ordered maxRetransmits];
    repeat split; try intros; try lia; try discriminate; try reflexivity.
Qed.

(** A file of 2 GiB: unordered, no retransmission, mark at 64 MiB. *)
Lemma X10_witness_two_gibibytes :
  ordered (options (createOptimizedFileChannel (lit "file") 2147483648))
  = false
  /\ maxRetransmits
       (options (createOptimizedFileChannel (lit "file") 2147483648)) = 0
  /\ lowThreshold (createOptimizedFileChannel (lit "file") 2147483648)
     = 67108864.
Proof.
  destruct (X10_file_channel_options (lit "file") 2147483648)
    as (_ & _ & Hretransmits & _).
  split; [reflexivity|]. split; [|reflexivity].
  apply Hretransmits. reflexivity.
Defined.

(** X11: whatever the throughput probe measures,
    [measureNetworkAndOptimizeChunkSize] returns a chunk size between
    2 MiB and 128 MiB that is the size of [calculateOptimalChunkSize],
    its double or its half; when the probe fails it is that size
    unchanged. *)
Theorem X11_measured_chunk_size_bounds (fileSize : Z) (probe : measurement) :
  let tier := calculateOptimalChunkSize fileSize in
  let result := measureNetworkAndOptimizeChunkSize fileSize probe in
  2 * 1024 * 1024 <= result <= 128 * 1024 * 1024
  /\ (result = tier \/ result = 2 * tier \/ 2 * result = tier)
  /\ (probe = ProbeFailed -> result = tier).
Proof.
  pose proof (calculateOptimalChunkSize_values fileSize) as [Hlow Hhigh].
  unfold measureNetworkAndOptimizeChunkSize.
  destruct (Z.le_gt_cases fileSize (1024 * 1024 * 1024)) as [Hle|Hgt].
  - destruct (Hlow Hle) as [-> | ->];
      destruct probe as [|[|] [|]]; cbn; repeat split;
      try lia; try (intros; discriminate); auto.
  - destruct (Hhigh ltac:(lia)) as [-> | ->];
      destruct probe as [|[|] [|]]; cbn; repeat split;
      try lia; try (intros; discriminate); auto.
Qed.

(** A failed probe on a file of 2 GiB leaves 64 MiB. *)
Lemma X11_witness_failed_probe :
  measureNetworkAndOptimizeChunkSize 2147483648 ProbeFailed = 67108864.
Proof.
  apply (X11_measured_chunk_size_bounds 2147483648 ProbeFailed). reflexivity.
Defined.

End FileChannelTheorems.

(** ** base64url texts *)

Section Base64UrlFacts.
Import Js Base64 Base64Alphabet.

Open Scope N_scope.

(** The text that [encode] returns: the characters of the six-bit values,
    made URL-safe, without padding. *)
Lemma encode_body (s : jsstring) :
  forallb (fun c => c <=? 255) s = true ->
  encode s = Returns (map (fun v => urlSafe (base64Char v)) (sextets s)).
Proof.
  intros Hs. unfold encode, btoa. rewrite Hs. cbn [bind].
  apply latin1_bytes in Hs. pose proof (sextets_bounded s Hs) as Hv.
  rewrite replaceAll_urlSafe, map_app, map_map.
  assert (Hpad : map urlSafe (padding s) = padding s)
    by (destruct (padding_cases s) as [-> | [-> | ->]]; reflexivity).
  rewrite Hpad. f_equal.
  unfold removeTrailingEquals. rewrite rev_app_distr.
  rewrite dropLeading_run; [apply rev_involutive | |].
  - apply Forall_rev.
    destruct (padding_cases s) as [-> | [-> | ->]]; repeat constructor.
  - intros x r Hr.
    assert (Hin : In x (map (fun v => urlSafe (base64Char v)) (sextets s)))
      by (apply in_rev; rewrite Hr; now left).
    apply in_map_iff in Hin as (v & <- & Hin).
    apply (proj1 (Forall_forall _ _) Hv) in Hin.
    now apply base64Char_plain.
Qed.

Lemma sextets_length (l : list N) :
  length (sextets l) = ((4 * length l + 2) / 3)%nat.
Proof.
  induction l as [| a | a b | a b c l IH] using list_ind3.
  - reflexivity.
  - reflexivity.
  - reflexivity.
  - cbn [sextets length]. rewrite IH.
    replace (4 * S (S (S (length l))) + 2)%nat
      with (4 * length l + 2 + 4 * 3)%nat by lia.
    rewrite Nat.div_add by lia. lia.
Qed.

Lemma urlSafe_base64Char (v : N) :
  v < 64 -> urlSafeChar (urlSafe (base64Char v))
            /\ urlUnsafe (base64Char v) = base64Char v.
Proof.
  intros Hv.
  pose proof (check_sextets
                (fun v => let c := urlSafe (base64Char v) in
                          ((65 <=? c) && (c <=? 90)
                           || (97 <=? c) && (c <=? 122)
                           || (48 <=? c) && (c <=? 57)
                           || (c =? 45) || (c =? 95))
                          && (urlUnsafe (base64Char v) =? base64Char v))
                eq_refl v Hv) as H.
  cbv beta zeta in H. apply andb_prop in H as [H Hsame].
  split; [|now apply N.eqb_eq]. unfold urlSafeChar.
  repeat (apply orb_prop in H as [H|H]);
    try (apply andb_prop in H as [H1 H2];
         apply N.leb_le in H1; apply N.leb_le in H2);
    try apply N.eqb_eq in H; lia.
Qed.

Lemma padLoop_keeps (c : N) (fuel : nat) :
  forall s, In c s -> In c (padLoop fuel s).
Proof.
  induction fuel as [|fuel IH]; intros s Hc; cbn [padLoop];
    destruct (length s mod 4 =? 0)%nat; try exact Hc.
  apply IH. apply in_or_app. now left.
Qed.

Lemma stripPadding_keeps (c : N) (s : jsstring) :
  c <> equalsSign -> In c s -> In c (stripPadding s).
Proof.
  intros Hne Hc. unfold stripPadding.
  destruct (length s mod 4 =? 0)%nat; [|exact Hc].
  destruct (rev s) as [|x [|y r]] eqn:Hr; [exact Hc | |].
  - destruct (N.eqb_spec x equalsSign) as [->|_]; [|exact Hc].
    apply in_rev in Hc. rewrite Hr in Hc.
    destruct Hc as [Hc|[]]. now symmetry in Hc.
  - apply in_rev in Hc. rewrite Hr in Hc.
    destruct (N.eqb_spec x equalsSign) as [->|Hx];
      [|apply in_rev; rewrite Hr; exact Hc].
    destruct Hc as [Hc|Hc]; [now symmetry in Hc|].
    destruct (N.eqb_spec y equalsSign) as [->|Hy].
    + destruct Hc as [Hc|Hc]; [now symmetry in Hc|].
      now apply in_rev in Hc.
    + apply in_rev. now rewrite rev_involutive.
Qed.

Lemma traverse_fails {A B : Type} (f : A -> option B) (l : list A) (x : A) :
  In x l -> f x = None -> traverse f l = None.
Proof.
  induction l as [|y l IH]; intros Hin Hx; [contradiction|].
  cbn [traverse]. destruct Hin as [->|Hin].
  - now rewrite Hx.
  - rewrite (IH Hin Hx). now destruct (f y).
Qed.

(** A foreign character makes [decode] throw. *)
Lemma decode_foreign (s : jsstring) (c : N) :
  In c s -> foreignChar c -> decode s = Throws InvalidCharacterError.
Proof.
  intros Hin (Hval & H45 & H95 & Heq & Hws). unfold decode, atob.
  rewrite replaceAll_urlUnsafe.
  assert (Hc : urlUnsafe c = c).
  { unfold urlUnsafe.
    destruct (N.eqb_spec c 45) as [E|_]; [contradiction|].
    destruct (N.eqb_spec c 95) as [E|_]; [contradiction|]. reflexivity. }
  assert (Hdata : In c (stripPadding
                          (filter (fun c => negb (isAsciiWhitespace c))
                                  (padLoop 3 (map urlUnsafe s))))).
  { apply stripPadding_keeps; [exact Heq|].
    apply filter_In. split; [|now rewrite Hws].
    apply padLoop_keeps. rewrite <- Hc. now apply in_map. }
  now rewrite (traverse_fails _ _ c Hdata Hval).
Qed.

End Base64UrlFacts.

Section Base64UrlTheorems.
Import Js Base64 Base64Alphabet UniqueCode.

(** X12: [base64url.encode] returns a text exactly for the strings that
    have no code unit above 255 and throws an InvalidCharacterError for
    every other string; [base64url.decode] of the text it returns is the
    string. *)
Theorem X12_base64url_roundtrip (s : jsstring) :
  (latin1 s -> exists code, encode s = Returns code)
  /\ (~ latin1 s -> encode s = Throws InvalidCharacterError)
  /\ (forall code, encode s = Returns code -> decode code = Returns s).
Proof.
  split; [|split].
  - intros Hs. eexists. apply encode_body.
    apply forallb_forall. intros c Hc. apply N.leb_le.
    exact (proj1 (Forall_forall _ _) Hs c Hc).
  - intros Hs. unfold encode, btoa.
    destruct (forallb _ s) eqn:E; [|reflexivity].
    exfalso. apply Hs. apply Forall_forall. intros c Hc.
    apply (proj1 (forallb_forall _ _) E) in Hc. now apply N.leb_le.
  - apply decode_encode.
Qed.

(** The text of three bytes with the values 251, 255, 254 is decoded to
    them. *)
Lemma X12_witness_three_high_bytes :
  exists code,
    encode [251%N; 255%N; 254%N] = Returns code
    /\ decode code = Returns [251%N; 255%N; 254%N].
Proof.
  destruct (X12_base64url_roundtrip [251%N; 255%N; 254%N])
    as (Hret & _ & Hback).
  destruct Hret as [code Hcode].
  - repeat constructor; discriminate.
  - exists code. split; [exact Hcode | exact (Hback code Hcode)].
Defined.

(** X13: a text that [base64url.encode] returns has only characters of
    A-Z, a-z, 0-9, [-] and [_] (no [+], [/] or [=]), and its length is
    ceil(4 n / 3) for a string of n characters. *)
Theorem X13_base64url_text_is_url_safe (s code : jsstring) :
  encode s = Returns code ->
  Forall urlSafeChar code
  /\ length code = ((4 * length s + 2) / 3)%nat.
Proof.
  intros Henc.
  assert (Hs : forallb (fun c => (c <=? 255)%N) s = true).
  { unfold encode, btoa in Henc. now destruct (forallb _ s). }
  rewrite (encode_body s Hs) in Henc. injection Henc as <-.
  split.
  - apply Forall_map.
    eapply Forall_impl; [|exact (sextets_bounded s (latin1_bytes s Hs))].
    intros v Hv. now apply urlSafe_base64Char.
  - rewrite length_map. apply sextets_length.
Qed.

(** The bytes 251, 255, 254 give [-__-], four characters. *)
Lemma X13_witness_three_high_bytes :
  Forall urlSafeChar (lit "-__-") /\ length (lit "-__-") = 4%nat.
Proof.
  apply (X13_base64url_text_is_url_safe [251%N; 255%N; 254%N] (lit "-__-")).
  reflexivity.
Defined.

(** X14: [base64url.decode] throws an InvalidCharacterError on every
    string that holds a character outside the base64 alphabet other than
    [-], [_], [=] and ASCII whitespace. *)
Theorem X14_base64url_decode_rejects_foreign (s : jsstring) (c : N) :
  In c s -> foreignChar c -> decode s = Throws InvalidCharacterError.
Proof. apply decode_foreign. Qed.

(** An exclamation mark among valid characters. *)
Lemma X14_witness_exclamation_mark :
  decode (lit "eyJz!g") = Throws InvalidCharacterError.
Proof.
  apply (X14_base64url_decode_rejects_foreign (lit "eyJz!g") 33%N).
  - cbn. tauto.
  - repeat split; discriminate.
Defined.

(** X15: [base64url.decode] also reads standard base64: it returns s for
    the text that [btoa] gives for s, with its [+], [/] and padding. *)
Theorem X15_base64url_decode_reads_standard (s base64 : jsstring) :
  btoa s = Returns base64 -> decode base64 = Returns s.
Proof.
  intros Hb. pose proof Hb as Hbtoa. unfold btoa in Hb.
  destruct (forallb _ s) eqn:Hs; [|discriminate]. injection Hb as Hb.
  apply latin1_bytes in Hs. pose proof (sextets_bounded s Hs) as Hv.
  unfold decode. rewrite replaceAll_urlUnsafe.
  assert (Hsame : map urlUnsafe base64 = base64).
  { rewrite <- Hb, map_app, map_map. f_equal.
    - apply map_ext_in. intros v Hin.
      apply (proj1 (Forall_forall _ _) Hv) in Hin.
      now apply urlSafe_base64Char.
    - destruct (padding_cases s) as [-> | [-> | ->]]; reflexivity. }
  rewrite Hsame.
  assert (Hpad : padLoop 3 base64 = base64).
  { cbn [padLoop]. rewrite <- Hb, padded_length. reflexivity. }
  rewrite Hpad. now apply atob_btoa.
Qed.

(** The standard text [+//+] of the bytes 251, 255, 254. *)
Lemma X15_witness_plus_and_slash :
  decode (lit "+//+") = Returns [251%N; 255%N; 254%N].
Proof.
  apply (X15_base64url_decode_reads_standard [251%N; 255%N; 254%N]
           (lit "+//+")).
  reflexivity.
Defined.

End Base64UrlTheorems.

(** ** Codes of other shapes *)

Section MoreCodeTheorems.
Import Js UniqueCode HighPerformance Base64Alphabet.

(** What [parseUniqueCode] reads from any object of string members that
    was stringified and encoded. *)
Lemma parse_encoded_data (data : list (jsstring * jsstring)) (code : jsstring) :
  Base64.encode (Json.stringify data) = Returns code ->
  parseUniqueCode code = parseData data.
Proof.
  intros Henc. unfold parseUniqueCode.
  now rewrite (decode_encode _ _ Henc), parse_stringify.
Qed.

(** X16: every code that [generateHighPerformanceCode] returns is parsed
    by [parseUniqueCode] to the SDP it was given, its ICE server and
    public key (an empty or missing one as undefined), the chunk size
    134217728 and highPerformance true. *)
Theorem X16_high_performance_code_roundtrip
        (sdp : jsstring) (options : CodeOptions) (code : jsstring) :
  generateHighPerformanceCode sdp options = Returns code ->
  parseUniqueCode code
  = Parsed {| UniqueCode.sdp := Some sdp;
              iceServer := truthy (hpIceServer options);
              chunkSize := Num 134217728;
              publicKey := truthy (hpPublicKey options);
              highPerformance := true |}.
Proof.
  unfold generateHighPerformanceCode. intros Hgen.
  rewrite (parse_generate _ _ _ Hgen), parseData_codeData. reflexivity.
Qed.

(** A code for the sample SDP and a STUN server. *)
Lemma X16_witness_sample_sdp :
  exists code,
    generateHighPerformanceCode sampleSdp
      (mkCodeOptions (Some (lit "stun:stun.l.google.com:19302")) None)
    = Returns code
    /\ parseUniqueCode code
       = Parsed {| UniqueCode.sdp := Some sampleSdp;
                   iceServer := Some (lit "stun:stun.l.google.com:19302");
                   chunkSize := Num 134217728;
                   publicKey := None;
                   highPerformance := true |}.
Proof.
  destruct (generate_returns sampleSdp
              (mkOptions (Some (lit "stun:stun.l.google.com:19302"))
                         (Some 134217728) None (Some true)))
    as [code Hcode].
  - cbv. repeat constructor; discriminate.
  - cbv. repeat constructor; discriminate.
  - exact I.
  - exists code. split; [exact Hcode|].
    exact (X16_high_performance_code_roundtrip sampleSdp
             (mkCodeOptions (Some (lit "stun:stun.l.google.com:19302")) None)
             code Hcode).
Defined.

(** X17: [shouldUseHighPerformanceMode] holds exactly when
    [calculateOptimalChunkSize] is above 16 MiB; so a code generated with
    the chunk size and the flag that these two functions give for a file
    size is parsed to exactly that chunk size and that flag. *)
Theorem X17_file_options_roundtrip (fileSize : Z) :
  (shouldUseHighPerformanceMode fileSize = true
   <-> calculateOptimalChunkSize fileSize > 16777216)
  /\ (forall sdp iceServer publicKey code,
        generateUniqueCode sdp (optionsForFile iceServer publicKey fileSize)
        = Returns code ->
        parseUniqueCode code
        = Parsed {| UniqueCode.sdp := Some sdp;
                    UniqueCode.iceServer := truthy iceServer;
                    chunkSize := Num (calculateOptimalChunkSize fileSize);
                    UniqueCode.publicKey := truthy publicKey;
                    highPerformance :=
                      shouldUseHighPerformanceMode fileSize |}).
Proof.
  assert (Hiff : shouldUseHighPerformanceMode fileSize
                 = (calculateOptimalChunkSize fileSize >? 16777216)).
  { destruct (calculateOptimalChunkSize_values fileSize) as [Hlow Hhigh].
    unfold shouldUseHighPerformanceMode.
    destruct (Z.gtb_spec fileSize (1024 * 1024 * 1024)) as [Hgt|Hle].
    - destruct Hhigh as [-> | ->]; [lia | reflexivity | reflexivity].
    - destruct (Hlow Hle) as [-> | ->]; reflexivity. }
  split.
  - rewrite Hiff. split; intros H; [apply Z.gtb_lt in H; lia|].
    apply Z.gtb_lt. lia.
  - intros sdp iceServer publicKey code Hgen.
    rewrite (parse_generate _ _ _ Hgen), parseData_codeData.
    unfold optionsForFile, effectiveChunkSize, requestedHighPerformance.
    cbn [optIceServer optChunkSize optPublicKey optHighPerformance].
    assert (Hnz : (calculateOptimalChunkSize fileSize =? 0) = false).
    { apply Z.eqb_neq. unfold calculateOptimalChunkSize.
      repeat match goal with
             | |- context [?a >? ?b] => destruct (a >? b)
             end; discriminate. }
    rewrite Hnz, <- Hiff.
    now destruct (shouldUseHighPerformanceMode fileSize).
Qed.

(** A file of 500 MiB: chunk size 16 MiB and no high-performance flag,
    before and after the code. *)
Lemma X17_witness_500_mebibytes :
  exists code,
    generateUniqueCode sampleSdp (optionsForFile None None 524288000)
    = Returns code
    /\ parseUniqueCode code
       = Parsed {| UniqueCode.sdp := Some sampleSdp;
                   UniqueCode.iceServer := None;
                   chunkSize := Num 16777216;
                   UniqueCode.publicKey := None;
                   highPerformance := false |}.
Proof.
  destruct (generate_returns sampleSdp (optionsForFile None None 524288000))
    as [code Hcode].
  - cbv. repeat constructor; discriminate.
  - exact I.
  - exact I.
  - exists code. split; [exact Hcode|].
    destruct (X17_file_options_roundtrip 524288000) as [_ Hparse].
    exact (Hparse sampleSdp None None code Hcode).
Defined.

(** X18: [parseUniqueCode] throws 'Invalid code format' on every code that
    holds a character outside the base64 alphabet other than [-], [_],
    [=] and ASCII whitespace. *)
Theorem X18_parse_rejects_foreign_character (code : jsstring) (c : N) :
  In c code -> foreignChar c -> parseUniqueCode code = InvalidCodeFormat.
Proof.
  intros Hin Hc. unfold parseUniqueCode.
  now rewrite (decode_foreign code c Hin Hc).
Qed.

(** A dot inside a code. *)
Lemma X18_witness_dot_in_code :
  parseUniqueCode (lit "eyJzIjoi.dj0wIn0") = InvalidCodeFormat.
Proof.
  apply (X18_parse_rejects_foreign_character (lit "eyJzIjoi.dj0wIn0") 46%N).
  - cbn. tauto.
  - repeat split; discriminate.
Defined.

(** X19: [parseUniqueCode] checks no member of the decoded object: for the
    code of any object of string members whose member c is missing or
    empty it returns the chunk size 67108864 and a highPerformance that
    is true exactly when h is "1", with sdp, iceServer and publicKey as
    found, undefined when missing. *)
Theorem X19_parse_fills_missing_members
        (data : list (jsstring * jsstring)) (code : jsstring) :
  Base64.encode (Json.stringify data) = Returns code ->
  truthy (Json.getProperty data (lit "c")) = None ->
  parseUniqueCode code
  = Parsed {| UniqueCode.sdp := Json.getProperty data (lit "s");
              iceServer := truthy (Json.getProperty data (lit "i"));
              chunkSize := Num 67108864;
              publicKey := truthy (Json.getProperty data (lit "p"));
              highPerformance :=
                match Json.getProperty data (lit "h") with
                | Some str => Json.jsstring_eqb str (lit "1")
                | None => false
                end |}.
Proof.
  intros Henc Hc. rewrite (parse_encoded_data _ _ Henc).
  unfold parseData. rewrite Hc.
  assert (Hgt : greaterThan (Json.getProperty data (lit "c")) 16777216
                = Some false).
  { destruct (Json.getProperty data (lit "c")) as [[|x str]|];
      [reflexivity | discriminate Hc | reflexivity]. }
  rewrite Hgt.
  destruct (Json.getProperty data (lit "h")) as [h|]; [|reflexivity].
  now destruct (Json.jsstring_eqb h (lit "1")).
Qed.

(** The code [e30] of the empty object. *)
Lemma X19_witness_empty_object :
  parseUniqueCode (lit "e30")
  = Parsed {| UniqueCode.sdp := None;
              iceServer := None;
              chunkSize := Num 67108864;
              publicKey := None;
              highPerformance := false |}.
Proof.
  apply (X19_parse_fills_missing_members [] (lit "e30")); reflexivity.
Defined.

End MoreCodeTheorems.

(** ** Buffers as base64 *)

Section CryptoEncodingFacts.
Import Js Base64 CryptoEncoding.
Local Open Scope Z_scope.

Lemma fromCharCode_latin1 (b : bytes) :
  forallb (fun c => (c <=? 255)%N) (fromCharCode b) = true.
Proof.
  apply forallb_forall. intros c Hc. unfold fromCharCode in Hc.
  apply in_map_iff in Hc as (x & <- & _). apply N.leb_le.
  apply Byte.to_N_bounded.
Qed.

Lemma fromCharCode_bytes (b : bytes) :
  map (fun c => byte_of_Z (Z.of_N c)) (fromCharCode b) = b.
Proof.
  unfold fromCharCode. rewrite map_map. rewrite <- (map_id b) at 2.
  apply map_ext. intros x. unfold byte_of_Z.
  pose proof (Byte.to_N_bounded x).
  rewrite Z.mod_small by lia. rewrite N2Z.id.
  now rewrite Byte.of_to_N.
Qed.

(** The strings of the chunks, joined, are the string of the buffer. *)
Lemma chunkStrings_joined (view : bytes) (chunkSize : Z) (fuel : nat) :
  forall (i : Z) (acc : list jsstring),
    0 < chunkSize -> 0 <= i <= byteLength view ->
    byteLength view - i < Z.of_nat fuel ->
    exists strings,
      chunkStrings fuel view chunkSize i acc = Some (acc ++ strings)
      /\ concat strings = fromCharCode (skipn (Z.to_nat i) view).
Proof.
  induction fuel as [|fuel IH]; intros i acc Hc Hi Hf.
  - exfalso. lia.
  - cbn [chunkStrings]. destruct (i <? byteLength view) eqn:E.
    + apply Z.ltb_lt in E.
      set (stop := Z.min (i + chunkSize) (byteLength view)).
      assert (Hchunk : subarray view i (i + chunkSize)
                       = firstn (Z.to_nat (stop - i))
                                (skipn (Z.to_nat i) view)).
      { unfold subarray, window. rewrite range_inside by lia.
        reflexivity. }
      rewrite Hchunk.
      destruct (Z.le_gt_cases (byteLength view) (i + chunkSize))
        as [Hend|Hmore].
      * exists [fromCharCode (firstn (Z.to_nat (stop - i))
                                     (skipn (Z.to_nat i) view))].
        split.
        -- destruct fuel; cbn [chunkStrings];
             destruct (i + chunkSize <? byteLength view) eqn:E';
             (lia || reflexivity).
        -- cbn [concat]. rewrite app_nil_r. f_equal.
           apply firstn_all2. rewrite length_skipn.
           unfold stop, byteLength in *. lia.
      * destruct (IH (i + chunkSize)
                     (acc ++ [fromCharCode
                                (firstn (Z.to_nat (stop - i))
                                        (skipn (Z.to_nat i) view))]))
          as (strings & Hrun & Hjoin); try lia.
        eexists (_ :: strings). rewrite Hrun, <- app_assoc.
        split; [reflexivity|]. cbn [concat]. rewrite Hjoin.
        unfold fromCharCode. rewrite <- map_app. f_equal.
        replace (Z.to_nat (i + chunkSize))
          with (Z.to_nat (stop - i) + Z.to_nat i)%nat
          by (unfold stop; lia).
        rewrite <- skipn_skipn. apply firstn_skipn.
    + apply Z.ltb_ge in E. exists []. rewrite app_nil_r.
      split; [reflexivity|]. cbn [concat].
      rewrite skipn_all2 by (unfold byteLength in *; lia). reflexivity.
Qed.

(** Both branches of [arrayBufferToBase64] give [btoa] of the string of
    the bytes. *)
Lemma arrayBufferToBase64_btoa (buffer : bytes) :
  arrayBufferToBase64 buffer = Some (btoa (fromCharCode buffer)).
Proof.
  unfold arrayBufferToBase64.
  destruct (byteLength buffer >? 1024 * 1024); [|reflexivity].
  destruct (chunkStrings_joined buffer stringChunk (S (length buffer)) 0 [])
    as (strings & Hrun & Hjoin);
    try (unfold stringChunk, byteLength; lia).
  rewrite Hrun. cbn [app]. rewrite Hjoin. reflexivity.
Qed.

Lemma btoa_fromCharCode (buffer : bytes) :
  exists base64, btoa (fromCharCode buffer) = Returns base64.
Proof. unfold btoa. rewrite fromCharCode_latin1. eexists. reflexivity. Qed.

Lemma base64ToArrayBuffer_btoa (buffer : bytes) (base64 : jsstring) :
  btoa (fromCharCode buffer) = Returns base64 ->
  base64ToArrayBuffer base64 = Returns buffer.
Proof.
  intros Hb. unfold base64ToArrayBuffer. rewrite (atob_btoa _ _ Hb).
  cbn [bind]. now rewrite fromCharCode_bytes.
Qed.

End CryptoEncodingFacts.

Section ArgumentLimitFacts.
Import Js Base64 CryptoEncoding.
Local Open Scope Z_scope.

Variable argumentLimit : Z.

(** With a limit of at least the chunk size, the loop gives the strings of
    the loop without a limit. *)
Lemma chunkStrings_within (view : bytes) (chunkSize : Z) (fuel : nat) :
  forall (i : Z) (acc : list jsstring),
    0 < chunkSize <= argumentLimit -> 0 <= i <= byteLength view ->
    ArgumentLimit.chunkStrings argumentLimit fuel view chunkSize i acc
    = option_map Returns (chunkStrings fuel view chunkSize i acc).
Proof.
  induction fuel as [|fuel IH]; intros i acc Hc Hi;
    cbn [ArgumentLimit.chunkStrings chunkStrings];
    destruct (i <? byteLength view) eqn:E; try reflexivity.
  apply Z.ltb_lt in E.
  assert (Hlen : byteLength (subarray view i (i + chunkSize))
                 <= chunkSize).
  { unfold subarray, window. rewrite range_inside by lia. cbn [fst snd].
    unfold byteLength. rewrite length_firstn. lia. }
  unfold ArgumentLimit.fromCharCodeApply.
  destruct (Z.gtb_spec (byteLength (subarray view i (i + chunkSize)))
              argumentLimit) as [Hover|_]; [lia|].
  destruct (Z.le_gt_cases (byteLength view) (i + chunkSize)) as [Hend|Hmore].
  - destruct fuel; cbn [ArgumentLimit.chunkStrings chunkStrings];
      destruct (i + chunkSize <? byteLength view) eqn:E';
      (lia || reflexivity).
  - apply IH; lia.
Qed.

(** A buffer within the limit, or a buffer above 1 MiB when the limit is
    at least 1 MiB: the function is the one without a limit. *)
Lemma arrayBufferToBase64_within (buffer : bytes) :
  (if byteLength buffer >? 1024 * 1024
   then 1024 * 1024 <= argumentLimit
   else byteLength buffer <= argumentLimit) ->
  ArgumentLimit.arrayBufferToBase64 argumentLimit buffer
  = Some (btoa (fromCharCode buffer)).
Proof.
  intros Hfits. rewrite <- arrayBufferToBase64_btoa.
  unfold ArgumentLimit.arrayBufferToBase64, arrayBufferToBase64.
  destruct (byteLength buffer >? 1024 * 1024).
  - rewrite chunkStrings_within
      by (unfold stringChunk, byteLength; lia).
    now destruct (chunkStrings _ _ _ _ _).
  - unfold ArgumentLimit.fromCharCodeApply.
    destruct (Z.gtb_spec (byteLength buffer) argumentLimit); [lia|].
    reflexivity.
Qed.

(** Otherwise the first call of [apply] has too many arguments. *)
Lemma arrayBufferToBase64_beyond (buffer : bytes) :
  (if byteLength buffer >? 1024 * 1024
   then argumentLimit < 1024 * 1024
   else argumentLimit < byteLength buffer) ->
  ArgumentLimit.arrayBufferToBase64 argumentLimit buffer
  = Some (Throws RangeError).
Proof.
  intros Hover. unfold ArgumentLimit.arrayBufferToBase64.
  destruct (Z.gtb_spec (byteLength buffer) (1024 * 1024)) as [Hlarge|Hsmall].
  - cbn [ArgumentLimit.chunkStrings].
    destruct (Z.ltb_spec 0 (byteLength buffer)); [|lia].
    assert (Hlen : byteLength (subarray buffer 0 (0 + stringChunk))
                   = stringChunk).
    { unfold subarray, window, stringChunk in *.
      rewrite range_inside by lia. cbn [fst snd].
      unfold byteLength in *. rewrite length_firstn.
      cbn [Z.to_nat skipn]. lia. }
    unfold ArgumentLimit.fromCharCodeApply. rewrite Hlen.
    unfold stringChunk.
    destruct (Z.gtb_spec (1024 * 1024) argumentLimit); [reflexivity|lia].
  - unfold ArgumentLimit.fromCharCodeApply.
    destruct (Z.gtb_spec (byteLength buffer) argumentLimit); [reflexivity|lia].
Qed.

End ArgumentLimitFacts.

Section CryptoEncodingTheorems.
Import Js Base64 CryptoEncoding.
Local Open Scope Z_scope.

(** X20: on an engine that takes at most [argumentLimit] arguments in a
    call, [arrayBufferToBase64] returns for a buffer of at most 1 MiB
    exactly when the buffer has no more bytes than the limit, and for a
    buffer above 1 MiB exactly when the limit is at least 1048576, the
    size of its chunks; otherwise it throws the RangeError of
    [fromCharCode.apply].  When it returns, the text is the base64 text
    of the bytes, the same from both branches, and [base64ToArrayBuffer]
    of that text returns the buffer. *)
Theorem X20_buffer_base64_roundtrip (argumentLimit : Z) (buffer : bytes) :
  ((if byteLength buffer >? 1024 * 1024
    then 1024 * 1024 <= argumentLimit
    else byteLength buffer <= argumentLimit) ->
   exists base64,
     ArgumentLimit.arrayBufferToBase64 argumentLimit buffer
     = Some (Returns base64)
     /\ btoa (fromCharCode buffer) = Returns base64
     /\ base64ToArrayBuffer base64 = Returns buffer)
  /\ ((if byteLength buffer >? 1024 * 1024
       then argumentLimit < 1024 * 1024
       else argumentLimit < byteLength buffer) ->
      ArgumentLimit.arrayBufferToBase64 argumentLimit buffer
      = Some (Throws RangeError)).
Proof.
  split.
  - intros Hfits. destruct (btoa_fromCharCode buffer) as [base64 Hb].
    exists base64. split; [|split; [exact Hb|]].
    + now rewrite arrayBufferToBase64_within, Hb.
    + now apply base64ToArrayBuffer_btoa.
  - apply arrayBufferToBase64_beyond.
Qed.

(** Three bytes on an engine that takes 65536 arguments, and on one that
    takes two. *)
Lemma X20_witness_three_bytes :
  (exists base64,
      ArgumentLimit.arrayBufferToBase64 65536 [x00; x01; x02]
      = Some (Returns base64)
      /\ btoa (fromCharCode [x00; x01; x02]) = Returns base64
      /\ base64ToArrayBuffer base64 = Returns [x00; x01; x02])
  /\ ArgumentLimit.arrayBufferToBase64 2 [x00; x01; x02]
     = Some (Throws RangeError).
Proof.
  split.
  - apply (X20_buffer_base64_roundtrip 65536 [x00; x01; x02]).
    cbv. discriminate.
  - apply (X20_buffer_base64_roundtrip 2 [x00; x01; x02]).
    reflexivity.
Defined.

End CryptoEncodingTheorems.

(** ** The envelope of a ciphertext *)

Section EnvelopeFormat.
Import Js Crypto.

Variable CryptoKey : Type.
Variable gcmEncrypt : CryptoKey -> bytes -> bytes -> bytes.
Variable gcmDecrypt : CryptoKey -> bytes -> bytes -> outcome bytes.
Variable key : CryptoKey.
Variable iv : bytes.

(** The loop of the chunked branch encrypts, under the one IV, the
    consecutive pieces of at most [chunkSize] bytes of the data. *)
Lemma encryptLoop_pieces (data : bytes) (chunkSize : Z) (fuel : nat) :
  forall (offset : Z) (acc : list bytes),
    0 < chunkSize -> 0 <= offset <= byteLength data ->
    byteLength data - offset < Z.of_nat fuel ->
    exists pieces,
      encryptLoop CryptoKey gcmEncrypt key iv fuel data chunkSize offset acc
      = Some (acc ++ map (gcmEncrypt key iv) pieces)
      /\ concat pieces = skipn (Z.to_nat offset) data
      /\ Forall (fun piece => 0 < byteLength piece <= chunkSize) pieces
      /\ Z.of_nat (length pieces)
         = (byteLength data - offset + chunkSize - 1) / chunkSize.
Proof.
  induction fuel as [|fuel IH]; intros offset acc Hc Ho Hf.
  - exfalso. lia.
  - cbn [encryptLoop]. destruct (offset <? byteLength data) eqn:E.
    + apply Z.ltb_lt in E.
      set (stop := Z.min (offset + chunkSize) (byteLength data)).
      assert (Hpiece : subarray data offset stop
                       = firstn (Z.to_nat (stop - offset))
                                (skipn (Z.to_nat offset) data))
        by (apply subarray_exact; unfold stop; lia).
      assert (Hlen : byteLength (subarray data offset stop) = stop - offset)
        by (apply subarray_length; unfold stop; lia).
      destruct (Z.le_gt_cases (byteLength data) (offset + chunkSize))
        as [Hend|Hmore].
      * exists [subarray data offset stop]. split; [|split; [|split]].
        -- destruct fuel; cbn [encryptLoop];
             destruct (offset + chunkSize <? byteLength data) eqn:E';
             (lia || reflexivity).
        -- cbn [concat]. rewrite app_nil_r, Hpiece.
           apply firstn_all2. rewrite length_skipn.
           unfold stop, byteLength in *. lia.
        -- constructor; [|constructor]. rewrite Hlen. unfold stop. lia.
        -- cbn [length].
           apply Z.div_unique with (r := byteLength data - offset - 1); lia.
      * destruct (IH (offset + chunkSize)
                     (acc ++ [gcmEncrypt key iv (subarray data offset stop)]))
          as (pieces & Hrun & Hcat & Hall & Hcount); try lia.
        exists (subarray data offset stop :: pieces).
        split; [|split; [|split]].
        -- rewrite Hrun, <- app_assoc. reflexivity.
        -- cbn [concat]. rewrite Hcat, Hpiece.
           replace (Z.to_nat (offset + chunkSize))
             with (Z.to_nat (stop - offset) + Z.to_nat offset)%nat
             by (unfold stop; lia).
           rewrite <- skipn_skipn. apply firstn_skipn.
        -- constructor; [|exact Hall]. rewrite Hlen. unfold stop. lia.
        -- cbn [length]. rewrite Nat2Z.inj_succ, Hcount.
           replace (byteLength data - offset + chunkSize - 1)
             with (byteLength data - (offset + chunkSize) + chunkSize - 1
                   + 1 * chunkSize) by lia.
           rewrite Z.div_add by lia. lia.
    + apply Z.ltb_ge in E. exists []. rewrite app_nil_r.
      split; [reflexivity|]. split; [|split].
      * cbn [concat]. rewrite skipn_all2 by (unfold byteLength in *; lia).
        reflexivity.
      * constructor.
      * cbn [length]. symmetry. apply Z.div_small. lia.
Qed.

(** X21: a message of at most [chunkSize] bytes is enveloped as the IV
    followed by one ciphertext, IV length + len + 16 bytes in all, and
    [decryptAesGcmOptimized] of that envelope, with any threshold of its
    own, returns the message (for a twelve-byte IV and a cipher whose
    decryption inverts its encryption, as AES-GCM does). *)
Theorem X21_small_message_roundtrip
        (gcm_encrypt_length :
           forall k v m, byteLength (gcmEncrypt k v m) = byteLength m + 16)
        (gcm_decrypt_encrypt :
           forall k v m, gcmDecrypt k v (gcmEncrypt k v m) = Returns m)
        (iv_length : byteLength iv = 12)
        (message : bytes) (chunkSize decryptChunkSize : Z) :
  byteLength message <= chunkSize ->
  exists envelope,
    encryptAesGcmOptimized CryptoKey gcmEncrypt key iv message chunkSize
    = Some (Returns envelope)
    /\ envelope = iv ++ gcmEncrypt key iv message
    /\ byteLength envelope = 12 + byteLength message + 16
    /\ decryptAesGcmOptimized CryptoKey gcmDecrypt key envelope
                              decryptChunkSize
       = Returns message.
Proof.
  intros Hsmall. exists (iv ++ gcmEncrypt key iv message).
  split; [|split; [reflexivity|split]].
  - now apply direct_envelope.
  - rewrite byteLength_app, gcm_encrypt_length, iv_length. lia.
  - rewrite (decrypt_envelope CryptoKey gcmDecrypt key iv iv_length).
    apply gcm_decrypt_encrypt.
Qed.

(** X22: a message longer than a positive [chunkSize] is enveloped as the
    IV followed by the ciphertexts, all under that one IV, of its
    consecutive pieces: ceil(len / chunkSize) non-empty pieces of at most
    [chunkSize] bytes whose concatenation is the message, so the envelope
    has IV length + len + 16 * ceil(len / chunkSize) bytes. *)
Theorem X22_large_message_envelope
        (gcm_encrypt_length :
           forall k v m, byteLength (gcmEncrypt k v m) = byteLength m + 16)
        (message : bytes) (chunkSize : Z) :
  0 < chunkSize < byteLength message ->
  exists pieces,
    encryptAesGcmOptimized CryptoKey gcmEncrypt key iv message chunkSize
    = Some (Returns (iv ++ concat (map (gcmEncrypt key iv) pieces)))
    /\ concat pieces = message
    /\ Forall (fun piece => 0 < byteLength piece <= chunkSize) pieces
    /\ Z.of_nat (length pieces)
       = (byteLength message + chunkSize - 1) / chunkSize
    /\ byteLength (iv ++ concat (map (gcmEncrypt key iv) pieces))
       = byteLength iv + byteLength message
         + 16 * ((byteLength message + chunkSize - 1) / chunkSize).
Proof.
  intros Hc. unfold encryptAesGcmOptimized.
  destruct (Z.gtb_spec (byteLength message) chunkSize) as [_|H]; [|lia].
  destruct (encryptLoop_pieces message chunkSize (S (length message)) 0 [])
    as (pieces & Hrun & Hcat & Hall & Hcount);
    try (unfold byteLength; lia).
  cbn [Z.to_nat skipn] in Hcat. rewrite Z.sub_0_r in Hcount.
  exists pieces. rewrite Hrun. cbn [app].
  set (cts := map (gcmEncrypt key iv) pieces).
  assert (Hbody : byteLength (concat cts)
                  = byteLength message + 16 * Z.of_nat (length pieces)).
  { rewrite <- Hcat. unfold cts. clear - gcm_encrypt_length.
    induction pieces as [|p pieces IH]; cbn [map concat length].
    - reflexivity.
    - rewrite !byteLength_app, gcm_encrypt_length, IH. lia. }
  split; [|split; [exact Hcat|split; [exact Hall|split; [exact Hcount|]]]].
  - f_equal. rewrite totalLength_concat. cbn [Z.add].
    rewrite newUint8Array_split by apply byteLength_nonneg.
    pose proof (set_overwrites [] (newUint8Array (byteLength iv))
                  (newUint8Array (byteLength (concat cts))) iv) as S0.
    cbn [app] in S0. change (byteLength []) with 0 in S0.
    rewrite S0
      by (rewrite newUint8Array_length by apply byteLength_nonneg;
          unfold byteLength; lia).
    cbn [bind]. apply combineChunks_concat.
  - rewrite byteLength_app, Hbody, Hcount. lia.
Qed.

End EnvelopeFormat.

Section EnvelopeFormatExamples.
Import Js Crypto.

(** Three bytes under a threshold of three bytes, with the stand-in
    cipher. *)
Lemma X21_witness_three_bytes_threshold_three :
  byteLength [x61; x62; x63] <= 3
  /\ exists envelope,
       encryptAesGcmOptimized byte sampleEncrypt x2a sampleIv
                              [x61; x62; x63] 3
       = Some (Returns envelope)
       /\ envelope = sampleIv ++ sampleEncrypt x2a sampleIv [x61; x62; x63]
       /\ byteLength envelope = 12 + byteLength [x61; x62; x63] + 16
       /\ decryptAesGcmOptimized byte sampleDecrypt x2a envelope 1
          = Returns [x61; x62; x63].
Proof.
  assert (Hsmall : byteLength [x61; x62; x63] <= 3) by (cbv; discriminate).
  split; [exact Hsmall|].
  exact (X21_small_message_roundtrip byte sampleEncrypt sampleDecrypt x2a
           sampleIv sampleEncrypt_length sampleDecrypt_correct eq_refl
           [x61; x62; x63] 3 1 Hsmall).
Defined.

(** Five bytes under a threshold of two bytes: three pieces. *)
Lemma X22_witness_five_bytes_threshold_two :
  0 < 2 < byteLength [x61; x62; x63; x64; x65]
  /\ exists pieces,
       encryptAesGcmOptimized byte sampleEncrypt x2a sampleIv
                              [x61; x62; x63; x64; x65] 2
       = Some (Returns (sampleIv
                        ++ concat (map (sampleEncrypt x2a sampleIv) pieces)))
       /\ concat pieces = [x61; x62; x63; x64; x65]
       /\ Forall (fun piece => 0 < byteLength piece <= 2) pieces
       /\ Z.of_nat (length pieces)
          = (byteLength [x61; x62; x63; x64; x65] + 2 - 1) / 2
       /\ byteLength (sampleIv
                      ++ concat (map (sampleEncrypt x2a sampleIv) pieces))
          = byteLength sampleIv + byteLength [x61; x62; x63; x64; x65]
            + 16 * ((byteLength [x61; x62; x63; x64; x65] + 2 - 1) / 2).
Proof.
  assert (Hlarge : 0 < 2 < byteLength [x61; x62; x63; x64; x65])
    by (split; reflexivity).
  split; [exact Hlarge|].
  exact (X22_large_message_envelope byte sampleEncrypt x2a sampleIv
           sampleEncrypt_length [x61; x62; x63; x64; x65] 2 Hlarge).
Defined.

End EnvelopeFormatExamples.

(** ** The session key and its store *)

Section SessionKeyFacts.
Import Js UniqueCode Base64 CryptoEncoding SessionKeys.
Local Open Scope Z_scope.

Lemma initialize_done (env : rtc) (st : IceStunKeyStore) :
  isInitialized st = true -> initialize env st = (Returns tt, st).
Proof. intros H. unfold initialize. now rewrite H. Qed.

Lemma storeSessionKey_done (key : jsstring) (env : rtc)
      (st : IceStunKeyStore) :
  isInitialized st = true ->
  storeSessionKey key env st = (Returns tt, setKey st (Some key)).
Proof.
  intros H. unfold storeSessionKey. now rewrite initialize_done.
Qed.

Lemma retrieveSessionKey_done (env : rtc) (st : IceStunKeyStore) :
  isInitialized st = true ->
  retrieveSessionKey env st = (Returns (sessionKeyCache st), st).
Proof.
  intros H. unfold retrieveSessionKey. now rewrite initialize_done.
Qed.

Lemma rotateSessionKey_done (exportedKey : bytes) (base64 : jsstring)
      (env : rtc) (st : IceStunKeyStore) :
  isInitialized st = true ->
  btoa (fromCharCode exportedKey) = Returns base64 ->
  rotateSessionKey exportedKey env st
  = Some (Returns base64, setKey st (Some base64)).
Proof.
  intros H Hb. unfold rotateSessionKey, setSessionKeyInIceStun.
  now rewrite arrayBufferToBase64_btoa, Hb, storeSessionKey_done.
Qed.

(** What [checkAndRotateSessionKey] does to a store that is
    initialized. *)
Lemma checkAndRotateSessionKey_done (minutes now : Z)
      (exportedKey retryKey : bytes) (base64 : jsstring) (env : rtc)
      (st : IceStunKeyStore) :
  isInitialized st = true ->
  btoa (fromCharCode exportedKey) = Returns base64 ->
  checkAndRotateSessionKey minutes now exportedKey retryKey env st
  = Some (Returns tt,
          match truthy (sessionKeyCache st) with
          | None => setKey st (Some base64)
          | Some key =>
              if expired (parseIntDecimal (substringFromStart key 13))
                         now minutes
              then setKey st (Some base64) else st
          end).
Proof.
  intros H Hb. unfold checkAndRotateSessionKey, getSessionKeyFromIceStun.
  rewrite retrieveSessionKey_done by exact H.
  destruct (truthy (sessionKeyCache st)) as [key|].
  - destruct (expired _ now minutes); [|reflexivity].
    now rewrite (rotateSessionKey_done _ base64) by assumption.
  - now rewrite (rotateSessionKey_done _ base64) by assumption.
Qed.

(** A call on an initialized store changes the key at most. *)
Lemma after_initialized (c : call) (st : IceStunKeyStore) :
  isInitialized st = true ->
  isInitialized (after st c) = true
  /\ connections (after st c) = connections st
  /\ peerConnection (after st c) = peerConnection st.
Proof.
  intros H. destruct c as [key env|env| |raw env|minutes now raw retry env];
    cbn [after].
  - rewrite storeSessionKey_done by exact H. cbn. auto.
  - rewrite retrieveSessionKey_done by exact H. cbn. auto.
  - cbn. auto.
  - destruct (btoa_fromCharCode raw) as [base64 Hb].
    rewrite (rotateSessionKey_done _ base64) by assumption. cbn. auto.
  - destruct (btoa_fromCharCode raw) as [base64 Hb].
    rewrite (checkAndRotateSessionKey_done _ _ _ _ base64) by assumption.
    destruct (truthy (sessionKeyCache st)) as [key|]; [|cbn; auto].
    destruct (expired _ now minutes); cbn; auto.
Qed.

Lemma run_initialized (calls : list call) :
  forall st,
    isInitialized st = true ->
    isInitialized (run calls st) = true
    /\ connections (run calls st) = connections st
    /\ peerConnection (run calls st) = peerConnection st.
Proof.
  induction calls as [|c calls IH]; intros st H; cbn [run fold_left].
  - auto.
  - destruct (after_initialized c st H) as (Hi & Hc & Hp).
    destruct (IH (after st c) Hi) as (Hi' & Hc' & Hp').
    unfold run in *. rewrite Hc', Hp', Hc, Hp. auto.
Qed.

(** A call on a store that is not initialized builds one connection when
    it gets past the constructor, and none otherwise. *)
Lemma after_uninitialized (c : call) (st : IceStunKeyStore) :
  isInitialized st = false ->
  (connections (after st c) <= S (connections st))%nat
  /\ (isInitialized (after st c) = false ->
      connections (after st c)
      = if halfBuilt c then S (connections st) else connections st).
Proof.
  intros H.
  assert (Hinit : forall env,
             initialize env st
             = match env with
               | Connects =>
                   (Returns tt,
                    mkStore true (sessionKeyCache st) true
                            (S (connections st)) (iceRestarts st))
               | ConstructorThrows e => (Throws e, st)
               | OfferRejects e =>
                   (Throws e,
                    mkStore true (sessionKeyCache st) false
                            (S (connections st)) (iceRestarts st))
               end).
  { intros env. unfold initialize. rewrite H. now destruct env. }
  destruct c as [key env|env| |raw env|minutes now raw retry env];
    cbn [after halfBuilt].
  - unfold storeSessionKey. rewrite Hinit.
    destruct env; cbn; split; (lia || congruence || auto).
  - unfold retrieveSessionKey. rewrite Hinit.
    destruct env; cbn; split; (lia || congruence || auto).
  - cbn. split; [lia|auto].
  - destruct (btoa_fromCharCode raw) as [base64 Hb].
    unfold rotateSessionKey, setSessionKeyInIceStun, storeSessionKey.
    rewrite arrayBufferToBase64_btoa, Hb, Hinit.
    destruct env; cbn; split; (lia || congruence || auto).
  - destruct (btoa_fromCharCode raw) as [base64 Hb].
    unfold checkAndRotateSessionKey, getSessionKeyFromIceStun,
      retrieveSessionKey.
    rewrite Hinit. destruct env as [|e|e].
    + set (st1 := mkStore true (sessionKeyCache st) true
                          (S (connections st)) (iceRestarts st)).
      assert (H1 : isInitialized st1 = true) by reflexivity.
      change (sessionKeyCache st1) with (sessionKeyCache st).
      destruct (truthy (sessionKeyCache st)) as [key|].
      * destruct (expired _ now minutes).
        -- rewrite (rotateSessionKey_done _ base64) by assumption.
           cbn. split; [lia|congruence].
        -- cbn. split; [lia|congruence].
      * rewrite (rotateSessionKey_done _ base64) by assumption.
        cbn. split; [lia|congruence].
    + cbn. split; [lia|auto].
    + cbn. split; [lia|auto].
Qed.

Lemma run_connections (calls : list call) :
  forall st,
    (connections (run calls st)
     <= connections st + length (filter halfBuilt calls)
        + (if isInitialized st then 0 else 1))%nat.
Proof.
  induction calls as [|c calls IH]; intros st; cbn [run fold_left].
  - lia.
  - specialize (IH (after st c)). unfold run in IH.
    destruct (isInitialized st) eqn:H.
    + destruct (after_initialized c st H) as (Hi & Hc & _).
      rewrite Hi, Hc in IH. cbn [filter].
      destruct (halfBuilt c); cbn [length]; lia.
    + destruct (after_uninitialized c st H) as (Hle & Hsame).
      cbn [filter].
      destruct (isInitialized (after st c)) eqn:H'.
      * destruct (halfBuilt c); cbn [length]; lia.
      * specialize (Hsame eq_refl).
        destruct (halfBuilt c); cbn [length]; lia.
Qed.

(** *** Reading a timestamp *)

Lemma digitValue_ten (c d : N) :
  digitValue 10 c = Some d ->
  ((48 <=? c) && (c <=? 57))%N = true /\ (d < 10)%N.
Proof.
  unfold digitValue.
  destruct ((48 <=? c) && (c <=? 57))%N eqn:E1.
  - destruct (c - 48 <? 10)%N eqn:E; [|discriminate].
    intros [= <-]. apply N.ltb_lt in E. auto.
  - destruct ((97 <=? c) && (c <=? 122))%N eqn:E2.
    + destruct (c - 97 + 10 <? 10)%N eqn:E; [|discriminate].
      apply N.ltb_lt in E. lia.
    + destruct ((65 <=? c) && (c <=? 90))%N eqn:E3; [|discriminate].
      destruct (c - 65 + 10 <? 10)%N eqn:E; [|discriminate].
      apply N.ltb_lt in E. lia.
Qed.

(** The value of the digits read is below what the digits in front can
    hold. *)
Lemma takeDigits_bound (s : jsstring) :
  forall (acc : option N) (v : N),
    takeDigits 10 s acc = Some v ->
    (v < match acc with Some a => a + 1 | None => 1 end
         * 10 ^ N.of_nat (leadingDigits s))%N.
Proof.
  induction s as [|c rest IH]; intros acc v Hv; cbn [takeDigits] in Hv.
  - subst acc. cbn. lia.
  - cbn [leadingDigits]. destruct (digitValue 10 c) as [d|] eqn:Ed.
    + destruct (digitValue_ten c d Ed) as [-> Hd].
      apply IH in Hv. rewrite Nat2N.inj_succ, N.pow_succ_r'.
      eapply N.lt_le_trans; [exact Hv|].
      rewrite N.mul_assoc. apply N.mul_le_mono_r.
      destruct acc as [a|]; lia.
    + subst acc.
      match goal with
      | |- (_ < _ * 10 ^ ?k)%N =>
          assert (10 ^ k <> 0)%N by (apply N.pow_nonzero; lia);
          generalize dependent (10 ^ k)%N
      end.
      intros p Hp. nia.
Qed.

Lemma leadingDigits_length (s : jsstring) :
  (leadingDigits s <= length s)%nat.
Proof.
  induction s as [|c rest IH]; cbn [leadingDigits length]; [lia|].
  destruct ((48 <=? c) && (c <=? 57))%N; lia.
Qed.

Lemma leadingDigits_all (s : jsstring) :
  leadingDigits s = length s -> Forall isDecimalDigit s.
Proof.
  induction s as [|c rest IH]; cbn [leadingDigits length]; intros H.
  - constructor.
  - destruct ((48 <=? c) && (c <=? 57))%N eqn:E; [|discriminate].
    constructor; [|apply IH; lia].
    apply andb_true_iff in E as [E1 E2].
    apply N.leb_le in E1. apply N.leb_le in E2. unfold isDecimalDigit. lia.
Qed.

Lemma trimStart_length (s : jsstring) :
  (length (trimStart s) <= length s)%nat
  /\ (length (trimStart s) = length s -> trimStart s = s).
Proof.
  induction s as [|c rest [IH1 IH2]]; cbn [trimStart length]; [auto|].
  destruct (isStrWhiteSpaceChar c); cbn [length]; [|auto].
  split; [lia|]. intros H. lia.
Qed.

Lemma splitSign_length (s : jsstring) :
  (length (snd (splitSign s)) <= length s)%nat
  /\ (length (snd (splitSign s)) = length s -> splitSign s = (1, s)).
Proof.
  destruct s as [|c rest]; cbn [splitSign]; [auto|].
  destruct (c =? 45)%N; [cbn; split; lia|].
  destruct (c =? 43)%N; cbn; split; (lia || auto).
Qed.

(** A string of at most thirteen characters that [parseInt] reads as
    10^12 or more is thirteen decimal digits. *)
Lemma parseIntDecimal_timestamp (s : jsstring) (t : Z) :
  (length s <= 13)%nat ->
  parseIntDecimal s = Num t -> 1000000000000 <= t ->
  length s = 13%nat /\ Forall isDecimalDigit s.
Proof.
  intros Hlen Hparse Ht. unfold parseIntDecimal in Hparse.
  destruct (trimStart_length s) as [Ht1 Ht2].
  destruct (splitSign_length (trimStart s)) as [Hs1 Hs2].
  destruct (splitSign (trimStart s)) as [sign s1] eqn:Esplit.
  cbn [snd] in Hs1, Hs2.
  destruct (takeDigits 10 s1 None) as [v|] eqn:Ev; [|discriminate].
  injection Hparse as <-.
  pose proof (takeDigits_bound s1 None v Ev) as Hv.
  pose proof (leadingDigits_length s1) as Hlead.
  assert (Hsign : sign = 1 \/ sign = -1).
  { destruct (trimStart s) as [|c rest]; cbn [splitSign] in Esplit.
    - injection Esplit as <- _. auto.
    - destruct (c =? 45)%N; [injection Esplit as <- _; auto|].
      destruct (c =? 43)%N; injection Esplit as <- _; auto. }
  assert (Hbig : (10 ^ 12 <= v)%N) by (change (10 ^ 12)%N with 1000000000000%N; lia).
  assert (Hfull : (13 <= leadingDigits s1)%nat).
  { destruct (Nat.le_gt_cases 13 (leadingDigits s1)) as [Hge|Hlt]; [exact Hge|].
    exfalso.
    assert ((10 ^ N.of_nat (leadingDigits s1) <= 10 ^ 12)%N)
      by (apply N.pow_le_mono_r; lia).
    cbv beta iota in Hv. rewrite N.mul_1_l in Hv. lia. }
  assert (Hall : leadingDigits s1 = length s1) by lia.
  assert (length s1 = length (trimStart s)) by lia.
  specialize (Hs2 ltac:(assumption)). injection Hs2 as _ ->.
  assert (length (trimStart s) = length s) by lia.
  specialize (Ht2 ltac:(assumption)). rewrite Ht2 in *.
  split; [lia|]. now apply leadingDigits_all.
Qed.

End SessionKeyFacts.

Section SessionKeyTheorems.
Import Js UniqueCode Base64 CryptoEncoding SessionKeys.
Local Open Scope Z_scope.

(** X23: for calls of the key store's interface (store, retrieve, clear,
    [rotateSessionKey], [checkAndRotateSessionKey]) that are taken one
    after the other, none beginning while another awaits: once the store
    is initialized, no run of such calls, whatever WebRTC does during
    them, builds another [RTCPeerConnection] or undoes the
    initialization; and from a new store, a run of such calls builds at
    most one connection more than it has calls whose initialization
    failed after the constructor.  (Calls that overlap are outside this
    statement: [initialize] awaits between its test of isInitialized and
    its assignment, so each of them can build a connection.) *)
Theorem X23_store_connects_once (calls : list call) (st : IceStunKeyStore) :
  (isInitialized st = true ->
   isInitialized (run calls st) = true
   /\ connections (run calls st) = connections st)
  /\ (connections (run calls newStore)
      <= S (length (filter halfBuilt calls)))%nat.
Proof.
  split.
  - intros H. destruct (run_initialized calls st H) as (Hi & Hc & _). auto.
  - pose proof (run_connections calls newStore) as H. cbn in H. lia.
Qed.

(** A store that connected at its first call, then a clear and a
    retrieval while WebRTC fails. *)
Lemma X23_witness_retrieve_after_failure :
  isInitialized (run [Store (lit "a2V5") Connects] newStore) = true
  /\ isInitialized
       (run [Clear; Retrieve (OfferRejects TypeError)]
            (run [Store (lit "a2V5") Connects] newStore)) = true
  /\ connections
       (run [Clear; Retrieve (OfferRejects TypeError)]
            (run [Store (lit "a2V5") Connects] newStore))
     = connections (run [Store (lit "a2V5") Connects] newStore).
Proof.
  split; [reflexivity|].
  destruct (X23_store_connects_once
              [Clear; Retrieve (OfferRejects TypeError)]
              (run [Store (lit "a2V5") Connects] newStore)) as [Hkeep _].
  exact (Hkeep eq_refl).
Defined.





End SessionKeyTheorems.

(** ** Imported session keys *)

Section KeyCacheFacts.
Import Js Base64 CryptoEncoding KeyCache.

Variable CryptoKey : Type.
Variable importKey : bytes -> outcome CryptoKey.

Local Abbreviation import := (importSessionKeyFromBase64 CryptoKey importKey).

Lemma jsstring_eqb_refl (s : jsstring) : Json.jsstring_eqb s s = true.
Proof.
  unfold Json.jsstring_eqb. now destruct (list_eq_dec N.eq_dec s s).
Qed.

Lemma get_app_found (es : list (jsstring * CryptoKey))
      (entry : jsstring * CryptoKey) (key : jsstring) (k : CryptoKey) :
  get es key = Some k -> get (es ++ [entry]) key = Some k.
Proof.
  induction es as [|[k0 v0] es IH]; cbn [get app]; [discriminate|].
  destruct (Json.jsstring_eqb k0 key); auto.
Qed.

Lemma get_app_new (es : list (jsstring * CryptoKey)) (key : jsstring)
      (k : CryptoKey) :
  get es key = None -> get (es ++ [(key, k)]) key = Some k.
Proof.
  induction es as [|[k0 v0] es IH]; cbn [get app].
  - now rewrite jsstring_eqb_refl.
  - destruct (Json.jsstring_eqb k0 key); [discriminate|auto].
Qed.

Lemma import_cached (key : jsstring) (k : CryptoKey) (c : cache CryptoKey) :
  get (entries c) key = Some k -> import key c = (Returns k, c).
Proof.
  intros H. unfold importSessionKeyFromBase64. now rewrite H.
Qed.

Lemma import_stores (key : jsstring) (k : CryptoKey)
      (c c1 : cache CryptoKey) :
  import key c = (Returns k, c1) -> get (entries c1) key = Some k.
Proof.
  unfold importSessionKeyFromBase64.
  destruct (get (entries c) key) as [cached|] eqn:Hget.
  - intros [= <- <-]. exact Hget.
  - destruct (base64ToArrayBuffer key) as [keyBuffer|e]; [|discriminate].
    destruct (importKey keyBuffer) as [sessionKey|e]; [|discriminate].
    intros [= <- <-]. cbn [entries]. now apply get_app_new.
Qed.

Lemma import_keeps (key other : jsstring) (k : CryptoKey)
      (c : cache CryptoKey) :
  get (entries c) key = Some k ->
  get (entries (snd (import other c))) key = Some k.
Proof.
  intros H. unfold importSessionKeyFromBase64.
  destruct (get (entries c) other); [exact H|].
  destruct (base64ToArrayBuffer other) as [keyBuffer|e]; [|exact H].
  destruct (importKey keyBuffer) as [sessionKey|e]; [|exact H].
  cbn [snd entries]. now apply get_app_found.
Qed.

Lemma import_counts (other : jsstring) (c : cache CryptoKey) :
  (imported (snd (import other c)) <= S (imported c))%nat.
Proof.
  unfold importSessionKeyFromBase64.
  destruct (get (entries c) other); [cbn; lia|].
  destruct (base64ToArrayBuffer other) as [keyBuffer|e]; [|cbn; lia].
  destruct (importKey keyBuffer) as [sessionKey|e]; cbn; lia.
Qed.

Lemma importAll_keeps (others : list jsstring) (key : jsstring)
      (k : CryptoKey) :
  forall c,
    get (entries c) key = Some k ->
    get (entries (importAll CryptoKey importKey others c)) key = Some k
    /\ (imported (importAll CryptoKey importKey others c)
        <= imported c + length others)%nat.
Proof.
  induction others as [|other others IH]; intros c H;
    cbn [importAll fold_left length].
  - split; [exact H|lia].
  - destruct (IH _ (import_keeps key other k c H)) as [Hget Hcount].
    split; [exact Hget|].
    pose proof (import_counts other c). unfold importAll in Hcount. lia.
Qed.

(** X26: for calls of [importSessionKeyFromBase64] that are taken one
    after the other, each settling before the next begins: a key that a
    call returned for a string is returned for that string by every later
    call, after any other imports, without another [importKey] and
    without a change of the cache; no entry is replaced or removed, and a
    call that throws adds no entry.  (Calls that overlap are outside this
    statement: the function awaits [importKey] between its test of the
    cache and its insertion, so two of them for one string both import
    and the later insertion replaces the earlier.) *)
Theorem X26_imported_key_stays (base64SessionKey : jsstring)
        (c : cache CryptoKey) (others : list jsstring) :
  (forall k c1,
      import base64SessionKey c = (Returns k, c1) ->
      import base64SessionKey (importAll CryptoKey importKey others c1)
      = (Returns k, importAll CryptoKey importKey others c1)
      /\ (imported (importAll CryptoKey importKey others c1)
          <= imported c1 + length others)%nat)
  /\ (forall e c1,
         import base64SessionKey c = (Throws e, c1) ->
         entries c1 = entries c).
Proof.
  split.
  - intros k c1 Himport. apply import_stores in Himport.
    destruct (importAll_keeps others base64SessionKey k c1 Himport)
      as [Hget Hcount].
    split; [now apply import_cached|exact Hcount].
  - intros e c1. unfold importSessionKeyFromBase64.
    destruct (get (entries c) base64SessionKey); [discriminate|].
    destruct (base64ToArrayBuffer base64SessionKey) as [keyBuffer|e0];
      [|now intros [= _ <-]].
    destruct (importKey keyBuffer) as [sessionKey|e0]; [discriminate|].
    now intros [= _ <-].
Qed.

End KeyCacheFacts.

Section KeyCacheExamples.
Import Js Base64 CryptoEncoding KeyCache TripleLayer.

(** The key of one byte 2a, then a string that is no base64 and the same
    key again. *)
Lemma X26_witness_one_byte_key :
  importSessionKeyFromBase64 byte sampleImport (lit "Kg==") (mkCache byte [] 0)
  = (Returns x2a, mkCache byte [(lit "Kg==", x2a)] 1)
  /\ importSessionKeyFromBase64 byte sampleImport (lit "Kg==")
       (importAll byte sampleImport [lit "!"; lit "Kg=="]
                  (mkCache byte [(lit "Kg==", x2a)] 1))
     = (Returns x2a,
        importAll byte sampleImport [lit "!"; lit "Kg=="]
                  (mkCache byte [(lit "Kg==", x2a)] 1)).
Proof.
  assert (Hfirst : importSessionKeyFromBase64 byte sampleImport (lit "Kg==")
                     (mkCache byte [] 0)
                   = (Returns x2a, mkCache byte [(lit "Kg==", x2a)] 1))
    by (vm_compute; reflexivity).
  split; [exact Hfirst|].
  destruct (X26_imported_key_stays byte sampleImport (lit "Kg==")
              (mkCache byte [] 0) [lit "!"; lit "Kg=="]) as [Hstays _].
  exact (proj1 (Hstays x2a _ Hfirst)).
Defined.

End KeyCacheExamples.

(** ** The layered encryption *)

Section LayerTheorems.
Import Js UniqueCode Crypto SessionKeys KeyCache TripleLayer.
Local Open Scope Z_scope.

Variable CryptoKey : Type.
Variable gcmEncrypt : CryptoKey -> bytes -> bytes -> bytes.
Variable gcmDecrypt : CryptoKey -> bytes -> bytes -> outcome bytes.
Variable exportKey : CryptoKey -> bytes.
Variable importKey : bytes -> outcome CryptoKey.
Variable RsaPublicKey RsaPrivateKey : Type.
Variable rsaEncrypt : RsaPublicKey -> bytes -> outcome bytes.
Variable rsaDecrypt : RsaPrivateKey -> bytes -> outcome bytes.

(** X27: for a message of at most [chunkSize] bytes, whatever
    [tripleLayerEncryptOptimized] returns is the envelope of the message
    under the fresh AES key, that key's raw bytes under the RSA public
    key, and the time as the key id: the session key is in none of them;
    and [tripleLayerDecryptOptimized] with the matching private key and
    any threshold returns the message.  Yet when the key store is not
    initialized and its initialization throws, the encryption throws that
    error.  (The cipher, the key import and export and the RSA pair are
    taken to invert each other, the IV to have twelve bytes.) *)
Theorem X27_layered_roundtrip
        (gcm_decrypt_encrypt :
           forall k v m, gcmDecrypt k v (gcmEncrypt k v m) = Returns m)
        (import_export : forall k, importKey (exportKey k) = Returns k)
        (rsaPublicKey : RsaPublicKey) (rsaPrivateKey : RsaPrivateKey)
        (rsa_pair :
           forall b c, rsaEncrypt rsaPublicKey b = Returns c ->
                       rsaDecrypt rsaPrivateKey c = Returns b)
        (aesKey : CryptoKey) (iv : bytes) (iv_length : byteLength iv = 12)
        (sessionRaw : bytes) (now : Z) (env : rtc) (message : bytes)
        (chunkSize decryptChunkSize : Z) (w : world CryptoKey) :
  byteLength message <= chunkSize ->
  (forall r w1,
      tripleLayerEncryptOptimized CryptoKey gcmEncrypt exportKey importKey
        RsaPublicKey rsaEncrypt aesKey iv sessionRaw now env message
        rsaPublicKey chunkSize w
      = Some (Returns r, w1) ->
      encryptedMessage r = iv ++ gcmEncrypt aesKey iv message
      /\ rsaEncrypt rsaPublicKey (exportKey aesKey)
         = Returns (encryptedAesKey r)
      /\ sessionKeyId r = Number_toString now
      /\ tripleLayerDecryptOptimized CryptoKey gcmDecrypt importKey
           RsaPrivateKey rsaDecrypt (encryptedMessage r) (encryptedAesKey r)
           rsaPrivateKey decryptChunkSize
         = Returns message)
  /\ (forall e st1,
         isInitialized (store w) = false ->
         initialize env (store w) = (Throws e, st1) ->
         tripleLayerEncryptOptimized CryptoKey gcmEncrypt exportKey importKey
           RsaPublicKey rsaEncrypt aesKey iv sessionRaw now env message
           rsaPublicKey chunkSize w
         = Some (Throws e, mkWorld CryptoKey st1 (keys w))).
Proof.
  intros Hsmall. unfold tripleLayerEncryptOptimized.
  rewrite (direct_envelope CryptoKey gcmEncrypt aesKey iv message chunkSize
             Hsmall).
  split.
  - intros r w1.
    destruct (getSessionKeyFromIceStun env (store w)) as [[stored|e] st1];
      [|discriminate].
    destruct (match truthy stored with
              | Some key => Some (Returns key, st1)
              | None => rotateSessionKey sessionRaw env st1
              end) as [[[sessionKeyBase64|e] st2]|]; try discriminate.
    destruct (importSessionKeyFromBase64 CryptoKey importKey
                sessionKeyBase64 (keys w)) as [[sessionKey|e] c1];
      [|discriminate].
    destruct (rsaEncrypt rsaPublicKey (exportKey aesKey))
      as [encryptedKey|e] eqn:Ersa; [|discriminate].
    intros [= <- _]. cbn [encryptedMessage encryptedAesKey sessionKeyId].
    split; [reflexivity|]. split; [reflexivity|]. split; [reflexivity|].
    unfold tripleLayerDecryptOptimized.
    rewrite (rsa_pair _ _ Ersa). cbn [bind]. rewrite import_export.
    cbn [bind].
    rewrite (decrypt_envelope CryptoKey gcmDecrypt aesKey iv iv_length).
    apply gcm_decrypt_encrypt.
  - intros e st1 _ Hinit.
    unfold getSessionKeyFromIceStun, retrieveSessionKey.
    now rewrite Hinit.
Qed.

End LayerTheorems.

Section LayerExamples.
Import Js UniqueCode Crypto SessionKeys KeyCache TripleLayer.
Local Open Scope Z_scope.

(** Three bytes through the stand-ins, from a new key store that
    connects. *)
Lemma X27_witness_three_bytes :
  byteLength [x61; x62; x63] <= layerChunkSize
  /\ exists r w1,
       tripleLayerEncryptOptimized byte sampleEncrypt sampleExport
         sampleImport byte sampleRsaEncrypt x2a sampleIv [x07]
         1700000000000 Connects [x61; x62; x63] x17 layerChunkSize
         (mkWorld byte newStore (mkCache byte [] 0))
       = Some (Returns r, w1)
       /\ tripleLayerDecryptOptimized byte sampleDecrypt sampleImport byte
            sampleRsaDecrypt (encryptedMessage r) (encryptedAesKey r) x17
            layerChunkSize
          = Returns [x61; x62; x63].
Proof.
  assert (Hsmall : byteLength [x61; x62; x63] <= layerChunkSize)
    by (cbv; discriminate).
  split; [exact Hsmall|].
  assert (Hpair : forall b c,
             sampleRsaEncrypt x17 b = Returns c ->
             sampleRsaDecrypt x17 c = Returns b).
  { intros b c [= <-]. unfold sampleRsaDecrypt. rewrite map_map.
    rewrite <- (map_id b) at 2. apply (f_equal Returns). apply map_ext.
    intros x. apply maskByte_involutive. }
  destruct (X27_layered_roundtrip byte sampleEncrypt sampleDecrypt
              sampleExport sampleImport byte byte sampleRsaEncrypt
              sampleRsaDecrypt sampleDecrypt_correct
              (fun k => eq_refl) x17 x17 Hpair x2a sampleIv eq_refl [x07]
              1700000000000 Connects [x61; x62; x63] layerChunkSize
              layerChunkSize (mkWorld byte newStore (mkCache byte [] 0))
              Hsmall) as [Hround _].
  eexists. eexists. split; [vm_compute; reflexivity|].
  match goal with
  | |- tripleLayerDecryptOptimized _ _ _ _ _ (encryptedMessage ?r) _ _ _ = _ =>
      destruct (Hround r _ ltac:(vm_compute; reflexivity))
        as (_ & _ & _ & Hdec)
  end.
  exact Hdec.
Defined.

End LayerExamples.

(** ** Transfer settings *)

Section TransferSettingsFacts.
Import Js Configs.
Local Open Scope Z_scope.

Lemma lessThan_le (x y : number) (c : Z) :
  numberLe x y -> lessThan y c = true -> lessThan x c = true.
Proof.
  destruct x as [a| | |], y as [b| | |]; cbn [numberLe lessThan];
    try contradiction; try discriminate; try reflexivity.
  intros Hab Hb. apply negb_true_iff in Hb. apply negb_true_iff.
  destruct (QArith_base.Qle_bool (QArith_base.inject_Z c) a) eqn:E;
    [|reflexivity].
  apply QArith_base.Qle_bool_iff in E.
  assert (Hcb : QArith_base.Qle (QArith_base.inject_Z c) b)
    by (eapply QArith_base.Qle_trans; eassumption).
  apply QArith_base.Qle_bool_iff in Hcb. congruence.
Qed.

End TransferSettingsFacts.

Section TransferSettingsTheorems.
Import Js Configs.
Local Open Scope Z_scope.

(** X28: whatever the options and the probe give, NaN and the infinities
    included, [optimizeTransferSettings] keeps every other member of the
    options and sets the chunk size and compression level to one of the
    pairs (4096, 9), (8192, 9), (16384, 7), (65536, 6) and the parallel
    chunks to 1..4, a function of the probe alone; a failed probe gives
    4096, 2 and 9; and at equal latency a larger bandwidth gives no
    smaller chunk size, no fewer parallel chunks and no higher
    compression level. *)
Theorem X28_transfer_settings_tiers {Others : Type}
        (options : SendOptions Others) (p : probe) :
  others (optimizeTransferSettings options p) = others options
  /\ In (chunkSize (optimizeTransferSettings options p),
         compressionLevel (optimizeTransferSettings options p))
        [(4096, 9); (8192, 9); (16384, 7); (65536, 6)]
  /\ 1 <= parallelChunks (optimizeTransferSettings options p) <= 4
  /\ (forall options' : SendOptions Others,
         others options' = others options ->
         optimizeTransferSettings options' p
         = optimizeTransferSettings options p)
  /\ optimizeTransferSettings options FetchFailed
     = mkSendOptions 4096 2 9 (others options)
  /\ (forall b b' l,
         numberLe b b' ->
         chunkSize (optimizeTransferSettings options (Fetched b l))
         <= chunkSize (optimizeTransferSettings options (Fetched b' l))
         /\ parallelChunks (optimizeTransferSettings options (Fetched b l))
            <= parallelChunks
                 (optimizeTransferSettings options (Fetched b' l))
         /\ compressionLevel
              (optimizeTransferSettings options (Fetched b' l))
            <= compressionLevel
                 (optimizeTransferSettings options (Fetched b l))).
Proof.
  split; [|split; [|split; [|split; [|split]]]].
  - unfold optimizeTransferSettings.
    repeat match goal with
           | |- context [if ?b then _ else _] => destruct b
           end; reflexivity.
  - unfold optimizeTransferSettings.
    repeat match goal with
           | |- context [if ?b then _ else _] => destruct b
           end; cbn; tauto.
  - unfold optimizeTransferSettings.
    repeat match goal with
           | |- context [if ?b then _ else _] => destruct b
           end; cbn; lia.
  - intros options' Hsame. unfold optimizeTransferSettings.
    now rewrite Hsame.
  - reflexivity.
  - intros b b' l Hle. unfold optimizeTransferSettings, detectNetworkQuality.
    cbn [bandwidth latency].
    pose proof (lessThan_le b b' (50 * 1024) Hle) as H1.
    pose proof (lessThan_le b b' (200 * 1024) Hle) as H2.
    pose proof (lessThan_le b b' (1024 * 1024) Hle) as H3.
    destruct (lessThan b' (50 * 1024)), (lessThan b' (200 * 1024)),
      (lessThan b' (1024 * 1024));
      try rewrite (H1 eq_refl); try rewrite (H2 eq_refl);
      try rewrite (H3 eq_refl);
      destruct (lessThan b (50 * 1024)), (lessThan b (200 * 1024)),
        (lessThan b (1024 * 1024)), (greaterThan l 300);
      cbn; lia.
Qed.

(** A probe that measured 100000 bytes per second at 350 ms, and twice
    that bandwidth. *)
Lemma X28_witness_two_bandwidths :
  numberLe (Finite (QArith_base.inject_Z 100000))
           (Finite (QArith_base.inject_Z 200000))
  /\ chunkSize
       (optimizeTransferSettings (mkSendOptions 256000 20 20 tt)
          (Fetched (Finite (QArith_base.inject_Z 100000))
                   (Finite (QArith_base.inject_Z 350))))
     <= chunkSize
          (optimizeTransferSettings (mkSendOptions 256000 20 20 tt)
             (Fetched (Finite (QArith_base.inject_Z 200000))
                      (Finite (QArith_base.inject_Z 350)))).
Proof.
  assert (Hle : numberLe (Finite (QArith_base.inject_Z 100000))
                         (Finite (QArith_base.inject_Z 200000)))
    by (cbv; discriminate).
  split; [exact Hle|].
  destruct (X28_transfer_settings_tiers (mkSendOptions 256000 20 20 tt)
              FetchFailed) as (_ & _ & _ & _ & _ & Hmono).
  exact (proj1 (Hmono _ _ (Finite (QArith_base.inject_Z 350)) Hle)).
Defined.

End TransferSettingsTheorems.

(** ** Retries of a data channel *)

Section RetryFacts.
Import Js Configs.
Local Open Scope Z_scope.

Variable attempts : nat -> attempt.
Variable maxRetries : Z.

Lemma retryLoop_opens (d : nat) :
  forall (r fuel : nat) (waits : list Z),
    (d < fuel)%nat ->
    Z.of_nat (r + d) < maxRetries ->
    (forall j, (j < d)%nat -> attempts (r + j) <> Opens) ->
    attempts (r + d) = Opens ->
    retryLoop fuel attempts maxRetries (Z.of_nat r) waits
    = Some (Returns (Z.of_nat (r + d)),
            waits ++ map (fun i => 1000 * 2 ^ Z.of_nat i) (seq (S r) d)).
Proof.
  induction d as [|d IH]; intros r fuel waits Hfuel Hmax Hfail Hopen;
    (destruct fuel as [|fuel]; [lia|]); cbn [retryLoop].
  - destruct (Z.ltb_spec (Z.of_nat r) maxRetries); [|lia].
    rewrite Nat2Z.id. rewrite Nat.add_0_r in Hopen. rewrite Hopen.
    cbn [seq map]. now rewrite app_nil_r, Nat.add_0_r.
  - destruct (Z.ltb_spec (Z.of_nat r) maxRetries); [|lia].
    rewrite Nat2Z.id.
    destruct (attempts r) as [|e] eqn:Er.
    + exfalso. apply (Hfail 0%nat); [lia|]. now rewrite Nat.add_0_r.
    + destruct (Z.geb_spec (Z.of_nat r + 1) maxRetries); [lia|].
      replace (Z.of_nat r + 1) with (Z.of_nat (S r)) by lia.
      rewrite (IH (S r) fuel).
      * rewrite <- app_assoc. cbn [seq map app].
        now replace (S r + d)%nat with (r + S d)%nat by lia.
      * lia.
      * lia.
      * intros j Hj. replace (S r + j)%nat with (r + S j)%nat by lia.
        apply Hfail. lia.
      * now replace (S r + d)%nat with (r + S d)%nat by lia.
Qed.

Lemma retryLoop_exhausts (d : nat) :
  forall (r fuel : nat) (waits : list Z) (e : error),
    (d < fuel)%nat ->
    Z.of_nat (r + d) + 1 = maxRetries ->
    (forall j, (j < d)%nat -> attempts (r + j) <> Opens) ->
    attempts (r + d) = Fails e ->
    retryLoop fuel attempts maxRetries (Z.of_nat r) waits
    = Some (Throws e,
            waits ++ map (fun i => 1000 * 2 ^ Z.of_nat i) (seq (S r) d)).
Proof.
  induction d as [|d IH]; intros r fuel waits e Hfuel Hmax Hfail Hlast;
    (destruct fuel as [|fuel]; [lia|]); cbn [retryLoop].
  - destruct (Z.ltb_spec (Z.of_nat r) maxRetries); [|lia].
    rewrite Nat2Z.id. rewrite Nat.add_0_r in Hlast. rewrite Hlast.
    destruct (Z.geb_spec (Z.of_nat r + 1) maxRetries); [|lia].
    cbn [seq map]. now rewrite app_nil_r.
  - destruct (Z.ltb_spec (Z.of_nat r) maxRetries); [|lia].
    rewrite Nat2Z.id.
    destruct (attempts r) as [|e0] eqn:Er.
    + exfalso. apply (Hfail 0%nat); [lia|]. now rewrite Nat.add_0_r.
    + destruct (Z.geb_spec (Z.of_nat r + 1) maxRetries); [lia|].
      replace (Z.of_nat r + 1) with (Z.of_nat (S r)) by lia.
      rewrite (IH (S r) fuel _ e).
      * rewrite <- app_assoc. reflexivity.
      * lia.
      * lia.
      * intros j Hj. replace (S r + j)%nat with (r + S j)%nat by lia.
        apply Hfail. lia.
      * now replace (S r + d)%nat with (r + S d)%nat by lia.
Qed.

Lemma backoff_total (n : nat) :
  fold_right Z.add 0 (backoff n) = 1000 * (2 ^ (Z.of_nat n + 1) - 2).
Proof.
  unfold backoff. induction n as [|n IH].
  - reflexivity.
  - rewrite seq_S, map_app, fold_right_app. cbn [map fold_right].
    assert (Hshift : forall (l : list Z) (x : Z),
               fold_right Z.add x l = fold_right Z.add 0 l + x).
    { induction l as [|y l IHl]; intros x; cbn [fold_right]; [lia|].
      rewrite IHl. lia. }
    rewrite Hshift, IH.
    replace (Z.of_nat (1 + n)) with (Z.of_nat n + 1) by lia.
    replace (Z.of_nat (S n) + 1) with (Z.succ (Z.of_nat n + 1)) by lia.
    rewrite Z.pow_succ_r by lia. lia.
Qed.

End RetryFacts.

Section RetryTheorems.
Import Js Configs.
Local Open Scope Z_scope.

(** X29: [createReliableDataChannel] returns the channel of the first
    attempt that opens, if that is among the first [maxRetries] attempts,
    after waits of 2000, 4000, ... ms, one per failed attempt, doubling
    (1000 * (2^(n+1) - 2) ms in all before the attempt number n); when
    the first [maxRetries] attempts all fail it throws the error of the
    last of them, without a wait after it; and with [maxRetries] of 0 or
    less it attempts nothing and throws its own error. *)
Theorem X29_channel_retries (attempts : nat -> attempt) (maxRetries : Z) :
  (maxRetries <= 0 ->
   createReliableDataChannel attempts maxRetries
   = Some (Throws (Error (lit "Failed to create data channel after max retries")),
           []))
  /\ (forall n,
         Z.of_nat n < maxRetries ->
         (forall j, (j < n)%nat -> attempts j <> Opens) ->
         attempts n = Opens ->
         createReliableDataChannel attempts maxRetries
         = Some (Returns (Z.of_nat n), backoff n)
         /\ fold_right Z.add 0 (backoff n)
            = 1000 * (2 ^ (Z.of_nat n + 1) - 2))
  /\ (forall e,
         0 < maxRetries ->
         (forall j, Z.of_nat j < maxRetries - 1 -> attempts j <> Opens) ->
         attempts (Z.to_nat (maxRetries - 1)) = Fails e ->
         createReliableDataChannel attempts maxRetries
         = Some (Throws e, backoff (Z.to_nat (maxRetries - 1)))).
Proof.
  unfold createReliableDataChannel. split; [|split].
  - intros Hmax. destruct (Z.to_nat maxRetries) eqn:E; cbn [retryLoop];
      destruct (Z.ltb_spec 0 maxRetries); (lia || reflexivity).
  - intros n Hn Hfail Hopen. split; [|apply backoff_total].
    apply (retryLoop_opens attempts maxRetries n 0 (Z.to_nat maxRetries) []);
      cbn [Nat.add]; (lia || assumption).
  - intros e Hmax Hfail Hlast.
    apply (retryLoop_exhausts attempts maxRetries
             (Z.to_nat (maxRetries - 1)) 0 (Z.to_nat maxRetries) [] e);
      cbn [Nat.add]; try lia; try assumption.
    intros j Hj. apply Hfail. lia.
Qed.

(** Three tries allowed; the first two fail, the third opens. *)
Lemma X29_witness_third_attempt_opens :
  createReliableDataChannel
    (fun n => if (n <? 2)%nat then Fails OperationError else Opens) 3
  = Some (Returns 2, [2000; 4000])
  /\ createReliableDataChannel (fun _ => Fails OperationError) 3
     = Some (Throws OperationError, [2000; 4000]).
Proof.
  destruct (X29_channel_retries
              (fun n => if (n <? 2)%nat then Fails OperationError else Opens)
              3) as (_ & Hopens & _).
  destruct (X29_channel_retries (fun _ => Fails OperationError) 3)
    as (_ & _ & Hfails).
  split.
  - apply (Hopens 2%nat); [lia | | reflexivity].
    intros j Hj. destruct j as [|[|j]]; [discriminate | discriminate | lia].
  - apply (Hfails OperationError); [lia | discriminate | reflexivity].
Defined.

End RetryTheorems.

(** ** The SDP codec *)

Section SdpTheorems.
Import Js Base64 Sdp.

Variable compactSDP : jsstring -> jsstring.
Variable decompactSDP : jsstring -> bool -> jsstring.

(** X30: the text of [sdpEncode] has as many characters as the compacted
    SDP and none of [/], [+] and [=]; and when the compacted SDP has none
    of [_], [~] and [-] (a base64 text has none), [sdpDecode] hands
    exactly the compacted SDP to [decompactSDP]. *)
Theorem X30_sdp_code_roundtrip (s : jsstring) :
  length (sdpEncode compactSDP s) = length (compactSDP s)
  /\ (forall c, In c (sdpEncode compactSDP s) ->
                c <> slash /\ c <> plus /\ c <> equals)
  /\ (forall isOffer,
         (forall c, In c (compactSDP s) ->
                    c <> underscore /\ c <> tilde /\ c <> hyphen) ->
         sdpDecode decompactSDP (sdpEncode compactSDP s) isOffer
         = decompactSDP (compactSDP s) isOffer).
Proof.
  unfold sdpEncode, sdpDecode, replaceAll. split; [|split].
  - now rewrite !length_map.
  - intros c Hc. rewrite !map_map in Hc. apply in_map_iff in Hc.
    destruct Hc as (x & <- & _).
    unfold slash, plus, equals, underscore, tilde, hyphen.
    destruct (N.eqb_spec x 47) as [->|H1]; [cbn; lia|].
    destruct (N.eqb_spec x 43) as [->|H2]; [cbn; lia|].
    destruct (N.eqb_spec x 61) as [->|H3]; [cbn; lia|].
    lia.
  - intros isOffer Hplain. f_equal. rewrite !map_map.
    rewrite <- (map_id (compactSDP s)) at 2. apply map_ext_in.
    intros x Hx. destruct (Hplain x Hx) as (H1 & H2 & H3).
    unfold slash, plus, equals, underscore, tilde, hyphen in *.
    destruct (N.eqb_spec x 47) as [->|E1]; [reflexivity|].
    destruct (N.eqb_spec x 43) as [->|E2]; [reflexivity|].
    destruct (N.eqb_spec x 61) as [->|E3]; [reflexivity|].
    destruct (N.eqb_spec x 95) as [->|E4]; [contradiction|].
    destruct (N.eqb_spec x 126) as [->|E5]; [contradiction|].
    destruct (N.eqb_spec x 45) as [->|E6]; [contradiction|].
    reflexivity.
Qed.

End SdpTheorems.

Section SdpExamples.
Import Js Base64 Sdp.

(** A text with the three characters that are replaced. *)
Lemma X30_witness_three_replacements :
  sdpEncode sampleCompact (lit "a/b+c=") = lit "a_b~c-"
  /\ sdpDecode sampleDecompact (sdpEncode sampleCompact (lit "a/b+c=")) true
     = sampleDecompact (sampleCompact (lit "a/b+c=")) true.
Proof.
  split; [reflexivity|].
  destruct (X30_sdp_code_roundtrip sampleCompact sampleDecompact
              (lit "a/b+c=")) as (_ & _ & Hround).
  apply Hround. intros c Hc. cbv in Hc.
  repeat (destruct Hc as [<-|Hc]; [repeat split; discriminate|]).
  contradiction.
Defined.

End SdpExamples.
